(** * contaminante: pixel-level decontamination engine (utils.py)

    A shallow embedding of [search], [build_X], [build_model], [build_lc]
    and [get_centroid_plot].  numpy's float64 arrays are lists of IEEE-754
    binary64 values, taken from the specification of floating-point
    arithmetic of the standard library ([spec_float], one NaN, signed
    zeros and infinities, round to nearest even).

    The embedding covers arrays whose shapes agree, as the code gets them
    from a target pixel file: where numpy raises on arrays of different
    lengths ([np.hstack], broadcasting, assignment to a slice) the lists
    are cut to the shorter one, so numpy's shape errors are outside the
    model, and the theorems state the shapes they rely on.  Sums are
    accumulated from left to right, the sparse matrix is held by its dense
    rows, and integer powers above 2 are repeated multiplications. *)

From Stdlib Require Import ZArith Bool Lia.
From Stdlib Require Import Floats.SpecFloat.
From Stdlib Require String Ascii.
From stdpp Require Import base list.

Open Scope Z_scope.

(** ** binary64 *)

Module F64.

Abbreviation float := spec_float.

Definition prec : Z := 53.
Definition emax : Z := 1024.

Definition of_Z (z : Z) : float := binary_normalize prec emax z 0 false.

Definition add : float -> float -> float := SFadd prec emax.
Definition sub : float -> float -> float := SFsub prec emax.
Definition mul : float -> float -> float := SFmul prec emax.
Definition div : float -> float -> float := SFdiv prec emax.
Definition sqrt : float -> float := SFsqrt prec emax.
Definition abs : float -> float := SFabs.

(** Python's comparison operators; every comparison with NaN is false,
    except [!=], which is true. *)
Definition eqb : float -> float -> bool := SFeqb.
Definition ltb : float -> float -> bool := SFltb.
Definition gtb (x y : float) : bool := SFltb y x.
Definition neqb (x y : float) : bool := negb (SFeqb x y).

Definition zero : float := S754_zero false.
Definition one : float := of_Z 1.
Definition five : float := of_Z 5.
Definition ten : float := of_Z 10.
Definition nan : float := S754_nan.

(** A decimal literal [n / d] with [n] and [d] exactly representable: the
    division rounds the exact quotient once, as the parser of the literal
    does. *)
Definition of_ratio (n d : Z) : float := div (of_Z n) (of_Z d).

Definition max_float : float := SFmax_float prec emax.

(** [np.isfinite] *)
Definition isfinite (x : float) : bool :=
  match x with
  | S754_zero _ | S754_finite _ _ _ => true
  | S754_infinity _ | S754_nan => false
  end.

Definition isnan (x : float) : bool :=
  match x with S754_nan => true | _ => false end.

Definition is_zero (x : float) : bool :=
  match x with S754_zero _ => true | _ => false end.

(** [np.nan_to_num] with its defaults: NaN becomes 0.0 and the infinities
    become the largest finite values of the type. *)
Definition nan_to_num (x : float) : float :=
  match x with
  | S754_nan => zero
  | S754_infinity false => max_float
  | S754_infinity true => SFopp max_float
  | _ => x
  end.

(** [x ** 2] is numpy's [square]; higher integer powers are modelled by
    repeated multiplication. *)
Definition sq (x : float) : float := mul x x.
Definition cube (x : float) : float := mul (mul x x) x.

End F64.

Import F64.

Abbreviation vec := (list float).
Abbreviation matrix := (list (list float)).

(** ** numpy helpers *)

Module Np.

(** [ndarray.sum()], accumulated from left to right. *)
Definition sum (l : vec) : float := foldl add zero l.

(** [np.nansum]: NaN entries count as zero. *)
Definition nansum (l : vec) : float :=
  foldl add zero (map (fun x => if isnan x then zero else x) l).

(** [ndarray.mean()] *)
Definition mean (l : vec) : float := div (sum l) (of_Z (Z.of_nat (length l))).

(** [a[mask] = v] for a boolean mask of the array's length. *)
Fixpoint mask_assign {A} (mask : list bool) (v : A) (l : list A) : list A :=
  match mask, l with
  | b :: mask', x :: l' => (if b then v else x) :: mask_assign mask' v l'
  | _, _ => l
  end.

(** [a[mask]] for a boolean mask of the array's length. *)
Fixpoint select {A} (mask : list bool) (l : list A) : list A :=
  match mask, l with
  | b :: mask', x :: l' =>
      if b then x :: select mask' l' else select mask' l'
  | _, _ => []
  end.

(** [np.diff] *)
Fixpoint diff (l : vec) : vec :=
  match l with
  | x :: (y :: _) as l' => sub y x :: diff l'
  | _ => []
  end.

(** [np.where(mask)[0]]: the indices at which the mask holds. *)
Fixpoint where_from (i : nat) (mask : list bool) : list nat :=
  match mask with
  | [] => []
  | b :: mask' =>
      if b then i :: where_from (S i) mask' else where_from (S i) mask'
  end.

Definition where_ (mask : list bool) : list nat := where_from 0 mask.

(** [np.in1d(a, t)]: for each entry of [a], whether it equals an entry
    of [t]. *)
Definition in1d (a t : vec) : list bool :=
  map (fun x => existsb (eqb x) t) a.

(** [a[lo:hi]] with [0 <= lo]. *)
Definition slice {A} (lo hi : nat) (l : list A) : list A :=
  take (hi - lo) (drop lo l).

(** [np.array_split(a, indices)]: the pieces of [a] between consecutive
    division points [0, indices..., len(a)]. *)
Fixpoint split_from {A} (lo : nat) (indices : list nat) (l : list A)
  : list (list A) :=
  match indices with
  | [] => [slice lo (length l) l]
  | i :: indices' => slice lo i l :: split_from i indices' l
  end.

Definition array_split {A} (l : list A) (indices : list nat) : list (list A) :=
  split_from 0 indices l.

(** Row-wise concatenation of blocks with the same number of rows:
    [np.hstack]. *)
Fixpoint hstack2 (a b : matrix) : matrix :=
  match a, b with
  | ra :: a', rb :: b' => (ra ++ rb) :: hstack2 a' b'
  | _, _ => []
  end.

(** [m.T] for a matrix of [n] columns given by its rows. *)
Definition col (j : nat) (m : matrix) : vec :=
  map (fun row => nth j row zero) m.

Definition transpose (n : nat) (m : matrix) : matrix :=
  map (fun j => col j m) (seq 0 n).

End Np.

(** ** The pixel stamp *)

Record tpf := {
  time : vec;                          (* tpf.time, one entry per cadence *)
  flux : list (list (list float));     (* tpf.flux[t][row][col] *)
  flux_err : list (list (list float)); (* tpf.flux_err[t][row][col] *)
  pos_corr1 : vec;                     (* row offsets *)
  pos_corr2 : vec;                     (* column offsets *)
  pipeline_mask : list (list bool);    (* tpf.pipeline_mask[row][col] *)
  coord_ra : list (list (list float)); (* tpf.get_coordinates()[0][t][row][col] *)
  coord_dec : list (list (list float));(* tpf.get_coordinates()[1][t][row][col] *)
  nrows : nat;                         (* tpf.shape[1] *)
  ncols : nat                          (* tpf.shape[2] *)
}.

(** ** build_X: cleaning of the pointing corrections (lines 31-33) *)

Definition clean_pos_corr (p1 p2 : vec) : vec * vec :=
  let r := map nan_to_num p1 in
  let c := map nan_to_num p2 in
  let r := Np.mask_assign (map (fun x => gtb (abs x) ten) r) zero r in
  let c := Np.mask_assign (map (fun x => gtb (abs x) ten) r) zero c in
  (r, c).

(** ** build_X: segment boundaries (lines 35-36) *)

(** The literal [0.0202 * 10]. *)
Definition gap_threshold : float := mul (of_ratio 202 10000) ten.

Definition find_breaks (t : vec) : list Z :=
  let breaks :=
    map (fun i : nat => Z.of_nat i - 1)
        (Np.where_ (map (fun d => gtb d gap_threshold) (Np.diff t))) in
  filter (fun b : Z => 0 < b) breaks.

(** [np.array_split(tpf.time, breaks)] *)
Definition segments (t : vec) : list vec :=
  Np.array_split t (map Z.to_nat (find_breaks t)).

(** ** Exceptions *)

Inductive exn :=
  | IndexError | ValueError | OverflowError | ZeroDivisionError
  | LinAlgError | AttributeError | CollaboratorError.

Inductive result (A : Type) :=
  | Ok (a : A)
  | Raise (e : exn).

Arguments Ok {A} a.
Arguments Raise {A} e.

#[global] Instance result_ret : MRet result := fun A a => Ok a.
#[global] Instance result_bind : MBind result := fun A B f m =>
  match m with
  | Ok a => f a
  | Raise e => Raise e
  end.

(** [int(x)] of a float: truncation toward zero. *)
Definition int_of_float (x : float) : result Z :=
  match x with
  | S754_zero _ => Ok 0
  | S754_finite s m e =>
      let a := match e with
               | Z.neg _ => Z.shiftr (Z.pos m) (- e)
               | _ => Z.shiftl (Z.pos m) e
               end in
      Ok (if s then - a else a)
  | S754_infinity _ => Raise OverflowError
  | S754_nan => Raise ValueError
  end.

(** [a[0]] and [a[-1]] *)
Definition first_ {A} (l : list A) : result A :=
  match l with
  | x :: _ => Ok x
  | [] => Raise IndexError
  end.

Definition last_ {A} (l : list A) : result A :=
  match last l with
  | Some x => Ok x
  | None => Raise IndexError
  end.

(** [for x in l: ...] with an accumulator, stopping at the first
    exception. *)
Fixpoint mapM {A B} (f : A -> result B) (l : list A) : result (list B) :=
  match l with
  | [] => Ok []
  | x :: l' => y ← f x; ys ← mapM f l'; Ok (y :: ys)
  end.

(** ** Light curves *)

Record lightcurve := {
  lc_time : vec;
  lc_flux : vec;
  lc_flux_err : vec
}.

(** ** Collaborators outside the repository

    numpy.linalg, numpy.random, lightkurve, patsy and matplotlib are used
    through the interface below. *)

Class Collaborators := {
  (** state of numpy's global random generator *)
  rng : Type;
  (** a lightkurve box-least-squares periodogram *)
  periodogram : Type;
  figure : Type;
  (** [a // b] on float64 *)
  floor_divide : float -> float -> float;
  (** [lk.correctors.designmatrix.create_spline_matrix(t, n_knots=n).values] *)
  create_spline_matrix : vec -> Z -> result matrix;
  (** [tpf.create_threshold_mask()] *)
  create_threshold_mask : tpf -> list (list bool);
  (** [lk.DesignMatrix(m).pca(3).values] *)
  pca3 : matrix -> result matrix;
  (** [numpy.linalg.solve] and [numpy.linalg.inv]; both raise LinAlgError
      on a singular matrix *)
  solve : matrix -> vec -> result vec;
  inv : matrix -> result matrix;
  (** [np.random.multivariate_normal(mean, cov)] *)
  multivariate_normal : vec -> matrix -> rng -> vec * rng;
  (** Lines 110-111: from [SA], [w] and [sigma_w], the per-cadence
      difference between the median and the 16th percentile of 100
      resampled models *)
  resampled_error : matrix -> vec -> matrix -> rng -> result (vec * rng);
  (** [tpf.to_lightcurve(aperture_mask=m)] *)
  to_lightcurve : tpf -> list (list bool) -> lightcurve;
  (** [lc / model] and [lc.append(other)] on lightkurve light curves *)
  lc_div : lightcurve -> vec -> lightcurve;
  lc_append : lightcurve -> lightcurve -> lightcurve;
  (** [lc.normalize().flatten(21).to_periodogram('bls', period=[p, p])] *)
  to_periodogram : lightcurve -> float -> result periodogram;
  (** [bls.get_transit_model(period, transit_time, duration).flux] *)
  get_transit_model : periodogram -> float -> float -> float -> vec;
  (** [bls.depth[0]] *)
  depth0 : periodogram -> float;
  (** [bls.get_transit_mask(period, transit_time, duration)] *)
  get_transit_mask : periodogram -> float -> float -> float -> list bool;
  (** Lines 226-248: the figure, from the values handed to matplotlib *)
  plot : list tpf -> bool -> float -> float ->
         float * float -> float * float ->
         option lightcurve -> option lightcurve -> option lightcurve ->
         result figure
}.

(** ** build_X (lines 29-69)

    The matrix that [csr_matrix] wraps is kept as the list of its rows. *)

Definition b2f (b : bool) : float := if b then one else zero.

Definition block_map (f : float -> float) (a : matrix) : matrix :=
  map (map f) a.

Definition block_mul (a b : matrix) : matrix :=
  zip_with (zip_with mul) a b.

(** [np.in1d(tpf.time, t) for t in np.array_split(tpf.time, breaks)] *)
Definition seg_indicators (t : vec) : list (list bool) :=
  map (Np.in1d t) (segments t).

Definition indicator_block (t : vec) : matrix :=
  map (map b2f) (seg_indicators t).

(** Line 40: [in1d(time, s) * (time - s.mean()) / (s[-1] - s[0])] *)
Definition trend_row (t s : vec) : result vec :=
  let m := Np.mean s in
  hi ← last_ s;
  lo ← first_ s;
  Ok (zip_with (fun b x => div (mul (b2f b) (sub x m)) (sub hi lo))
               (Np.in1d t s) t).

(** Lines 45 and 46: [in1d(time, s) * (r - r[in1d(time, s)].mean())] *)
Definition motion_row (t r s : vec) : vec :=
  let ind := Np.in1d t s in
  let m := Np.mean (Np.select ind r) in
  zip_with (fun b x => mul (b2f b) (sub x m)) ind r.

(** Lines 39-41, before the transposition. *)
Definition time_trend_blocks (t : vec) : result (list matrix) :=
  let ts0 := indicator_block t in
  ts1 ← mapM (trend_row t) (segments t);
  Ok [ts0; ts1; block_map sq ts1].

(** Lines 44-50, before the transposition. *)
Definition motion_blocks (t r c : vec) : list matrix :=
  let rs0 := indicator_block t in
  let rs1 := map (motion_row t r) (segments t) in
  let cs1 := map (motion_row t c) (segments t) in
  let rs2 := block_map sq rs1 in
  let cs2 := block_map sq cs1 in
  let rs3 := block_map cube rs1 in
  let cs3 := block_map cube cs1 in
  [rs0;
   rs1; cs1; block_mul rs1 cs1;
   rs2; cs2; block_mul rs2 cs1; block_mul rs1 cs2; block_mul rs2 cs2;
   block_mul rs3 cs3; block_mul rs3 cs2; block_mul rs3 cs1; rs3; cs3;
   block_mul cs3 rs1; block_mul cs3 rs2].

(** [np.vstack(blocks).T] for blocks whose rows have [n] entries. *)
Definition vstack_T (n : nat) (blocks : list matrix) : matrix :=
  Np.transpose n (concat blocks).

(** Lines 31-50. *)
Definition centroids (p : tpf) : result matrix :=
  let '(r, c) := clean_pos_corr (pos_corr1 p) (pos_corr2 p) in
  let t := time p in
  if eqb (Np.sum r) zero then
    blocks ← time_trend_blocks t;
    Ok (vstack_T (length t) blocks)
  else
    Ok (vstack_T (length t) (motion_blocks t r c)).

(** [tpf.flux[:, ~mask]]: per cadence, the pixels outside the mask. *)
Definition flux_outside (p : tpf) (mask : list (list bool)) : matrix :=
  map (fun frame => Np.select (map negb (concat mask)) (concat frame)) (flux p).

Section BuildX.
Context `{Collaborators}.

(** Line 60: [max(4, int((time[-1] - time[0]) // spline_period))] *)
Definition n_knots (t : vec) (spline_period : float) : result Z :=
  hi ← last_ t;
  lo ← first_ t;
  n ← int_of_float (floor_divide (sub hi lo) spline_period);
  Ok (Z.max 4 n).

(** Lines 53-61: the regressors before weighting. *)
Definition regressors (p : tpf) (background : bool) (cbvs : option matrix)
    (spline : bool) (spline_period : float) : result matrix :=
  A ← centroids p;
  let A := match cbvs with
           | Some v => Np.hstack2 A (map (map nan_to_num) v)
           | None => A
           end in
  A ← (if background then
         bkg ← pca3 (flux_outside p (create_threshold_mask p));
         Ok (Np.hstack2 A bkg)
       else Ok A);
  if spline then
    n ← n_knots (time p) spline_period;
    spline_dm ← create_spline_matrix (time p) n;
    Ok (Np.hstack2 A spline_dm)
  else Ok A.

(** Line 63: [np.atleast_2d(flux).T * A] *)
Definition weight_rows (w : vec) (A : matrix) : matrix :=
  zip_with (fun x row => map (mul x) row) w A.

(** Lines 65-68. *)
Definition append_offset (SA : matrix) (t_model : option vec) : matrix :=
  match t_model with
  | Some tm => zip_with (fun row x => row ++ [one; x]) SA tm
  | None => map (fun row => row ++ [one]) SA
  end.

Definition build_X (p : tpf) (fl : vec) (t_model : option vec)
    (background : bool) (cbvs : option matrix) (spline : bool)
    (spline_period : float) : result matrix :=
  A ← regressors p background cbvs spline spline_period;
  Ok (append_offset (weight_rows fl A) t_model).

End BuildX.

(** ** Weighted least squares (lines 97-100 and 139-142) *)

Definition dot (u v : vec) : float := Np.sum (zip_with mul u v).

(** [SA.dot(w)] *)
Definition mat_vec (m : matrix) (v : vec) : vec := map (fun row => dot row v) m.

Definition ncols_of (m : matrix) : nat :=
  match m with
  | row :: _ => length row
  | [] => 0%nat
  end.

(** [a.T.dot(x)] and [a.T.dot(v)] for [a] with [k] columns. *)
Definition tdot_mat (k : nat) (a x : matrix) : matrix :=
  map (fun i => map (fun j => dot (Np.col i a) (Np.col j x)) (seq 0 k)) (seq 0 k).

Definition tdot_vec (k : nat) (a : matrix) (v : vec) : vec :=
  map (fun i => dot (Np.col i a) v) (seq 0 k).

(** The information matrix and the projection vector from the selected
    cadences, for [k] columns. *)
Definition normal_equations_of (k : nat) (SAm : matrix) (fm fem : vec)
  : matrix * vec :=
  let SA_dot_sigma_f_inv :=
    zip_with (fun row e => map (fun a => mul a (div one (sq e))) row) SAm fem in
  let sigma_w_inv := tdot_mat k SAm SA_dot_sigma_f_inv in
  let B := tdot_vec k SAm (zip_with (fun x e => div x (sq e)) fm fem) in
  (sigma_w_inv, B).

Definition normal_equations (SA : matrix) (cadence_mask : list bool)
    (f fe : vec) : matrix * vec :=
  let SAm := Np.select cadence_mask SA in
  let SA_dot_sigma_f_inv :=
    zip_with (fun row e => map (fun a => mul a (div one (sq e))) row)
             SAm (Np.select cadence_mask fe) in
  let sigma_w_inv := tdot_mat (ncols_of SA) SAm SA_dot_sigma_f_inv in
  let B := tdot_vec (ncols_of SA) SAm
             (Np.select cadence_mask (zip_with (fun x e => div x (sq e)) f fe)) in
  (sigma_w_inv, B).

(** [np.std] of a list of floats. *)
Definition std (l : vec) : float :=
  let m := Np.mean l in
  sqrt (Np.mean (map (fun x => sq (sub x m)) l)).

(** ** build_model (lines 72-119) *)

Abbreviation cube3 := (list (list (list float))).

(** [a[:, idx, jdx]] *)
Definition pixel_series (a : cube3) (idx jdx : nat) : vec :=
  map (fun frame => nth jdx (nth idx frame []) nan) a.

(** [a[idx, jdx] = x] *)
Definition set_pixel (idx jdx : nat) (x : float) (a : list (list float))
  : list (list float) :=
  alter (fun row => <[jdx := x]> row) idx a.

(** [a[:, idx, jdx] = v] *)
Definition set_pixel_series (idx jdx : nat) (v : vec) (a : cube3) : cube3 :=
  zip_with (fun frame x => set_pixel idx jdx x frame) a v.

Definition zeros2 (r c : nat) : list (list float) := replicate r (replicate c zero).
Definition zeros3 (t r c : nat) : cube3 := replicate t (zeros2 r c).

Record fit_arrays := {
  model : cube3;
  model_err : cube3;
  transit_pixels : list (list float);
  transit_pixels_err : list (list float)
}.

(** What [build_model] returns, by [t_model is not None] and [errors]. *)
Inductive model_out :=
  | Model (model : cube3)
  | ModelErr (model model_err : cube3)
  | ModelTransit (model : cube3) (transit_pixels transit_pixels_err : list (list float))
  | ModelErrTransit (model model_err : cube3)
                    (transit_pixels transit_pixels_err : list (list float)).

Definition pixels (r c : nat) : list (nat * nat) :=
  idx ← seq 0 r; jdx ← seq 0 c; [(idx, jdx)].

Section BuildModel.
Context `{Collaborators}.

(** A computation that reads and advances the random generator and may
    raise. *)
Definition M (A : Type) : Type := rng -> result (A * rng).

Fixpoint foldM {A S} (f : A -> S -> M S) (l : list A) (s : S) : M S :=
  fun g =>
    match l with
    | [] => Ok (s, g)
    | x :: l' => '(s', g') ← f x s g; foldM f l' s' g'
    end.

(** [n] successive draws. *)
Fixpoint draws (n : nat) (w : vec) (sigma : matrix) (g : rng) : list vec * rng :=
  match n with
  | O => ([], g)
  | S n' =>
      let '(x, g1) := multivariate_normal w sigma g in
      let '(xs, g2) := draws n' w sigma g1 in
      (x :: xs, g2)
  end.

(** Lines 105-107. *)
Definition record_transit (idx jdx : nat) (w : vec) (sigma_w : matrix)
    (st : fit_arrays) : M fit_arrays := fun g =>
  depth ← last_ w;
  let '(xs, g') := draws 50 w sigma_w g in
  lasts ← mapM last_ xs;
  Ok ({| model := model st;
         model_err := model_err st;
         transit_pixels := set_pixel idx jdx depth (transit_pixels st);
         transit_pixels_err := set_pixel idx jdx (std lasts) (transit_pixels_err st) |},
      g').

(** Lines 109-111. *)
Definition record_errors (SA : matrix) (idx jdx : nat) (w : vec)
    (sigma_w : matrix) (st : fit_arrays) : M fit_arrays := fun g =>
  '(e, g') ← resampled_error SA w sigma_w g;
  Ok ({| model := model st;
         model_err := set_pixel_series idx jdx e (model_err st);
         transit_pixels := transit_pixels st;
         transit_pixels_err := transit_pixels_err st |},
      g').

(** The body of the pixel loop, lines 92-111. *)
Definition fit_pixel (SA : matrix) (cadence_mask : list bool)
    (has_t_model errors : bool) (p : tpf) (px : nat * nat) (st : fit_arrays)
  : M fit_arrays := fun g =>
  let '(idx, jdx) := px in
  let f := pixel_series (flux p) idx jdx in
  let fe := pixel_series (flux_err p) idx jdx in
  if negb (existsb isfinite f) then Ok (st, g)
  else
    let '(sigma_w_inv, B) := normal_equations SA cadence_mask f fe in
    w ← solve sigma_w_inv B;
    let st := {| model := set_pixel_series idx jdx (mat_vec SA w) (model st);
                 model_err := model_err st;
                 transit_pixels := transit_pixels st;
                 transit_pixels_err := transit_pixels_err st |} in
    sigma_w ← inv sigma_w_inv;
    '(st, g) ← (if has_t_model then record_transit idx jdx w sigma_w st g
                else Ok (st, g));
    if errors then record_errors SA idx jdx w sigma_w st g else Ok (st, g).

Definition initial_arrays (p : tpf) : fit_arrays :=
  {| model := zeros3 (length (flux p)) (nrows p) (ncols p);
     model_err := zeros3 (length (flux p)) (nrows p) (ncols p);
     transit_pixels := zeros2 (nrows p) (ncols p);
     transit_pixels_err := zeros2 (nrows p) (ncols p) |}.

Definition all_cadences (p : tpf) : list bool := replicate (length (time p)) true.

(** The pixel loop of [build_model] on a given design matrix. *)
Definition fit_pixels (SA : matrix) (cadence_mask : list bool)
    (has_t_model errors : bool) (p : tpf) : M fit_arrays :=
  foldM (fit_pixel SA cadence_mask has_t_model errors p)
        (pixels (nrows p) (ncols p)) (initial_arrays p).

Definition pack (has_t_model errors : bool) (st : fit_arrays) : model_out :=
  match has_t_model, errors with
  | true, true => ModelErrTransit (model st) (model_err st)
                                  (transit_pixels st) (transit_pixels_err st)
  | true, false => ModelTransit (model st) (transit_pixels st) (transit_pixels_err st)
  | false, true => ModelErr (model st) (model_err st)
  | false, false => Model (model st)
  end.

Definition build_model (p : tpf) (lc : lightcurve) (cbvs : option matrix)
    (t_model : option vec) (errors : bool) (cadence_mask : option (list bool))
    (background spline : bool) : M model_out := fun g =>
  let cadence_mask := default (all_cadences p) cadence_mask in
  SA ← build_X p (lc_flux lc) t_model background cbvs spline (of_Z 2);
  '(st, g') ← fit_pixels SA cadence_mask (bool_decide (is_Some t_model)) errors p g;
  Ok (pack (bool_decide (is_Some t_model)) errors st, g').

(** ** build_lc (lines 121-145) *)

(** [SA[:, :-1]] *)
Definition drop_last_column (SA : matrix) : matrix :=
  map (fun row => take (length row - 1) row) SA.

(** Lines 131-132: the design matrix of the aggregate fit. *)
Definition lc_design (p : tpf) (cbvs : option matrix) (background spline : bool)
    (spline_period : float) : result matrix :=
  SA ← build_X p (replicate (length (time p)) one) None background cbvs spline
               spline_period;
  Ok (drop_last_column SA).

(** The parameter [errors] of [build_lc] is not used by it. *)
Definition build_lc (p : tpf) (aperture_mask : list (list bool))
    (cbvs : option matrix) (cadence_mask : option (list bool))
    (background spline : bool) (spline_period : float) : result lightcurve :=
  let cadence_mask := default (all_cadences p) cadence_mask in
  SA ← lc_design p cbvs background spline spline_period;
  let raw_lc := to_lightcurve p aperture_mask in
  let f := lc_flux raw_lc in
  let fe := lc_flux_err raw_lc in
  let '(sigma_w_inv, B) := normal_equations SA cadence_mask f fe in
  w ← solve sigma_w_inv B;
  let model := mat_vec SA w in
  Ok (lc_div raw_lc model).

(** Lines 131-143 alone: the model that line 145 divides by. *)
Definition lc_model (p : tpf) (aperture_mask : list (list bool))
    (cbvs : option matrix) (cadence_mask : option (list bool))
    (background spline : bool) (spline_period : float) : result vec :=
  let cadence_mask := default (all_cadences p) cadence_mask in
  SA ← lc_design p cbvs background spline spline_period;
  let raw_lc := to_lightcurve p aperture_mask in
  let '(sigma_w_inv, B) :=
    normal_equations SA cadence_mask (lc_flux raw_lc) (lc_flux_err raw_lc) in
  w ← solve sigma_w_inv B;
  Ok (mat_vec SA w).

End BuildModel.

(** ** get_centroid_plot (lines 148-248) *)

(** [np.median] and [np.nanmedian] of a 1-d array. *)
Fixpoint insert_sorted (x : float) (l : vec) : vec :=
  match l with
  | [] => [x]
  | y :: l' => if SFleb x y then x :: l else y :: insert_sorted x l'
  end.

Definition sort (l : vec) : vec := foldr insert_sorted [] l.

Definition median (l : vec) : float :=
  if existsb isnan l then nan
  else
    let s := sort l in
    let n := length s in
    match n with
    | O => nan
    | _ =>
        if Nat.even n
        then div (add (nth (n / 2 - 1) s nan) (nth (n / 2) s nan)) (of_Z 2)
        else nth (n / 2) s nan
    end.

Definition nanmedian (l : vec) : float :=
  median (List.filter (fun x => negb (isnan x)) l).

(** [np.average(a, weights=w)] *)
Definition average (a w : vec) : result float :=
  let scl := Np.sum w in
  if eqb scl zero then Raise ZeroDivisionError
  else Ok (div (Np.sum (zip_with mul a w)) scl).

(** [np.hstack] of a Python list of 1-d arrays. *)
Definition hstack1 (l : list vec) : result vec :=
  match l with
  | [] => Raise ValueError
  | _ => Ok (concat l)
  end.

(** [mask.any()] for a 2-d mask and [a[mask]] for a 2-d array. *)
Definition any2 (mask : list (list bool)) : bool := existsb (existsb id) mask.

Definition select2 {A} (mask : list (list bool)) (a : list (list A)) : list A :=
  Np.select (concat mask) (concat a).

(** A reduction over the time axis, pixel by pixel. *)
Definition per_pixel (red : vec -> float) (a : cube3) (r c : nat)
  : list (list float) :=
  map (fun idx => map (fun jdx => red (pixel_series a idx jdx)) (seq 0 c)) (seq 0 r).

(** [tpf[mask]]: the cadences selected by the mask. *)
Definition tpf_select (mask : list bool) (p : tpf) : tpf :=
  {| time := Np.select mask (time p);
     flux := Np.select mask (flux p);
     flux_err := Np.select mask (flux_err p);
     pos_corr1 := Np.select mask (pos_corr1 p);
     pos_corr2 := Np.select mask (pos_corr2 p);
     pipeline_mask := pipeline_mask p;
     coord_ra := Np.select mask (coord_ra p);
     coord_dec := Np.select mask (coord_dec p);
     nrows := nrows p;
     ncols := ncols p |}.

(** Line 167: [np.nansum(tpf.flux, axis=(1, 2)) != 0] *)
Definition nonzero_frames (p : tpf) : list bool :=
  map (fun frame => neqb (Np.nansum (concat frame)) zero) (flux p).

(** Line 200: [(transit_pixels / transit_pixels_err) > 5] *)
Definition significance (tp tpe : list (list float)) : list (list float) :=
  zip_with (zip_with div) tp tpe.

Definition contaminant_mask (tp tpe : list (list float)) : list (list bool) :=
  map (map (fun x => gtb x five)) (significance tp tpe).

(** The accumulators of the loop over the stamps, and the loop variable
    [lc], which the plot reads after the loop. *)
Record accum := {
  contaminator : option lightcurve;
  target : option lightcurve;
  coords_weights : list vec;
  coords_ra : list vec;
  coords_dec : list vec;
  ra_target : list float;
  dec_target : list float;
  last_lc : option lightcurve
}.

Definition initial_accum : accum :=
  {| contaminator := None; target := None;
     coords_weights := []; coords_ra := []; coords_dec := [];
     ra_target := []; dec_target := []; last_lc := None |}.

(** The local variables of one iteration that ran to its end. *)
Record segment_locals := {
  seg_tpf : tpf;
  seg_aper : list (list bool);
  seg_t_model : vec;
  seg_t_mask : list bool;
  seg_transit_pixels : list (list float);
  seg_transit_pixels_err : list (list float);
  seg_contaminant_aper : list (list bool)
}.

Definition append_lc `{Collaborators} (acc : option lightcurve)
    (new : lightcurve) : option lightcurve :=
  match acc with
  | None => Some new
  | Some old => Some (lc_append old new)
  end.

Section Localizer.
Context `{Collaborators}.

(** Lines 156-161, from the search result and the cutouts. *)
Definition acquire (tess : bool) (sr : list tpf) (cutouts : result (list tpf))
  : result (list tpf) :=
  if tess && bool_decide (length sr = 0%nat) then cutouts
  else if bool_decide (length sr = 0%nat) then Raise ValueError
  else Ok sr.

(** Lines 214-215 for one coordinate. *)
Definition target_coordinate (p : tpf) (aper : list (list bool)) (coord : cube3)
  : result float :=
  average
    (select2 aper (per_pixel Np.mean coord (nrows p) (ncols p)))
    (map sqrt (select2 aper (per_pixel nanmedian (flux p) (nrows p) (ncols p)))).

(** Lines 198-215, after the template and the target light curve. *)
Definition localize (tess : bool) (period : float) (p : tpf)
    (aper : list (list bool)) (lc : lightcurve) (t_model : vec)
    (t_mask : list bool) (st : accum)
  : M (accum * option segment_locals) := fun g =>
  '(out, g) ← build_model p lc None (Some t_model) false None tess true g;
  match out with
  | ModelTransit model2 transit_pixels transit_pixels_err =>
      let contaminant_aper := contaminant_mask transit_pixels transit_pixels_err in
      let ra := select2 contaminant_aper
                  (per_pixel Np.mean (coord_ra p) (nrows p) (ncols p)) in
      let dec := select2 contaminant_aper
                   (per_pixel Np.mean (coord_dec p) (nrows p) (ncols p)) in
      let weights := select2 contaminant_aper
                       (significance transit_pixels transit_pixels_err) in
      contaminator' ←
        (if any2 contaminant_aper then
           let contaminated_lc := to_lightcurve p contaminant_aper in
           c ← build_lc p contaminant_aper None (Some t_mask) tess true
                        (mul period (of_Z 4));
           Ok (append_lc (contaminator st) c)
         else Ok (contaminator st));
      ra_t ← target_coordinate p aper (coord_ra p);
      dec_t ← target_coordinate p aper (coord_dec p);
      Ok ({| contaminator := contaminator';
             target := target st;
             coords_weights := coords_weights st ++ [weights];
             coords_ra := coords_ra st ++ [ra];
             coords_dec := coords_dec st ++ [dec];
             ra_target := ra_target st ++ [ra_t];
             dec_target := dec_target st ++ [dec_t];
             last_lc := last_lc st |},
          Some {| seg_tpf := p; seg_aper := aper; seg_t_model := t_model;
                  seg_t_mask := t_mask;
                  seg_transit_pixels := transit_pixels;
                  seg_transit_pixels_err := transit_pixels_err;
                  seg_contaminant_aper := contaminant_aper |},
          g)
  | _ => Raise ValueError
  end.

(** The body of the loop over the stamps, lines 167-215.  [None] for the
    locals means the iteration ended at [continue]. *)
Definition segment_step (tess : bool) (period t0 duration : float)
    (p0 : tpf) (st : accum) : M (accum * option segment_locals) := fun g =>
  let p := tpf_select (nonzero_frames p0) p0 in
  let aper := pipeline_mask p in
  let aper := if negb (any2 aper) then create_threshold_mask p else aper in
  let lc := to_lightcurve p aper in
  bls ← to_periodogram lc period;
  let t_model := get_transit_model bls period t0 duration in
  let st := {| contaminator := contaminator st; target := target st;
               coords_weights := coords_weights st;
               coords_ra := coords_ra st; coords_dec := coords_dec st;
               ra_target := ra_target st; dec_target := dec_target st;
               last_lc := Some lc |} in
  if eqb (Np.sum t_model) zero then Ok (st, None, g)
  else
    let m := nanmedian t_model in
    let t_model := map (fun x => sub x m) t_model in
    let t_model := map (fun x => div x (depth0 bls)) t_model in
    let t_mask := get_transit_mask bls period t0 duration in
    corrected ← build_lc p aper None (Some t_mask) tess true (mul period (of_Z 4));
    let st := {| contaminator := contaminator st;
                 target := append_lc (target st) corrected;
                 coords_weights := coords_weights st;
                 coords_ra := coords_ra st; coords_dec := coords_dec st;
                 ra_target := ra_target st; dec_target := dec_target st;
                 last_lc := last_lc st |} in
    localize tess period p aper lc t_model t_mask st g.

Definition loop_step (tess : bool) (period t0 duration : float)
    (p0 : tpf) (st : accum) : M accum := fun g =>
  '(st', _, g') ← segment_step tess period t0 duration p0 st g;
  Ok (st', g').

(** Lines 219-223. *)
Definition contaminant_position (st : accum) : result (float * float) :=
  all_ra ← hstack1 (coords_ra st);
  if negb (bool_decide (length all_ra = 0%nat)) then
    all_ra ← hstack1 (coords_ra st);
    w ← hstack1 (coords_weights st);
    ra ← average all_ra w;
    all_dec ← hstack1 (coords_dec st);
    w ← hstack1 (coords_weights st);
    dec ← average all_dec w;
    Ok (ra, dec)
  else Ok (nan, nan).

(** Lines 217-248. *)
Definition finalize (tpfs : list tpf) (gaia : bool) (period t0 : float)
    (st : accum) : result figure :=
  let ra_t := Np.mean (ra_target st) in
  let dec_t := Np.mean (dec_target st) in
  pos ← contaminant_position st;
  plot tpfs gaia period t0 (ra_t, dec_t) pos
       (target st) (contaminator st) (last_lc st).

(** [tess] is [mission.lower() == 'tess']; [sr] holds the stamps of the
    search result and [cutouts] those of the cutout search. *)
Definition get_centroid_plot (sr : list tpf) (cutouts : result (list tpf))
    (period t0 duration : float) (tess gaia : bool) : M figure := fun g =>
  tpfs ← acquire tess sr cutouts;
  '(st, g') ← foldM (loop_step tess period t0 duration) tpfs initial_accum g;
  fig ← finalize tpfs gaia period t0 st;
  Ok (fig, g').

End Localizer.

(** ** An executable stand-in for the collaborators

    Small deterministic implementations, enough to run the model on
    concrete stamps: Gaussian elimination for the linear algebra, a box
    template for the periodogram, draws that alternate one standard
    deviation above and below the mean. *)

Module StandIn.

Definition leading (row : vec) : float := hd nan row.

(** The first row whose leading entry is finite and non-zero, and the
    other rows. *)
Fixpoint pick_pivot (rows : list vec) : option (vec * list vec) :=
  match rows with
  | [] => None
  | r :: rows' =>
      if isfinite (leading r) && negb (is_zero (leading r)) then Some (r, rows')
      else match pick_pivot rows' with
           | Some (p, rest) => Some (p, r :: rest)
           | None => None
           end
  end.

(** Forward elimination of [n] unknowns on the augmented rows; each row of
    the result holds the coefficients right of its unit diagonal entry,
    then the right-hand side. *)
Fixpoint eliminate (n : nat) (rows : list vec) : option (list vec) :=
  match n with
  | O => Some []
  | S n' =>
      match pick_pivot rows with
      | None => None
      | Some (p, rest) =>
          let p' := map (fun x => div x (leading p)) (tl p) in
          let rest' :=
            map (fun r => zip_with (fun x y => sub x (mul (leading r) y)) (tl r) p')
                rest in
          match eliminate n' rest' with
          | Some rows' => Some (p' :: rows')
          | None => None
          end
      end
  end.

Fixpoint back_substitute (rows : list vec) : vec :=
  match rows with
  | [] => []
  | r :: rows' =>
      let xs := back_substitute rows' in
      sub (List.last r nan) (dot (removelast r) xs) :: xs
  end.

Definition gauss_solve (a : matrix) (b : vec) : result vec :=
  match eliminate (length a) (zip_with (fun row x => row ++ [x]) a b) with
  | Some rows => Ok (back_substitute rows)
  | None => Raise LinAlgError
  end.

Definition unit_vector (n i : nat) : vec :=
  map (fun j => b2f (Nat.eqb i j)) (seq 0 n).

Definition gauss_inv (a : matrix) : result matrix :=
  cols ← mapM (fun i => gauss_solve a (unit_vector (length a) i)) (seq 0 (length a));
  Ok (Np.transpose (length a) cols).

(** [floor(a / b)] *)
Definition floor_div (a b : float) : float :=
  match div a b with
  | S754_finite s m e =>
      match e with
      | Z.neg _ => of_Z (Z.shiftr (if s then Z.neg m else Z.pos m) (- e))
      | _ => S754_finite s m e
      end
  | q => q
  end.

(** A draw one standard deviation away from the mean in every component,
    above or below by the parity of the generator's counter. *)
Definition draw (w : vec) (sigma : matrix) (g : nat) : vec * nat :=
  (imap (fun j x =>
           let s := sqrt (abs (nth j (nth j sigma []) zero)) in
           if Nat.even g then add x s else sub x s) w,
   S g).

(** One cubic column over the time axis in place of the spline basis. *)
Definition cubic_column (t : vec) (n : Z) : result matrix :=
  lo ← first_ t;
  Ok (map (fun x => [cube (sub x lo)]) t).

(** Simple aperture photometry. *)
Definition aperture_sum (p : tpf) (mask : list (list bool)) : lightcurve :=
  {| lc_time := time p;
     lc_flux := map (fun frame => Np.nansum (select2 mask frame)) (flux p);
     lc_flux_err :=
       map (fun frame => sqrt (Np.nansum (map sq (select2 mask frame))))
           (flux_err p) |}.

Definition divide_lc (lc : lightcurve) (m : vec) : lightcurve :=
  {| lc_time := lc_time lc;
     lc_flux := zip_with div (lc_flux lc) m;
     lc_flux_err := zip_with div (lc_flux_err lc) m |}.

Definition append (a b : lightcurve) : lightcurve :=
  {| lc_time := lc_time a ++ lc_time b;
     lc_flux := lc_flux a ++ lc_flux b;
     lc_flux_err := lc_flux_err a ++ lc_flux_err b |}.

(** Whether a cadence lies within half a duration of the transit time. *)
Definition in_transit (t0 duration x : float) : bool :=
  SFleb (abs (sub x t0)) (div duration (of_Z 2)).

Record drawing := {
  fig_target_position : float * float;
  fig_source_position : float * float;
  fig_target : lightcurve;
  fig_source : option lightcurve
}.

Definition draw_figure (tpfs : list tpf) (gaia : bool) (period t0 : float)
    (target_pos source_pos : float * float)
    (target contaminator lc : option lightcurve) : result drawing :=
  match tpfs, target with
  | [], _ => Raise IndexError
  | _, None => Raise AttributeError
  | _, Some tg =>
      Ok {| fig_target_position := target_pos;
            fig_source_position := source_pos;
            fig_target := tg;
            fig_source := contaminator |}
  end.

(** The collaborators, for a periodogram whose transit model has the
    levels [(inside, outside)] given by [levels]. *)
#[local] Instance collaborators (levels : lightcurve -> float * float)
  : Collaborators := {|
  rng := nat;
  periodogram := lightcurve;
  figure := drawing;
  floor_divide := floor_div;
  create_spline_matrix := cubic_column;
  create_threshold_mask := fun p => replicate (nrows p) (replicate (ncols p) true);
  pca3 := fun m => Ok (map (take 3) m);
  solve := gauss_solve;
  inv := gauss_inv;
  multivariate_normal := draw;
  resampled_error := fun SA w sigma g => Ok (map (fun _ => zero) SA, g);
  to_lightcurve := aperture_sum;
  lc_div := divide_lc;
  lc_append := append;
  to_periodogram := fun lc period => Ok lc;
  get_transit_model := fun lc period t0 duration =>
    map (fun x => if in_transit t0 duration x then fst (levels lc)
                  else snd (levels lc)) (lc_time lc);
  depth0 := fun lc => sub (snd (levels lc)) (fst (levels lc));
  get_transit_mask := fun lc period t0 duration =>
    map (in_transit t0 duration) (lc_time lc);
  plot := draw_figure
|}.

End StandIn.

(** ** Notions of the specification and example stamps *)

(** What cleaning an array means: same length, and every entry that is
    not finite or whose magnitude exceeds 10 is zero in the result. *)
Definition cleaned (raw out : vec) : Prop :=
  length out = length raw /\
  forall i x, raw !! i = Some x ->
    isfinite x = false \/ gtb (abs x) ten = true ->
    out !! i = Some zero.

(** The indices of [np.diff(tpf.time)] that exceed the fixed threshold and
    are at least 2: the gaps that [build_X] keeps. *)
Definition wide_gaps (t : vec) : list nat :=
  filter (fun i : nat => (2 <= i)%nat)
         (Np.where_ (map (fun d => gtb d gap_threshold) (Np.diff t))).

(** The constant of the segmentation, [0.0202 * 10] days: 10 times a
    nominal cadence spacing of 0.0202 days. *)
Definition fixed_gap_limit : float := mul (of_ratio 202 10000) ten.

(** The gaps that exceed the constant, as indices of
    [np.diff(tpf.time)]: the gap [i] lies between [time[i]] and
    [time[i+1]]. *)
Definition gaps_exceeding (t : vec) : list nat :=
  Np.where_ (map (fun d => gtb d fixed_gap_limit) (Np.diff t)).

(** The gaps the specification speaks of: the differences that exceed 10
    times the median cadence spacing of the series. *)
Definition gaps_over_10x_median (t : vec) : list nat :=
  Np.where_ (map (fun d => gtb d (mul ten (median (Np.diff t)))) (Np.diff t)).

(** Pointing corrections that are uniformly zero. *)
Definition uniformly_zero (l : vec) : bool := forallb is_zero l.

(** A column that is a finite non-zero constant. *)
Definition constant_column (v : vec) : bool :=
  match v with
  | [] => false
  | x :: _ => isfinite x && negb (is_zero x) && forallb (eqb x) v
  end.

Definition has_offset_column (SA : matrix) : bool :=
  existsb (fun j => constant_column (Np.col j SA)) (seq 0 (ncols_of SA)).

(** A short-cadence series: spacing 1/1024 day, one gap of 64/1024 day
    between the fourth and the fifth cadence. *)
Definition short_cadence_series : vec :=
  map (fun k => of_ratio k 1024) [0; 1; 2; 3; 67; 68; 69].

(** Spacing 1/64 day, one gap of one day. *)
Definition long_cadence_series : vec :=
  map (fun k => of_ratio k 64) [0; 1; 2; 3; 67; 68; 69].

(** Spacing 1/64 day, one gap of one day between the second and the third
    cadence. *)
Definition early_gap_series : vec :=
  map (fun k => of_ratio k 64) [0; 1; 65; 66; 67; 68].

(** A stamp of one pixel of unit flux over the given time axis and
    pointing corrections. *)
Definition one_pixel_stamp (t r c : vec) : tpf :=
  {| time := t;
     flux := map (fun _ => [[one]]) t;
     flux_err := map (fun _ => [[one]]) t;
     pos_corr1 := r;
     pos_corr2 := c;
     pipeline_mask := [[true]];
     coord_ra := map (fun _ => [[zero]]) t;
     coord_dec := map (fun _ => [[zero]]) t;
     nrows := 1;
     ncols := 1 |}.

Definition cancelling_offsets : tpf :=
  one_pixel_stamp [zero; of_ratio 1 64] [of_Z 1; of_Z (-1)] [zero; zero].

Definition column_offsets_only : tpf :=
  one_pixel_stamp [zero; of_ratio 1 64] [zero; zero] [of_Z 1; of_Z 2].

Definition two_segment_stamp : tpf :=
  one_pixel_stamp long_cadence_series (map (fun _ => zero) long_cadence_series)
                  (map (fun _ => zero) long_cadence_series).

(** The time axis of [demo_stamp] below over one pixel without flux. *)
Definition dark_stamp : tpf :=
  {| time := map (fun k => of_ratio k 64) [0; 1; 2; 3; 4; 5; 6; 7; 8; 9; 10; 11];
     flux := replicate 12 [[zero]];
     flux_err := replicate 12 [[one]];
     pos_corr1 := replicate 12 zero;
     pos_corr2 := replicate 12 zero;
     pipeline_mask := [[true]];
     coord_ra := replicate 12 [[zero]];
     coord_dec := replicate 12 [[zero]];
     nrows := 1;
     ncols := 1 |}.

Definition box_levels (lc : lightcurve) : float * float := (of_ratio 63 64, one).
Definition flat_levels (lc : lightcurve) : float * float := (zero, zero).

(** [a[idx, jdx]] when the indices are in range. *)
Definition get2 {A} (a : list (list A)) (idx jdx : nat) : option A :=
  a !! idx ≫= fun row => row !! jdx.

(** Arrays of shape [(r, c)] and [(t, r, c)]. *)
Definition shape2 {A} (r c : nat) (a : list (list A)) : Prop :=
  length a = r /\ Forall (fun row => length row = c) a.

Definition shape3 {A} (t r c : nat) (a : list (list (list A))) : Prop :=
  length a = t /\ Forall (shape2 r c) a.

(** The arrays inside what [build_model] returns. *)
Definition out_model (out : model_out) : cube3 :=
  match out with
  | Model m | ModelErr m _ | ModelTransit m _ _ | ModelErrTransit m _ _ _ => m
  end.

Definition out_transit (out : model_out)
  : option (list (list float) * list (list float)) :=
  match out with
  | ModelTransit _ tp tpe | ModelErrTransit _ _ tp tpe => Some (tp, tpe)
  | _ => None
  end.

(** A stamp of 12 cadences and 1 x 3 pixels: the target, a neighbour that
    dims by a fifth during cadences 4 to 7, and a pixel without data. *)
Definition demo_cadences : list Z := [0; 1; 2; 3; 4; 5; 6; 7; 8; 9; 10; 11].

Definition demo_target_flux (k : Z) : float := of_Z (1000 + (k * k) mod 7).

Definition demo_neighbour_flux (k : Z) : float :=
  of_Z (if (4 <=? k) && (k <=? 7) then 400 + k else 500 + k).

Definition demo_stamp : tpf :=
  {| time := map (fun k => of_ratio k 64) demo_cadences;
     flux := map (fun k => [[demo_target_flux k; demo_neighbour_flux k; nan]])
                 demo_cadences;
     flux_err := map (fun _ => [[one; one; one]]) demo_cadences;
     pos_corr1 := map (fun _ => zero) demo_cadences;
     pos_corr2 := map (fun _ => zero) demo_cadences;
     pipeline_mask := [[true; false; false]];
     coord_ra := map (fun _ => [[of_Z 10; of_Z 11; of_Z 12]]) demo_cadences;
     coord_dec := map (fun _ => [[of_Z 20; of_Z 20; of_Z 20]]) demo_cadences;
     nrows := 1;
     ncols := 3 |}.

(** Period of one day, transit centred between cadences 5 and 6, lasting
    three cadences' spacing. *)
Definition demo_period : float := of_Z 1.
Definition demo_t0 : float := of_ratio 11 128.
Definition demo_duration : float := of_ratio 3 64.

(** The template of the periodogram sums to zero for this stamp. *)
Definition degenerate_template `{Collaborators} (period t0 duration : float)
    (p0 : tpf) : Prop :=
  let p := tpf_select (nonzero_frames p0) p0 in
  let aper := if negb (any2 (pipeline_mask p)) then create_threshold_mask p
              else pipeline_mask p in
  exists bls,
    to_periodogram (to_lightcurve p aper) period = Ok bls /\
    eqb (Np.sum (get_transit_model bls period t0 duration)) zero = true.

(** Every row starts with [v]. *)
Definition rows_start_with (v : float) (m : matrix) : Prop :=
  Forall (fun row => row !! 0%nat = Some v) m.

(** The accumulators with the loop variable [lc] set. *)
Definition with_last_lc (lc : lightcurve) (st : accum) : accum :=
  {| contaminator := contaminator st; target := target st;
     coords_weights := coords_weights st;
     coords_ra := coords_ra st; coords_dec := coords_dec st;
     ra_target := ra_target st; dec_target := dec_target st;
     last_lc := Some lc |}.

(** The aggregate light curve of the target aperture of [demo_stamp] and
    a template of unit depth over cadences 4 to 7. *)
Definition demo_lc : lightcurve :=
  StandIn.aperture_sum demo_stamp (pipeline_mask demo_stamp).

Definition demo_template : vec :=
  map (fun k => if (4 <=? k) && (k <=? 7) then of_Z (-1) else zero) demo_cadences.





(** Successive draws from the multivariate normal distribution of
    [(w, sigma)]: each draw starts from the generator the one before
    left. *)
Inductive successive_draws `{Collaborators} (w : vec) (sigma : matrix)
  : rng -> list vec -> rng -> Prop :=
  | no_draw g : successive_draws w sigma g [] g
  | one_more_draw g x g1 xs g2 :
      multivariate_normal w sigma g = (x, g1) ->
      successive_draws w sigma g1 xs g2 ->
      successive_draws w sigma g (x :: xs) g2.

(** The standard deviation of [N] values for a given divisor: the square
    root of the sum of the squared deviations from the mean over the
    divisor. *)
Definition deviation (divisor : Z) (l : vec) : float :=
  let mu := div (Np.sum l) (of_Z (Z.of_nat (length l))) in
  sqrt (div (Np.sum (map (fun x => sq (sub x mu)) l)) (of_Z divisor)).

(** With the divisor [N], and the sample standard deviation, with the
    divisor [N - 1]. *)
Definition population_deviation (l : vec) : float :=
  deviation (Z.of_nat (length l)) l.

Definition sample_deviation (l : vec) : float :=
  deviation (Z.of_nat (length l) - 1) l.

(** What the pixel loop of [build_model] leaves at a pixel: the entries
    of the two depth maps, and the model time series. *)
Definition transit_view (st : fit_arrays) (px : nat * nat)
  : option float * option float :=
  (get2 (transit_pixels st) px.1 px.2, get2 (transit_pixels_err st) px.1 px.2).

Definition model_view (st : fit_arrays) (px : nat * nat) : vec :=
  pixel_series (model st) px.1 px.2.

Definition transit_fresh (px : nat * nat) (v : option float * option float) : Prop :=
  v = (Some zero, Some zero).

Section PixelOutcome.
Context `{Collaborators}.
Variables (SA : matrix) (cadence_mask : list bool) (has_t_model : bool).
Variable p : tpf.

Definition transit_shape (st : fit_arrays) : Prop :=
  shape2 (nrows p) (ncols p) (transit_pixels st) /\
  shape2 (nrows p) (ncols p) (transit_pixels_err st).

Definition in_stamp (px : nat * nat) : Prop :=
  (px.1 < nrows p)%nat /\ (px.2 < ncols p)%nat.

(** The entries of the depth maps at a pixel after the loop. *)
Definition transit_outcome (px : nat * nat) (v : option float * option float) : Prop :=
  let f := pixel_series (flux p) px.1 px.2 in
  let fe := pixel_series (flux_err p) px.1 px.2 in
  let ne := normal_equations SA cadence_mask f fe in
  if existsb isfinite f then
    exists w sigma_w,
      solve ne.1 ne.2 = Ok w /\ inv ne.1 = Ok sigma_w /\
      if has_t_model then
        exists g depth lasts,
          last_ w = Ok depth /\
          mapM last_ (draws 50 w sigma_w g).1 = Ok lasts /\
          v = (Some depth, Some (std lasts))
      else v = (Some zero, Some zero)
  else v = (Some zero, Some zero).

Definition model_shape (st : fit_arrays) : Prop :=
  shape3 (length SA) (nrows p) (ncols p) (model st).

Definition model_fresh (px : nat * nat) (v : vec) : Prop :=
  v = replicate (length SA) zero.

(** The model time series of a pixel after the loop. *)
Definition model_outcome (px : nat * nat) (v : vec) : Prop :=
  let f := pixel_series (flux p) px.1 px.2 in
  let fe := pixel_series (flux_err p) px.1 px.2 in
  let ne := normal_equations SA cadence_mask f fe in
  if existsb isfinite f then
    exists w, solve ne.1 ne.2 = Ok w /\ v = mat_vec SA w
  else v = replicate (length SA) zero.

End PixelOutcome.

(** ** search (lines 15-26)

    Strings are sequences of code points below 256.  [str.isnumeric] holds
    there for the decimal digits and for the superscripts and fractions
    of Latin-1; [int] accepts the decimal digits only, without a limit on
    their number. *)

Module Search.
Import String Ascii.

Definition code (c : ascii) : nat := nat_of_ascii c.

(** [char.isnumeric()] *)
Definition isnumeric (c : ascii) : bool :=
  let n := code c in
  ((48 <=? n)%nat && (n <=? 57)%nat)
  || (n =? 178)%nat || (n =? 179)%nat || (n =? 185)%nat
  || ((188 <=? n)%nat && (n <=? 190)%nat).

Definition isdecimal (c : ascii) : bool :=
  let n := code c in (48 <=? n)%nat && (n <=? 57)%nat.

Definition digit (c : ascii) : Z := Z.of_nat (code c - 48).

(** [int(s)] for a string [s] of numeric characters. *)
Definition int_of_numeric (cs : list ascii) : result Z :=
  match cs with
  | [] => Raise ValueError
  | _ =>
      if forallb isdecimal cs
      then Ok (fold_left (fun acc c => 10 * acc + digit c) cs 0)
      else Raise ValueError
  end.

(** [''.join([char for char in s if char.isnumeric()])] *)
Definition numeric_part (s : string) : list ascii :=
  List.filter isnumeric (list_ascii_of_string s).

Definition number_in (s : string) : result Z := int_of_numeric (numeric_part s).

(** ["KIC {}".format(targetid)] for a target id given by its text. *)
Definition format_KIC (targetid : string) : string := ("KIC " ++ targetid)%string.

(** A row of a lightkurve search result. *)
Record row (A : Type) := { target_name : string; product : A }.
Arguments target_name {A} r.
Arguments product {A} r.

(** The value of the argument [search_func], compared by identity with
    the two lightkurve functions. *)
Inductive search_function :=
  | SearchTargetPixelFile | SearchTesscut | OtherFunction.

Section WithLightkurve.
Context {A : Type}.
(** [lk.search_targetpixelfile(targetid, mission=mission)] and
    [lk.search_tesscut(targetid)] *)
Variable search_targetpixelfile : string -> string -> result (list (row A)).
Variable search_tesscut : string -> result (list (row A)).

Definition search (targetid mission : string) (search_func : search_function)
  : result (list (row A)) :=
  match search_func with
  | SearchTargetPixelFile =>
      sr ← search_targetpixelfile targetid mission;
      numeric ← number_in (format_KIC targetid);
      numeric_s ← mapM (fun r => number_in (target_name r)) sr;
      Ok (Np.select (map (fun n => n =? numeric) numeric_s) sr)
  | SearchTesscut => search_tesscut targetid
  | OtherFunction => Raise ValueError
  end.

End WithLightkurve.

(** Whether the numeric characters of a string are a decimal numeral. *)
Definition has_number (s : string) : bool :=
  match numeric_part s with
  | [] => false
  | cs => forallb isdecimal cs
  end.

(** A small catalogue to run [search] on. *)
Definition catalogue : list (row nat) :=
  [ {| target_name := "kplr008462852"; product := 1%nat |};
    {| target_name := "kplr008462853"; product := 2%nat |};
    {| target_name := "KIC 8462852"; product := 3%nat |} ].

Definition catalogue_search (targetid mission : string) : result (list (row nat)) :=
  Ok catalogue.

Definition no_cutouts (targetid : string) : result (list (row nat)) :=
  Raise CollaboratorError.

Definition tabby : string := "8462852".
Definition kepler : string := "kepler".

End Search.

(** ** Notions for the properties of the segmentation and of the stamps *)

(** Division points that increase strictly from [lo] and stay below [n]. *)
Fixpoint division_points (lo n : nat) (indices : list nat) : Prop :=
  match indices with
  | [] => True
  | i :: rest => (lo < i)%nat /\ (i < n)%nat /\ division_points i n rest
  end.

(** No two cadences have equal times. *)
Definition distinct_times (t : vec) : Prop :=
  forall i j x y, t !! i = Some x -> t !! j = Some y -> eqb x y = true -> i = j.

(** The number of segments whose indicator holds at cadence [i]. *)
Definition segments_holding (t : vec) (i : nat) : nat :=
  length (List.filter (fun ind => nth i ind false) (seg_indicators t)).

(** The per-cadence arrays of a stamp have one entry per cadence. *)
Definition well_shaped (p : tpf) : Prop :=
  length (flux p) = length (time p) /\
  length (flux_err p) = length (time p) /\
  length (pos_corr1 p) = length (time p) /\
  length (pos_corr2 p) = length (time p) /\
  length (coord_ra p) = length (time p) /\
  length (coord_dec p) = length (time p).

(** The number of columns of the centroid block of a stamp. *)
Definition centroid_columns (p : tpf) : nat :=
  ((if eqb (Np.sum (clean_pos_corr (pos_corr1 p) (pos_corr2 p)).1) zero
    then 3 else 16) * length (segments (time p)))%nat.

(** A stamp of 12 cadences whose single pixel has no data. *)
Definition one_pixel_stamp_nan : tpf :=
  {| time := map (fun k => of_ratio k 64) demo_cadences;
     flux := replicate 12 [[nan]];
     flux_err := replicate 12 [[nan]];
     pos_corr1 := replicate 12 zero;
     pos_corr2 := replicate 12 zero;
     pipeline_mask := [[true]];
     coord_ra := replicate 12 [[zero]];
     coord_dec := replicate 12 [[zero]];
     nrows := 1;
     ncols := 1 |}.

(** The stamp [demo_stamp] with a neighbour that does not dim. *)
Definition quiet_stamp : tpf :=
  {| time := time demo_stamp;
     flux := map (fun k => [[demo_target_flux k; of_Z (500 + k); nan]]) demo_cadences;
     flux_err := flux_err demo_stamp;
     pos_corr1 := pos_corr1 demo_stamp;
     pos_corr2 := pos_corr2 demo_stamp;
     pipeline_mask := pipeline_mask demo_stamp;
     coord_ra := coord_ra demo_stamp;
     coord_dec := coord_dec demo_stamp;
     nrows := 1;
     ncols := 3 |}.

(** What the accumulators of [get_centroid_plot] satisfy between two
    stamps. *)
Definition accum_consistent (st : accum) : Prop :=
  length (coords_ra st) = length (coords_weights st) /\
  length (coords_dec st) = length (coords_weights st) /\
  length (ra_target st) = length (coords_weights st) /\
  length (dec_target st) = length (coords_weights st) /\
  (target st = None <-> coords_weights st = []) /\
  (contaminator st = None <-> Forall (fun w => w = []) (coords_weights st)) /\
  Forall (Forall (fun w => gtb w five = true)) (coords_weights st) /\
  Forall2 (fun (w ra : vec) => w = [] -> ra = []) (coords_weights st) (coords_ra st) /\
  Forall2 (fun (w dec : vec) => w = [] -> dec = []) (coords_weights st) (coords_dec st).

(** * Properties *)

(** ** Floating-point facts used below *)

Lemma gtb_abs_nan_to_num_nonfinite x :
  isfinite x = false -> isnan x = false -> gtb (abs (nan_to_num x)) ten = true.
Proof. destruct x as [s|[|]| |s m e]; simpl; intros; try discriminate; reflexivity. Qed.

Lemma nan_to_num_finite x : isfinite x = true -> nan_to_num x = x.
Proof. destruct x as [s|[|]| |s m e]; simpl; intros; try discriminate; reflexivity. Qed.

Lemma is_zero_eqb_zero x : is_zero x = true -> eqb x zero = true.
Proof. destruct x; simpl; intros; try discriminate; reflexivity. Qed.

Lemma add_zeros x y : is_zero x = true -> is_zero y = true -> is_zero (add x y) = true.
Proof.
  destruct x as [s| | |]; simpl; try discriminate.
  destruct y as [s'| | |]; simpl; try discriminate.
  destruct s, s'; reflexivity.
Qed.

Lemma eqb_refl x : isnan x = false -> eqb x x = true.
Proof.
  destruct x as [s|s| |s m e]; simpl; try discriminate; intros _.
  - reflexivity.
  - destruct s; reflexivity.
  - unfold eqb, SFeqb, SFcompare.
    rewrite Z.compare_refl.
    assert (Hm : Pos.compare_cont Eq m m = Eq) by apply Pos.compare_refl.
    rewrite Hm. destruct s; reflexivity.
Qed.

(** ** Exceptions *)

Lemma bind_Ok {A B} (a : A) (f : A -> result B) : (Ok a ≫= f) = f a.
Proof. reflexivity. Qed.

Lemma bind_Raise {A B} (e : exn) (f : A -> result B) : (Raise e ≫= f) = Raise e.
Proof. reflexivity. Qed.

(** ** numpy helpers *)

Lemma lookup_map {A B} (f : A -> B) (l : list A) (i : nat) :
  map f l !! i = f <$> l !! i.
Proof. revert i. induction l as [|x l IH]; intros [|i]; simpl; auto. Qed.

Lemma mask_assign_map {A} (g : A -> bool) (v : A) (l : list A) :
  Np.mask_assign (map g l) v l = map (fun x => if g x then v else x) l.
Proof. induction l as [|x l IH]; simpl; [reflexivity | now rewrite IH]. Qed.

Lemma mask_assign_all_false {A} (mask : list bool) (v : A) (l : list A) :
  Forall (fun b => b = false) mask -> Np.mask_assign mask v l = l.
Proof.
  intros Hm. revert l. induction Hm as [|b mask Hb _ IH]; intros [|x l]; simpl; try reflexivity.
  subst b. now rewrite IH.
Qed.

Lemma sum_zeros (l : vec) :
  Forall (fun x => is_zero x = true) l -> is_zero (Np.sum l) = true.
Proof.
  unfold Np.sum. assert (Hz : is_zero zero = true) by reflexivity.
  revert Hz. generalize zero as acc.
  induction l as [|x l IH]; simpl; intros acc Hacc Hl; [assumption|].
  inversion Hl; subst. apply IH; [apply add_zeros|]; assumption.
Qed.

(** ** build_X: the pointing corrections (C1) *)

Lemma clean_row_entry x :
  (if gtb (abs (nan_to_num x)) ten then zero else nan_to_num x) =
  (if isfinite x && negb (gtb (abs x) ten) then x else zero).
Proof.
  destruct (isfinite x) eqn:Hf; simpl.
  - rewrite (nan_to_num_finite x Hf). now destruct (gtb (abs x) ten).
  - destruct (isnan x) eqn:Hn.
    + destruct x; try discriminate. reflexivity.
    + now rewrite gtb_abs_nan_to_num_nonfinite.
Qed.

(** The row offsets are cleaned as the claim says. *)
Lemma row_offsets_cleaned p1 p2 : cleaned p1 (clean_pos_corr p1 p2).1.
Proof.
  unfold clean_pos_corr; simpl. rewrite mask_assign_map.
  split.
  - now rewrite !length_map.
  - intros i x Hi Hx.
    rewrite !lookup_map, Hi. simpl. f_equal.
    rewrite clean_row_entry.
    destruct Hx as [Hx|Hx]; rewrite Hx; simpl; [reflexivity|].
    now rewrite andb_false_r.
Qed.

(** The mask applied to the column offsets is computed from the row
    offsets after their cleaning, so it never holds: the column offsets
    only go through [nan_to_num]. *)
Lemma col_offsets_not_clipped p1 p2 :
  (clean_pos_corr p1 p2).2 = map nan_to_num p2.
Proof.
  unfold clean_pos_corr; simpl. apply mask_assign_all_false.
  rewrite mask_assign_map. rewrite !Forall_map.
  apply Forall_forall. intros x _. simpl.
  destruct (gtb (abs (nan_to_num x)) ten) eqn:E; [reflexivity | exact E].
Qed.

(** C1 (code defect).  On row offsets [0.0] and column offsets [20.0],
    lines 31-33 return the column offset 20.0 unchanged: the column
    array is not cleaned of its outlier. *)
Theorem col_offsets_outlier_survives :
  clean_pos_corr [zero] [of_Z 20] = ([zero], [of_Z 20]) /\
  ~ cleaned [of_Z 20] (clean_pos_corr [zero] [of_Z 20]).2.
Proof.
  split; [reflexivity|].
  intros [_ Hc]. specialize (Hc 0%nat (of_Z 20) eq_refl (or_intror eq_refl)).
  vm_compute in Hc. discriminate.
Qed.

(** ** build_X: segment boundaries (C2) *)

Lemma length_split_from {A} (lo : nat) (indices : list nat) (l : list A) :
  length (Np.split_from lo indices l) = S (length indices).
Proof. revert lo. induction indices as [|i indices IH]; intros lo; simpl; auto. Qed.

Lemma length_segments t : length (segments t) = S (length (find_breaks t)).
Proof.
  unfold segments, Np.array_split. now rewrite length_split_from, length_map.
Qed.

Lemma length_seg_indicators t : length (seg_indicators t) = length (segments t).
Proof. unfold seg_indicators. now rewrite length_map. Qed.

Lemma elem_of_where_from (i0 : nat) (mask : list bool) (i : nat) :
  i ∈ Np.where_from i0 mask <-> (i0 <= i)%nat /\ mask !! (i - i0)%nat = Some true.
Proof.
  revert i0. induction mask as [|b mask IH]; intros i0; simpl.
  - rewrite elem_of_nil. rewrite lookup_nil. intuition discriminate.
  - assert (Hrec : i ∈ Np.where_from (S i0) mask <->
                   (i0 < i)%nat /\ (b :: mask) !! (i - i0)%nat = Some true).
    { rewrite IH. split; intros [Hle Hl]; (split; [lia|]).
      - replace (i - i0)%nat with (S (i - S i0)) by lia. exact Hl.
      - replace (i - i0)%nat with (S (i - S i0)) in Hl by lia. exact Hl. }
    destruct b.
    + rewrite elem_of_cons, Hrec. split.
      * intros [->|[Hlt Hl]]; [|split; [lia|exact Hl]].
        split; [lia|]. now rewrite Nat.sub_diag.
      * intros [Hle Hl]. destruct (decide (i = i0)) as [->|Hne]; [now left|].
        right. split; [lia|exact Hl].
    + rewrite Hrec. split.
      * intros [Hlt Hl]. split; [lia|exact Hl].
      * intros [Hle Hl]. destruct (decide (i = i0)) as [->|Hne].
        -- rewrite Nat.sub_diag in Hl. discriminate.
        -- split; [lia|exact Hl].
Qed.

Lemma elem_of_where (mask : list bool) (i : nat) :
  i ∈ Np.where_ mask <-> mask !! i = Some true.
Proof.
  unfold Np.where_. rewrite elem_of_where_from, Nat.sub_0_r.
  split; [now intros [_ ?] | intros; split; [lia | assumption]].
Qed.

Lemma find_breaks_wide_gaps t :
  find_breaks t = map (fun i : nat => Z.of_nat i - 1) (wide_gaps t).
Proof.
  unfold find_breaks, wide_gaps.
  induction (Np.where_ _) as [|i l IH]; simpl; [reflexivity|].
  rewrite !filter_cons.
  destruct (decide (0 < Z.of_nat i - 1)), (decide (2 <= i)%nat); try lia;
    simpl; now rewrite IH.
Qed.

(** A boundary index is recorded for the gap two cadences later. *)
Lemma find_breaks_spec t (b : Z) :
  b ∈ find_breaks t <->
  0 < b /\ exists d, Np.diff t !! Z.to_nat (b + 1) = Some d /\ gtb d gap_threshold = true.
Proof.
  rewrite find_breaks_wide_gaps. unfold wide_gaps.
  rewrite list_elem_of_In, in_map_iff. split.
  - intros (i & <- & Hi). apply list_elem_of_In, list_elem_of_filter in Hi.
    destruct Hi as [Hi Hw]. apply elem_of_where in Hw.
    rewrite lookup_map in Hw.
    replace (Z.to_nat (Z.of_nat i - 1 + 1)) with i by lia.
    split; [lia|].
    destruct (Np.diff t !! i) as [d|]; simpl in Hw; [|discriminate].
    exists d. split; [reflexivity|congruence].
  - intros (Hb & d & Hd & Hgt). exists (Z.to_nat (b + 1)). split; [lia|].
    apply list_elem_of_In, list_elem_of_filter. split; [lia|].
    apply elem_of_where. rewrite lookup_map, Hd. simpl. now rewrite Hgt.
Qed.

Lemma length_find_breaks t : length (find_breaks t) = length (wide_gaps t).
Proof. now rewrite find_breaks_wide_gaps, length_map. Qed.

Lemma diff_take (n : nat) (t : vec) : Np.diff (take (S n) t) = take n (Np.diff t).
Proof.
  revert t. induction n as [|n IH]; intros t.
  - destruct t as [|x [|y t]]; reflexivity.
  - destruct t as [|x [|y t]]; try reflexivity.
    specialize (IH (y :: t)).
    change (Np.diff (take (S (S n)) (x :: y :: t)))
      with (sub y x :: Np.diff (take (S n) (y :: t))).
    rewrite IH. reflexivity.
Qed.

Lemma where_from_app (k : nat) (m1 m2 : list bool) :
  Np.where_from k (m1 ++ m2) = Np.where_from k m1 ++ Np.where_from (k + length m1) m2.
Proof.
  revert k. induction m1 as [|b m1 IH]; intros k; simpl.
  - now rewrite Nat.add_0_r.
  - rewrite IH. replace (S k + length m1)%nat with (k + S (length m1))%nat by lia.
    now destruct b.
Qed.

Lemma gap_threshold_fixed : gap_threshold = fixed_gap_limit.
Proof. reflexivity. Qed.

Lemma wide_gaps_gaps_exceeding t :
  wide_gaps t = filter (fun i : nat => (2 <= i)%nat) (gaps_exceeding t).
Proof. reflexivity. Qed.

(** The gaps of the series up to and including the gap [i]. *)
Lemma gaps_exceeding_take (t : vec) (i : nat) (d : float) :
  Np.diff t !! i = Some d ->
  gaps_exceeding (take (i + 2) t) =
  gaps_exceeding (take (i + 1) t) ++ (if gtb d fixed_gap_limit then [i] else []).
Proof.
  intros Hd. unfold gaps_exceeding, Np.where_.
  replace (i + 2)%nat with (S (S i)) by lia. replace (i + 1)%nat with (S i) by lia.
  rewrite !diff_take, (take_S_r _ _ _ Hd), map_app, where_from_app.
  rewrite length_map, length_take_le by (apply lookup_lt_Some in Hd; lia).
  simpl. now destruct (gtb d fixed_gap_limit).
Qed.

(** C2, counterexample.  The first series has exactly one gap exceeding
    10 times its median cadence spacing (64 times, between the fourth and
    the fifth cadence), and [build_X] makes one segment and one indicator
    column of it: the gap is below the constant 0.0202 * 10.  In the
    second series the gap between [time[3]] and [time[4]] exceeds both
    thresholds and the boundary is the index 2, so that the two cadences
    of the gap are in the same segment.  In the third series the gap
    between the second and the third cadence exceeds both thresholds and
    no boundary is kept. *)
Lemma boundary_neither_scaled_nor_at_the_gap :
  (gaps_over_10x_median short_cadence_series = [3%nat] /\
   find_breaks short_cadence_series = [] /\
   length (segments short_cadence_series) = 1%nat /\
   length (seg_indicators short_cadence_series) = 1%nat) /\
  (gaps_over_10x_median long_cadence_series = [3%nat] /\
   gaps_exceeding long_cadence_series = [3%nat] /\
   find_breaks long_cadence_series = [2] /\
   segments long_cadence_series =
     [take 2 long_cadence_series; drop 2 long_cadence_series]) /\
  (gaps_over_10x_median early_gap_series = [1%nat] /\
   gaps_exceeding early_gap_series = [1%nat] /\
   find_breaks early_gap_series = [] /\
   length (segments early_gap_series) = 1%nat).
Proof. vm_compute. repeat split. Qed.

(** C2, as amended.  From the gap between [time[2]] and [time[3]] on,
    carrying the series over one more gap keeps the boundaries there
    were and adds one boundary exactly when that gap exceeds the constant
    [0.0202 * 10], whatever the cadence spacing of the series; the gap at
    the first sample adds none.  There is one segment more than there
    are boundaries, and one indicator column per segment.  So a series
    whose second gap does not exceed the constant has as many boundaries
    as gaps exceeding the constant, the first gap left aside; and a
    series whose only gap exceeding the constant lies from [time[2]] on
    gives exactly 2 segments and 2 segment-indicator columns. *)
Theorem boundary_per_gap_over_fixed_constant (t : vec) :
  (forall i d, (2 <= i)%nat -> Np.diff t !! i = Some d ->
     exists b,
       find_breaks (take (i + 2) t) =
       find_breaks (take (i + 1) t)
       ++ (if gtb d (mul (of_ratio 202 10000) ten) then [b] else [])) /\
  find_breaks (take 2 t) = [] /\
  length (segments t) = S (length (find_breaks t)) /\
  length (seg_indicators t) = length (segments t) /\
  (1%nat ∉ gaps_exceeding t ->
   length (find_breaks t) =
   length (List.filter (fun i => negb (i =? 0)%nat) (gaps_exceeding t))) /\
  (forall i, gaps_exceeding t = [i] -> (2 <= i)%nat ->
     length (segments t) = 2%nat /\
     length (seg_indicators t) = 2%nat /\
     length (indicator_block t) = 2%nat).
Proof.
  fold fixed_gap_limit. split; [|split; [|split; [|split; [|split]]]].
  - intros i d Hi Hd. exists (Z.of_nat i - 1).
    rewrite !find_breaks_wide_gaps, !wide_gaps_gaps_exceeding.
    rewrite (gaps_exceeding_take t i d Hd), filter_app, map_app.
    destruct (gtb d fixed_gap_limit).
    + rewrite filter_cons_True by exact Hi. reflexivity.
    + reflexivity.
  - rewrite find_breaks_wide_gaps. unfold wide_gaps.
    destruct t as [|x [|y t]]; try reflexivity.
    change (take 2 (x :: y :: t)) with [x; y]. simpl.
    destruct (gtb (sub y x) gap_threshold); reflexivity.
  - apply length_segments.
  - apply length_seg_indicators.
  - intros H1. rewrite length_find_breaks, wide_gaps_gaps_exceeding.
    induction (gaps_exceeding t) as [|i l IH]; [reflexivity|].
    rewrite not_elem_of_cons in H1. destruct H1 as [Hi Hl].
    rewrite filter_cons. simpl.
    destruct (decide (2 <= i)%nat) as [H2|H2].
    + destruct i as [|i]; [lia|]. simpl. now rewrite IH.
    + destruct i as [|[|i]]; [|congruence|lia]. simpl. now apply IH.
  - intros i Hg Hi.
    assert (Hs : length (segments t) = 2%nat).
    { rewrite length_segments, length_find_breaks, wide_gaps_gaps_exceeding.
      rewrite Hg, filter_cons_True by exact Hi. reflexivity. }
    split; [exact Hs|]. split.
    + now rewrite length_seg_indicators.
    + unfold indicator_block. now rewrite length_map, length_seg_indicators.
Qed.

Lemma boundary_per_gap_over_fixed_constant_witness :
  (exists b, find_breaks (take (3 + 2) long_cadence_series) =
             find_breaks (take (3 + 1) long_cadence_series) ++ [b]) /\
  length (segments long_cadence_series) = 2%nat /\
  length (seg_indicators long_cadence_series) = 2%nat.
Proof.
  destruct (boundary_per_gap_over_fixed_constant long_cadence_series)
    as (Hgap & _ & _ & _ & _ & Hone).
  split.
  - destruct (Hgap 3%nat (of_ratio 64 64) ltac:(lia) ltac:(vm_compute; reflexivity))
      as [b Hb].
    assert (Hw : gtb (of_ratio 64 64) (mul (of_ratio 202 10000) ten) = true)
      by (vm_compute; reflexivity).
    rewrite Hw in Hb. exists b. exact Hb.
  - destruct (Hone 3%nat ltac:(vm_compute; reflexivity) ltac:(lia)) as (Hs & Hi & _).
    split; assumption.
Defined.

(** ** build_X: the centroid basis (C4) *)

Lemma length_col j (m : matrix) : length (Np.col j m) = length m.
Proof. unfold Np.col. now rewrite length_map. Qed.

Lemma length_transpose n (m : matrix) : length (Np.transpose n m) = n.
Proof. unfold Np.transpose. now rewrite length_map, length_seq. Qed.

Lemma Forall_length_transpose n (m : matrix) :
  Forall (fun row => length row = length m) (Np.transpose n m).
Proof.
  unfold Np.transpose. rewrite Forall_map. apply Forall_forall.
  intros j _. simpl. apply length_col.
Qed.

Lemma mapM_length {A B} (f : A -> result B) (l : list A) (ys : list B) :
  mapM f l = Ok ys -> length ys = length l.
Proof.
  revert ys. induction l as [|x l IH]; simpl; intros ys Hm.
  - now inversion Hm.
  - destruct (f x) as [y|e]; simpl in Hm; [|discriminate].
    destruct (mapM f l) as [ys'|e]; simpl in Hm; [|discriminate].
    inversion Hm; subst. simpl. now rewrite (IH ys').
Qed.

Lemma length_block_mul (a b : matrix) :
  length (block_mul a b) = Nat.min (length a) (length b).
Proof. unfold block_mul. apply length_zip_with. Qed.

Lemma length_block_map f (a : matrix) : length (block_map f a) = length a.
Proof. unfold block_map. now rewrite length_map. Qed.

Lemma length_indicator_block t : length (indicator_block t) = length (segments t).
Proof. unfold indicator_block. now rewrite length_map, length_seg_indicators. Qed.

Lemma time_trend_blocks_length t blocks :
  time_trend_blocks t = Ok blocks ->
  length (concat blocks) = (3 * length (segments t))%nat.
Proof.
  unfold time_trend_blocks. intros Hb.
  destruct (mapM (trend_row t) (segments t)) as [ts1|e] eqn:Hm; simpl in Hb; [|discriminate].
  inversion Hb; subst. apply mapM_length in Hm. simpl.
  rewrite !length_app, length_block_map, length_indicator_block, Hm. simpl. lia.
Qed.

Lemma motion_blocks_length t r c :
  length (concat (motion_blocks t r c)) = (16 * length (segments t))%nat.
Proof.
  unfold motion_blocks. simpl.
  rewrite !length_app, !length_block_mul, !length_block_map, !length_map,
    length_indicator_block. simpl. lia.
Qed.

Lemma centroids_eq p :
  centroids p =
  if eqb (Np.sum (clean_pos_corr (pos_corr1 p) (pos_corr2 p)).1) zero
  then blocks ← time_trend_blocks (time p); Ok (vstack_T (length (time p)) blocks)
  else Ok (vstack_T (length (time p))
             (motion_blocks (time p) (clean_pos_corr (pos_corr1 p) (pos_corr2 p)).1
                                     (clean_pos_corr (pos_corr1 p) (pos_corr2 p)).2)).
Proof. unfold centroids. now destruct (clean_pos_corr _ _). Qed.

Lemma length_centroids p m : centroids p = Ok m -> length m = length (time p).
Proof.
  rewrite centroids_eq. destruct (eqb _ _).
  - destruct (time_trend_blocks (time p)) as [blocks|e]; simpl; [|discriminate].
    intros Hm; inversion Hm; subst. apply length_transpose.
  - intros Hm; inversion Hm; subst. apply length_transpose.
Qed.

Lemma cleaned_rows_zero p1 p2 :
  Forall (fun x => is_zero x = true \/ isfinite x = false \/ gtb (abs x) ten = true) p1 ->
  Forall (fun x => is_zero x = true) (clean_pos_corr p1 p2).1.
Proof.
  intros Hp. unfold clean_pos_corr; simpl. rewrite mask_assign_map, !Forall_map.
  eapply Forall_impl; [exact Hp|]. intros x Hx. simpl.
  rewrite clean_row_entry.
  destruct Hx as [Hx|[Hx|Hx]].
  - destruct (isfinite x && negb (gtb (abs x) ten)); [exact Hx | reflexivity].
  - now rewrite Hx.
  - rewrite Hx, andb_false_r. reflexivity.
Qed.

(** C4, as amended.  The time-trend basis (3 columns per segment) is built
    exactly when the cleaned row offsets sum to zero, whatever the column
    offsets are, and the centroid-motion basis (16 columns per segment)
    otherwise; the sum is zero in particular when every row offset is
    zero, not finite or beyond 10 in magnitude. *)
Theorem centroids_fallback_iff_row_sum_zero (p : tpf) :
  let r := (clean_pos_corr (pos_corr1 p) (pos_corr2 p)).1 in
  let c := (clean_pos_corr (pos_corr1 p) (pos_corr2 p)).2 in
  let n := length (segments (time p)) in
  (eqb (Np.sum r) zero = true ->
     centroids p =
       (blocks ← time_trend_blocks (time p); Ok (vstack_T (length (time p)) blocks)) /\
     forall m, centroids p = Ok m -> Forall (fun row => length row = (3 * n)%nat) m) /\
  (eqb (Np.sum r) zero = false ->
     centroids p = Ok (vstack_T (length (time p)) (motion_blocks (time p) r c)) /\
     forall m, centroids p = Ok m -> Forall (fun row => length row = (16 * n)%nat) m) /\
  (Forall (fun x => is_zero x = true \/ isfinite x = false \/ gtb (abs x) ten = true)
          (pos_corr1 p) ->
     eqb (Np.sum r) zero = true).
Proof.
  intros r c n. unfold n. clear n. repeat split.
  - rewrite centroids_eq. fold r. now rewrite H.
  - intros m. rewrite centroids_eq. fold r. rewrite H.
    destruct (time_trend_blocks (time p)) as [blocks|e] eqn:Hb; simpl; [|discriminate].
    intros Hm; inversion Hm; subst. unfold vstack_T.
    pose proof (time_trend_blocks_length _ _ Hb) as Hl. simpl in Hl.
    rewrite <- Hl. apply Forall_length_transpose.
  - rewrite centroids_eq. fold r c. now rewrite H.
  - intros m. rewrite centroids_eq. fold r c. rewrite H.
    intros Hm; inversion Hm; subst. unfold vstack_T.
    pose proof (motion_blocks_length (time p) r c) as Hl. simpl in Hl |- *.
    rewrite <- Hl. apply Forall_length_transpose.
  - intros Hp. apply is_zero_eqb_zero, sum_zeros, cleaned_rows_zero, Hp.
Qed.

Lemma centroids_fallback_iff_row_sum_zero_witness :
  eqb (Np.sum (clean_pos_corr (pos_corr1 cancelling_offsets)
                              (pos_corr2 cancelling_offsets)).1) zero = true /\
  centroids cancelling_offsets =
    (blocks ← time_trend_blocks (time cancelling_offsets);
     Ok (vstack_T (length (time cancelling_offsets)) blocks)).
Proof.
  assert (Hs : eqb (Np.sum (clean_pos_corr (pos_corr1 cancelling_offsets)
                              (pos_corr2 cancelling_offsets)).1) zero = true)
    by (vm_compute; reflexivity).
  split; [exact Hs|].
  exact (proj1 (proj1 (centroids_fallback_iff_row_sum_zero cancelling_offsets) Hs)).
Defined.

(** C4, counterexample.  With row offsets [1, -1] the pointing corrections
    are not uniformly zero, and with column offsets [1, 2] over zero row
    offsets neither; in both cases the time-trend basis is built. *)
Lemma fallback_with_nonzero_offsets :
  (uniformly_zero (pos_corr1 cancelling_offsets ++ pos_corr2 cancelling_offsets) = false /\
   centroids cancelling_offsets =
     (blocks ← time_trend_blocks (time cancelling_offsets);
      Ok (vstack_T (length (time cancelling_offsets)) blocks)) /\
   exists m, centroids cancelling_offsets = Ok m /\
             Forall (fun row => length row = 3%nat) m) /\
  (uniformly_zero (pos_corr1 column_offsets_only ++ pos_corr2 column_offsets_only) = false /\
   centroids column_offsets_only =
     (blocks ← time_trend_blocks (time column_offsets_only);
      Ok (vstack_T (length (time column_offsets_only)) blocks)) /\
   exists m, centroids column_offsets_only = Ok m /\
             Forall (fun row => length row = 3%nat) m).
Proof.
  split; (split; [vm_compute; reflexivity|]); (split; [vm_compute; reflexivity|]);
    eexists; (split; [vm_compute; reflexivity|]); repeat constructor.
Qed.

(** ** build_lc (C3) *)

Lemma drop_last_append_offset (SA : matrix) :
  drop_last_column (append_offset SA None) = SA.
Proof.
  unfold drop_last_column, append_offset. rewrite map_map.
  rewrite <- (map_id SA) at 2. apply map_ext. intros row.
  rewrite length_app. simpl.
  replace (length row + 1 - 1)%nat with (length row) by lia.
  now rewrite take_app_length.
Qed.

Lemma lc_design_eq `{Collaborators} p cbvs background spline spline_period :
  lc_design p cbvs background spline spline_period =
  (A ← regressors p background cbvs spline spline_period;
   Ok (weight_rows (replicate (length (time p)) one) A)).
Proof.
  unfold lc_design, build_X.
  destruct (regressors p background cbvs spline spline_period) as [A|e];
    rewrite ?bind_Ok, ?bind_Raise; [|reflexivity].
  now rewrite drop_last_append_offset.
Qed.

Lemma segments_no_breaks t : find_breaks t = [] -> segments t = [t].
Proof.
  intros Hb. unfold segments. rewrite Hb. simpl.
  unfold Np.array_split, Np.split_from, Np.slice.
  now rewrite Nat.sub_0_r, drop_0, firstn_all.
Qed.

Lemma in1d_self t i x :
  existsb isnan t = false -> t !! i = Some x -> Np.in1d t t !! i = Some true.
Proof.
  intros Hn Hi. unfold Np.in1d. rewrite lookup_map, Hi. simpl. f_equal.
  apply existsb_exists. exists x. split.
  - apply list_elem_of_In. eapply list_elem_of_lookup_2, Hi.
  - apply eqb_refl. destruct (isnan x) eqn:E; [|reflexivity].
    assert (Ht : existsb isnan t = true).
    { apply existsb_exists. exists x. split; [|exact E].
      apply list_elem_of_In. eapply list_elem_of_lookup_2, Hi. }
    congruence.
Qed.

Lemma rows_start_hstack2 v (a b : matrix) :
  rows_start_with v a -> rows_start_with v (Np.hstack2 a b).
Proof.
  unfold rows_start_with. intros Ha. revert b.
  induction Ha as [|ra a Hra _ IH]; intros [|rb b]; simpl; constructor.
  - now apply lookup_app_l_Some.
  - apply IH.
Qed.

Lemma rows_start_transpose v n (m : matrix) first rest :
  m = first :: rest ->
  (forall i, (i < n)%nat -> first !! i = Some v) ->
  rows_start_with v (Np.transpose n m).
Proof.
  intros -> Hf. unfold rows_start_with, Np.transpose.
  rewrite Forall_map. apply Forall_forall. intros i Hi.
  apply elem_of_seq in Hi. simpl. f_equal.
  specialize (Hf i ltac:(lia)).
  apply nth_lookup_Some with (d := zero) in Hf. exact Hf.
Qed.

Lemma indicator_block_single t :
  find_breaks t = [] -> existsb isnan t = false ->
  exists rest, indicator_block t = map b2f (Np.in1d t t) :: rest /\
    forall i, (i < length t)%nat -> map b2f (Np.in1d t t) !! i = Some one.
Proof.
  intros Hb Hn. exists []. split.
  - unfold indicator_block, seg_indicators. now rewrite (segments_no_breaks t Hb).
  - intros i Hi. destruct (lookup_lt_is_Some_2 t i Hi) as [x Hx].
    rewrite lookup_map, (in1d_self t i x Hn Hx). reflexivity.
Qed.

Lemma centroids_single_segment p m :
  centroids p = Ok m ->
  find_breaks (time p) = [] -> existsb isnan (time p) = false ->
  rows_start_with one m.
Proof.
  intros Hm Hb Hn.
  destruct (indicator_block_single (time p) Hb Hn) as (rest & Hi & Hones).
  rewrite centroids_eq in Hm. destruct (eqb _ _).
  - unfold time_trend_blocks in Hm.
    destruct (mapM _ _) as [ts1|e]; simpl in Hm; [|discriminate].
    inversion Hm; subst. unfold vstack_T.
    eapply rows_start_transpose; [|exact Hones].
    simpl. rewrite Hi. reflexivity.
  - inversion Hm; subst. unfold vstack_T, motion_blocks.
    eapply rows_start_transpose; [|exact Hones].
    simpl. rewrite Hi. reflexivity.
Qed.

Lemma regressors_single_segment `{Collaborators} p background cbvs spline
    spline_period A :
  regressors p background cbvs spline spline_period = Ok A ->
  find_breaks (time p) = [] -> existsb isnan (time p) = false ->
  rows_start_with one A.
Proof.
  unfold regressors. intros HA Hb Hn.
  destruct (centroids p) as [A0|e] eqn:Hc; simpl in HA; [|discriminate].
  pose proof (centroids_single_segment p A0 Hc Hb Hn) as H0.
  set (A1 := match cbvs with
             | Some v => Np.hstack2 A0 (map (map nan_to_num) v)
             | None => A0
             end) in *.
  assert (H1 : rows_start_with one A1).
  { unfold A1. destruct cbvs; [now apply rows_start_hstack2 | exact H0]. }
  clearbody A1.
  destruct background.
  - destruct (pca3 _) as [bkg|e]; simpl in HA; [|discriminate].
    destruct spline.
    + destruct (n_knots _ _) as [n|e]; simpl in HA; [|discriminate].
      destruct (create_spline_matrix _ _) as [sp|e]; simpl in HA; [|discriminate].
      inversion HA; subst. now apply rows_start_hstack2, rows_start_hstack2.
    + inversion HA; subst. now apply rows_start_hstack2.
  - simpl in HA. destruct spline.
    + destruct (n_knots _ _) as [n|e]; simpl in HA; [|discriminate].
      destruct (create_spline_matrix _ _) as [sp|e]; simpl in HA; [|discriminate].
      inversion HA; subst. now apply rows_start_hstack2.
    + inversion HA; subst. exact H1.
Qed.

Lemma weight_rows_ones_start n (A : matrix) :
  rows_start_with one A -> rows_start_with one (weight_rows (replicate n one) A).
Proof.
  unfold rows_start_with, weight_rows. intros HA. revert n.
  induction HA as [|row A Hrow _ IH]; intros [|n]; simpl; try constructor.
  - rewrite lookup_map, Hrow. reflexivity.
  - apply IH.
Qed.

(** C3, as amended.  [build_lc] builds the design matrix with uniform
    flux weights and no transit template and drops its last column, the
    constant-ones column that [build_X] appended; the matrix of the solve
    is the weighted regressor block alone.  Its first column is all ones
    when the time axis has no NaN and a single segment.  The result is
    the raw aggregate light curve divided by the model [SA . w]. *)
Theorem build_lc_drops_offset_column `{Collaborators} (p : tpf)
    (aperture_mask : list (list bool)) (cbvs : option matrix)
    (cadence_mask : option (list bool)) (background spline : bool)
    (spline_period : float) (out : lightcurve) :
  build_lc p aperture_mask cbvs cadence_mask background spline spline_period = Ok out ->
  exists (A : matrix) (w : vec),
    let SA := weight_rows (replicate (length (time p)) one) A in
    let raw_lc := to_lightcurve p aperture_mask in
    let ne := normal_equations SA (default (all_cadences p) cadence_mask)
                (lc_flux raw_lc) (lc_flux_err raw_lc) in
    regressors p background cbvs spline spline_period = Ok A /\
    build_X p (replicate (length (time p)) one) None background cbvs spline spline_period
      = Ok (map (fun row => row ++ [one]) SA) /\
    lc_design p cbvs background spline spline_period = Ok SA /\
    solve ne.1 ne.2 = Ok w /\
    out = lc_div raw_lc (mat_vec SA w) /\
    (find_breaks (time p) = [] -> existsb isnan (time p) = false ->
     rows_start_with one SA).
Proof.
  unfold build_lc. rewrite lc_design_eq. unfold build_X.
  destruct (regressors p background cbvs spline spline_period) as [A|e] eqn:HA;
    rewrite ?bind_Ok, ?bind_Raise; [|discriminate].
  destruct (normal_equations _ _ _ _) as [sigma_w_inv B] eqn:Hne.
  destruct (solve sigma_w_inv B) as [w|e] eqn:Hw;
    rewrite ?bind_Ok, ?bind_Raise; [|discriminate].
  intros Hout. inversion Hout; subst. exists A, w. cbv zeta.
  rewrite Hne. cbn [fst snd]. repeat split; try reflexivity; try assumption.
  intros Hb Hn. apply weight_rows_ones_start.
  eapply regressors_single_segment; eassumption.
Qed.

Lemma build_lc_lc_model `{Collaborators} p aperture_mask cbvs cadence_mask
    background spline spline_period :
  build_lc p aperture_mask cbvs cadence_mask background spline spline_period =
  (m ← lc_model p aperture_mask cbvs cadence_mask background spline spline_period;
   Ok (lc_div (to_lightcurve p aperture_mask) m)).
Proof.
  unfold build_lc, lc_model.
  destruct (lc_design _ _ _ _ _) as [SA|e]; rewrite ?bind_Ok, ?bind_Raise; [|reflexivity].
  destruct (normal_equations _ _ _ _) as [sigma_w_inv B].
  destruct (solve sigma_w_inv B) as [w|e]; reflexivity.
Qed.

(** C3, counterexample.  On a stamp with two segments, without spline,
    background and covariates, the matrix [build_lc] solves with has no
    column that is a non-zero constant.  On a single-segment stamp without
    flux the matrix has its all-ones column and the fitted model is zero
    at every cadence. *)
Lemma no_offset_column_or_zero_model :
  (length (segments (time two_segment_stamp)) = 2%nat /\
   exists SA,
     @lc_design (StandIn.collaborators box_levels) two_segment_stamp None false false
                (of_Z 8) = Ok SA /\
     has_offset_column SA = false) /\
  (exists SA,
     @lc_design (StandIn.collaborators box_levels) dark_stamp None false true
                (of_Z 4) = Ok SA /\
     has_offset_column SA = true /\
     @lc_model (StandIn.collaborators box_levels) dark_stamp [[true]] None None
               false true (of_Z 4) = Ok (replicate 12 zero)).
Proof.
  split.
  - split; [vm_compute; reflexivity|].
    eexists. split; vm_compute; reflexivity.
  - eexists. split; [vm_compute; reflexivity|]. split; vm_compute; reflexivity.
Qed.

(** ** Pixel arrays *)

Lemma pixel_get2 (frame : list (list float)) idx jdx :
  nth jdx (nth idx frame []) nan = default nan (get2 frame idx jdx).
Proof.
  unfold get2. rewrite !nth_lookup.
  destruct (frame !! idx) as [row|]; reflexivity.
Qed.

Lemma shape2_set_pixel r c idx jdx x (a : list (list float)) :
  shape2 r c a -> shape2 r c (set_pixel idx jdx x a).
Proof.
  unfold shape2, set_pixel. intros [Hl Hr]. split.
  - now rewrite length_alter.
  - apply Forall_lookup. intros i row Hi.
    destruct (decide (idx = i)) as [->|Hne].
    + rewrite list_lookup_alter_eq in Hi.
      destruct (a !! i) as [row'|] eqn:Hrow; simpl in Hi; [|discriminate].
      inversion Hi; subst. rewrite length_insert.
      eapply Forall_lookup_1 in Hr; [exact Hr | exact Hrow].
    + rewrite list_lookup_alter_ne in Hi by exact Hne.
      eapply Forall_lookup_1 in Hr; [exact Hr | exact Hi].
Qed.

Lemma get2_set_pixel_eq r c idx jdx x (a : list (list float)) :
  shape2 r c a -> (idx < r)%nat -> (jdx < c)%nat ->
  get2 (set_pixel idx jdx x a) idx jdx = Some x.
Proof.
  unfold shape2, set_pixel, get2. intros [Hl Hr] Hi Hj.
  rewrite list_lookup_alter_eq.
  destruct (lookup_lt_is_Some_2 a idx ltac:(lia)) as [row Hrow].
  rewrite Hrow. simpl. apply list_lookup_insert_eq.
  eapply Forall_lookup_1 in Hr; [|exact Hrow]. simpl in Hr. lia.
Qed.

Lemma get2_set_pixel_ne idx jdx idx' jdx' x (a : list (list float)) :
  (idx, jdx) <> (idx', jdx') ->
  get2 (set_pixel idx jdx x a) idx' jdx' = get2 a idx' jdx'.
Proof.
  unfold set_pixel, get2. intros Hne.
  destruct (decide (idx = idx')) as [->|Hi].
  - rewrite list_lookup_alter_eq. destruct (a !! idx') as [row|]; simpl; [|reflexivity].
    apply list_lookup_insert_ne. congruence.
  - now rewrite list_lookup_alter_ne.
Qed.

Lemma get2_zeros2 r c idx jdx :
  (idx < r)%nat -> (jdx < c)%nat -> get2 (zeros2 r c) idx jdx = Some zero.
Proof.
  intros Hi Hj. unfold get2, zeros2.
  rewrite lookup_replicate_2 by exact Hi. simpl.
  now apply lookup_replicate_2.
Qed.

Lemma shape2_zeros2 r c : shape2 r c (zeros2 r c).
Proof.
  unfold shape2, zeros2. split; [apply length_replicate|].
  apply Forall_replicate, length_replicate.
Qed.

Lemma shape3_zeros3 t r c : shape3 t r c (zeros3 t r c).
Proof.
  unfold shape3, zeros3. split; [apply length_replicate|].
  apply Forall_replicate, shape2_zeros2.
Qed.

Lemma shape3_set_pixel_series t r c idx jdx (v : vec) (a : cube3) :
  shape3 t r c a -> length v = t -> shape3 t r c (set_pixel_series idx jdx v a).
Proof.
  unfold shape3, set_pixel_series. intros [Hl Hf] Hv. split.
  - rewrite length_zip_with. lia.
  - apply Forall_lookup. intros i frame Hi.
    apply lookup_zip_with_Some in Hi. destruct Hi as (fr & x & -> & Hfr & _).
    apply shape2_set_pixel. eapply Forall_lookup_1 in Hf; [exact Hf | exact Hfr].
Qed.

Lemma pixel_series_lookup (a : cube3) idx jdx i :
  pixel_series a idx jdx !! i = (fun frame => default nan (get2 frame idx jdx)) <$> a !! i.
Proof.
  unfold pixel_series. rewrite lookup_map.
  destruct (a !! i) as [frame|]; simpl; [|reflexivity].
  now rewrite pixel_get2.
Qed.

Lemma pixel_series_set_eq t r c idx jdx (v : vec) (a : cube3) :
  shape3 t r c a -> length v = t -> (idx < r)%nat -> (jdx < c)%nat ->
  pixel_series (set_pixel_series idx jdx v a) idx jdx = v.
Proof.
  intros [Hl Hf] Hv Hi Hj. apply list_eq. intros i.
  rewrite pixel_series_lookup. unfold set_pixel_series.
  rewrite lookup_zip_with.
  destruct (a !! i) as [frame|] eqn:Hfr; simpl.
  - destruct (v !! i) as [x|] eqn:Hx; simpl.
    + eapply Forall_lookup_1 in Hf; [|exact Hfr].
      now rewrite (get2_set_pixel_eq r c idx jdx x frame Hf Hi Hj).
    + apply lookup_lt_Some in Hfr. apply lookup_ge_None in Hx. lia.
  - apply lookup_ge_None in Hfr. symmetry. apply lookup_ge_None. lia.
Qed.

Lemma pixel_series_set_ne t r c idx jdx idx' jdx' (v : vec) (a : cube3) :
  shape3 t r c a -> length v = t -> (idx, jdx) <> (idx', jdx') ->
  pixel_series (set_pixel_series idx jdx v a) idx' jdx' = pixel_series a idx' jdx'.
Proof.
  intros [Hl Hf] Hv Hne. apply list_eq. intros i.
  rewrite !pixel_series_lookup. unfold set_pixel_series.
  rewrite lookup_zip_with.
  destruct (a !! i) as [frame|] eqn:Hfr; simpl; [|reflexivity].
  destruct (v !! i) as [x|] eqn:Hx; simpl.
  - now rewrite get2_set_pixel_ne.
  - apply lookup_lt_Some in Hfr. apply lookup_ge_None in Hx. lia.
Qed.

Lemma pixel_series_zeros3 t r c idx jdx :
  (idx < r)%nat -> (jdx < c)%nat ->
  pixel_series (zeros3 t r c) idx jdx = replicate t zero.
Proof.
  intros Hi Hj. apply list_eq. intros i.
  rewrite pixel_series_lookup. unfold zeros3.
  destruct (decide (i < t)%nat) as [Hlt|Hge].
  - rewrite !lookup_replicate_2 by exact Hlt. simpl.
    now rewrite get2_zeros2.
  - rewrite !(proj1 (lookup_replicate_None _ _ _)) by lia. reflexivity.
Qed.

(** ** The loop over the pixels *)

Lemma elem_of_pixels r c idx jdx :
  (idx, jdx) ∈ pixels r c <-> (idx < r)%nat /\ (jdx < c)%nat.
Proof.
  unfold pixels. rewrite list_elem_of_bind. split.
  - intros (i & Hin & Hi). apply list_elem_of_bind in Hin.
    destruct Hin as (j & Hin & Hj). apply list_elem_of_singleton in Hin.
    inversion Hin; subst. apply elem_of_seq in Hi, Hj. lia.
  - intros [Hi Hj]. exists idx. split; [|apply elem_of_seq; lia].
    apply list_elem_of_bind. exists jdx. split; [|apply elem_of_seq; lia].
    now apply list_elem_of_singleton.
Qed.

Lemma NoDup_pixels r c : NoDup (pixels r c).
Proof.
  unfold pixels. apply NoDup_bind; [| |apply NoDup_seq].
  - intros i1 i2 [i j] _ _ H1 H2.
    apply list_elem_of_bind in H1, H2.
    destruct H1 as (j1 & H1 & _), H2 as (j2 & H2 & _).
    apply list_elem_of_singleton in H1, H2. congruence.
  - intros i _. apply NoDup_bind; [| |apply NoDup_seq].
    + intros j1 j2 [i' j] _ _ H1 H2.
      apply list_elem_of_singleton in H1, H2. congruence.
    + intros j _. apply NoDup_singleton.
Qed.

Section FoldFrame.
Context `{Collaborators} {K S V : Type}.
Variables (step : K -> S -> M S) (view : S -> K -> V).
Variables (Inv : S -> Prop) (Dom : K -> Prop) (Fresh Good : K -> V -> Prop).

Hypothesis step_frame : forall k st g st' g',
  Dom k -> Inv st -> step k st g = Ok (st', g') ->
  Inv st' /\
  (forall k', k' <> k -> view st' k' = view st k') /\
  (Fresh k (view st k) -> Good k (view st' k)).

(** A loop whose step at [k] only writes the cells of [k] leaves the
    cells of the keys it does not visit unchanged and every visited key in
    the state its own step made. *)
Lemma foldM_frame (todo : list K) : forall st g st' g',
  NoDup todo -> (forall k, k ∈ todo -> Dom k) -> Inv st ->
  foldM step todo st g = Ok (st', g') ->
  Inv st' /\
  (forall k, k ∉ todo -> view st' k = view st k) /\
  (forall k, k ∈ todo -> Fresh k (view st k) -> Good k (view st' k)).
Proof.
  induction todo as [|k todo IH]; intros st g st' g' Hnd Hdom Hinv Hf; simpl in Hf.
  - inversion Hf; subst. split; [assumption|]. split; [reflexivity|].
    intros k Hk. now apply elem_of_nil in Hk.
  - destruct (step k st g) as [[s1 g1]|e] eqn:Hs; rewrite ?bind_Ok, ?bind_Raise in Hf;
      [|discriminate].
    apply NoDup_cons in Hnd. destruct Hnd as [Hk Hnd].
    destruct (step_frame k st g s1 g1) as (Hinv1 & Hframe & Hgood);
      [apply Hdom; left | assumption | assumption |].
    destruct (IH s1 g1 st' g' Hnd) as (Hinv' & Hrest & Hvisited);
      [intros; apply Hdom; now right | assumption | assumption |].
    split; [assumption|]. split.
    + intros k' Hk'. rewrite not_elem_of_cons in Hk'. destruct Hk' as [Hne Hk'].
      rewrite (Hrest k' Hk'). now apply Hframe.
    + intros k' Hk' Hfresh. apply elem_of_cons in Hk'. destruct Hk' as [->|Hk'].
      * rewrite (Hrest k Hk). now apply Hgood.
      * apply Hvisited; [assumption|]. rewrite Hframe; [assumption|].
        intros ->. contradiction.
Qed.

End FoldFrame.

(** ** build_model: one pixel *)

Section PixelLoop.
Context `{Collaborators}.
Variables (SA : matrix) (cadence_mask : list bool) (has_t_model errors : bool).
Variable p : tpf.

(** What the body of the loop does to the state when it returns. *)
Lemma fit_pixel_Ok idx jdx st g st' g' :
  fit_pixel SA cadence_mask has_t_model errors p (idx, jdx) st g = Ok (st', g') ->
  let f := pixel_series (flux p) idx jdx in
  let fe := pixel_series (flux_err p) idx jdx in
  let ne := normal_equations SA cadence_mask f fe in
  (existsb isfinite f = false /\ st' = st /\ g' = g) \/
  (existsb isfinite f = true /\
   exists w sigma_w,
     solve ne.1 ne.2 = Ok w /\ inv ne.1 = Ok sigma_w /\
     model st' = set_pixel_series idx jdx (mat_vec SA w) (model st) /\
     if has_t_model then
       exists depth lasts,
         last_ w = Ok depth /\
         mapM last_ (draws 50 w sigma_w g).1 = Ok lasts /\
         transit_pixels st' = set_pixel idx jdx depth (transit_pixels st) /\
         transit_pixels_err st' = set_pixel idx jdx (std lasts) (transit_pixels_err st)
     else
       transit_pixels st' = transit_pixels st /\
       transit_pixels_err st' = transit_pixels_err st).
Proof.
  unfold fit_pixel. cbv zeta.
  destruct (existsb isfinite (pixel_series (flux p) idx jdx)) eqn:Hfin; cbn [negb].
  2:{ intros Hr. inversion Hr; subst. left. auto. }
  destruct (normal_equations _ _ _ _) as [sigma_w_inv B]. cbn [fst snd].
  destruct (solve sigma_w_inv B) as [w|e]; rewrite ?bind_Ok, ?bind_Raise; [|discriminate].
  destruct (inv sigma_w_inv) as [sigma_w|e]; rewrite ?bind_Ok, ?bind_Raise; [|discriminate].
  intros Hr. right. split; [reflexivity|]. exists w, sigma_w.
  split; [reflexivity|]. split; [reflexivity|].
  destruct has_t_model.
  - unfold record_transit in Hr.
    destruct (last_ w) as [depth|e] eqn:Hlast; rewrite ?bind_Ok, ?bind_Raise in Hr;
      [|discriminate].
    destruct (draws 50 w sigma_w g) as [xs g1] eqn:Hd. cbn [fst].
    destruct (mapM last_ xs) as [lasts|e] eqn:Hlasts;
      rewrite ?bind_Ok, ?bind_Raise in Hr; [|discriminate].
    destruct errors.
    + unfold record_errors in Hr.
      destruct (resampled_error SA w sigma_w g1) as [[e1 g2]|e];
        rewrite ?bind_Ok, ?bind_Raise in Hr; [|discriminate].
      inversion Hr; subst. cbn. split; [reflexivity|].
      exists depth, lasts. repeat split; assumption.
    + inversion Hr; subst. cbn. split; [reflexivity|].
      exists depth, lasts. repeat split; assumption.
  - rewrite bind_Ok in Hr. destruct errors.
    + unfold record_errors in Hr.
      destruct (resampled_error SA w sigma_w g) as [[e1 g2]|e];
        rewrite ?bind_Ok, ?bind_Raise in Hr; [|discriminate].
      inversion Hr; subst. cbn. auto.
    + inversion Hr; subst. cbn. auto.
Qed.

(** *** The transit-depth maps *)

Lemma fit_pixel_transit_frame px st g st' g' :
  in_stamp p px -> transit_shape p st ->
  fit_pixel SA cadence_mask has_t_model errors p px st g = Ok (st', g') ->
  transit_shape p st' /\
  (forall px', px' <> px -> transit_view st' px' = transit_view st px') /\
  (transit_fresh px (transit_view st px) -> transit_outcome SA cadence_mask has_t_model p px (transit_view st' px)).
Proof.
  destruct px as [idx jdx]. intros [Hi Hj] [Hs1 Hs2] Hf. simpl in Hi, Hj.
  apply fit_pixel_Ok in Hf. cbv zeta in Hf.
  unfold transit_outcome, transit_fresh, transit_view, transit_shape. cbn [fst snd].
  destruct Hf as [(Hfin & -> & ->)|(Hfin & w & sigma_w & Hw & Hs & _ & Ht)]; rewrite Hfin.
  - split; [split; assumption|]. split; [reflexivity|]. auto.
  - destruct has_t_model.
    + destruct Ht as (depth & lasts & Hd & Hl & -> & ->).
      split; [split; now apply shape2_set_pixel|]. split.
      * intros [idx' jdx'] Hne. cbn [fst snd].
        rewrite !get2_set_pixel_ne by congruence. reflexivity.
      * intros _. exists w, sigma_w. split; [assumption|]. split; [assumption|].
        exists g, depth, lasts. split; [assumption|]. split; [assumption|].
        now rewrite (get2_set_pixel_eq _ _ _ _ _ _ Hs1 Hi Hj),
                    (get2_set_pixel_eq _ _ _ _ _ _ Hs2 Hi Hj).
    + destruct Ht as [-> ->].
      split; [split; assumption|]. split; [reflexivity|].
      intros Hfresh. exists w, sigma_w. auto.
Qed.

Lemma fit_pixels_transit g st g' idx jdx :
  fit_pixels SA cadence_mask has_t_model errors p g = Ok (st, g') ->
  (idx < nrows p)%nat -> (jdx < ncols p)%nat ->
  transit_outcome SA cadence_mask has_t_model p (idx, jdx) (transit_view st (idx, jdx)).
Proof.
  unfold fit_pixels. intros Hf Hi Hj.
  destruct (foldM_frame _ transit_view (transit_shape p) (in_stamp p) transit_fresh
              (transit_outcome SA cadence_mask has_t_model p) fit_pixel_transit_frame
              (pixels (nrows p) (ncols p)) (initial_arrays p) g st g')
    as (_ & _ & Hv).
  - apply NoDup_pixels.
  - intros [i j] Hk. apply elem_of_pixels in Hk. exact Hk.
  - split; apply shape2_zeros2.
  - exact Hf.
  - apply Hv.
    + now apply elem_of_pixels.
    + unfold transit_fresh, transit_view, initial_arrays. cbn.
      now rewrite get2_zeros2.
Qed.

(** The loop up to a pixel, the step at the pixel, and the rest of the
    loop, which leaves the pixel's entries as the step made them. *)
Lemma foldM_app {K S} (step : K -> S -> M S) (l1 l2 : list K) : forall s g,
  foldM step (l1 ++ l2) s g = ('(s1, g1) ← foldM step l1 s g; foldM step l2 s1 g1).
Proof.
  induction l1 as [|k l1 IH]; intros s g.
  - reflexivity.
  - change (foldM step ((k :: l1) ++ l2) s g)
      with ('(s', g0) ← step k s g; foldM step (l1 ++ l2) s' g0).
    change (foldM step (k :: l1) s g)
      with ('(s', g0) ← step k s g; foldM step l1 s' g0).
    destruct (step k s g) as [[s1 g1]|e]; rewrite ?bind_Ok, ?bind_Raise; [|reflexivity].
    apply IH.
Qed.

Lemma fit_pixels_reach g st g' idx jdx :
  fit_pixels SA cadence_mask has_t_model errors p g = Ok (st, g') ->
  (idx < nrows p)%nat -> (jdx < ncols p)%nat ->
  exists before after st1 g1 st2 g2,
    pixels (nrows p) (ncols p) = before ++ (idx, jdx) :: after /\
    foldM (fit_pixel SA cadence_mask has_t_model errors p) before (initial_arrays p) g
      = Ok (st1, g1) /\
    transit_shape p st1 /\
    fit_pixel SA cadence_mask has_t_model errors p (idx, jdx) st1 g1 = Ok (st2, g2) /\
    transit_view st (idx, jdx) = transit_view st2 (idx, jdx).
Proof.
  unfold fit_pixels. intros Hf Hi Hj.
  assert (Hin : (idx, jdx) ∈ pixels (nrows p) (ncols p)) by now apply elem_of_pixels.
  apply list_elem_of_split in Hin. destruct Hin as (before & after & Hsplit).
  pose proof (NoDup_pixels (nrows p) (ncols p)) as Hnd.
  assert (Hdom : forall k, k ∈ pixels (nrows p) (ncols p) -> in_stamp p k).
  { intros [i j] Hk. apply elem_of_pixels in Hk. exact Hk. }
  rewrite Hsplit in Hf, Hnd, Hdom.
  apply NoDup_app in Hnd. destruct Hnd as (Hnd1 & _ & Hnd2).
  apply NoDup_cons in Hnd2. destruct Hnd2 as [Hnotin Hnd2].
  rewrite foldM_app in Hf.
  destruct (foldM _ before (initial_arrays p) g) as [[st1 g1]|e] eqn:Hb;
    rewrite ?bind_Ok, ?bind_Raise in Hf; [|discriminate].
  change (foldM (fit_pixel SA cadence_mask has_t_model errors p)
                ((idx, jdx) :: after) st1 g1)
    with ('(s', g0) ← fit_pixel SA cadence_mask has_t_model errors p (idx, jdx) st1 g1;
          foldM (fit_pixel SA cadence_mask has_t_model errors p) after s' g0) in Hf.
  destruct (fit_pixel SA cadence_mask has_t_model errors p (idx, jdx) st1 g1)
    as [[st2 g2]|e] eqn:Hs; rewrite ?bind_Ok, ?bind_Raise in Hf; [|discriminate].
  destruct (foldM_frame _ transit_view (transit_shape p) (in_stamp p) transit_fresh
              (transit_outcome SA cadence_mask has_t_model p) fit_pixel_transit_frame
              before (initial_arrays p) g st1 g1 Hnd1)
    as (Hshape1 & _ & _).
  { intros k Hk. apply Hdom. apply elem_of_app. now left. }
  { split; apply shape2_zeros2. }
  { exact Hb. }
  destruct (fit_pixel_transit_frame (idx, jdx) st1 g1 st2 g2 (conj Hi Hj) Hshape1 Hs)
    as (Hshape2 & _ & _).
  destruct (foldM_frame _ transit_view (transit_shape p) (in_stamp p) transit_fresh
              (transit_outcome SA cadence_mask has_t_model p) fit_pixel_transit_frame
              after st2 g2 st g' Hnd2)
    as (_ & Hrest & _).
  { intros k Hk. apply Hdom. apply elem_of_app. right. now right. }
  { exact Hshape2. }
  { exact Hf. }
  exists before, after, st1, g1, st2, g2. split; [exact Hsplit|].
  split; [exact Hb|]. split; [exact Hshape1|]. split; [exact Hs|].
  now apply Hrest.
Qed.

(** *** The model cube *)

Hypothesis SA_rows : length SA = length (flux p).

Lemma length_mat_vec (m : matrix) (w : vec) : length (mat_vec m w) = length m.
Proof. unfold mat_vec. now rewrite length_map. Qed.

Lemma fit_pixel_model_frame px st g st' g' :
  in_stamp p px -> model_shape SA p st ->
  fit_pixel SA cadence_mask has_t_model errors p px st g = Ok (st', g') ->
  model_shape SA p st' /\
  (forall px', px' <> px -> model_view st' px' = model_view st px') /\
  (model_fresh SA px (model_view st px) -> model_outcome SA cadence_mask p px (model_view st' px)).
Proof.
  destruct px as [idx jdx]. intros [Hi Hj] Hs Hf. simpl in Hi, Hj.
  apply fit_pixel_Ok in Hf. cbv zeta in Hf.
  unfold model_outcome, model_fresh, model_view, model_shape in *. cbn [fst snd].
  destruct Hf as [(Hfin & -> & ->)|(Hfin & w & sigma_w & Hw & _ & -> & _)]; rewrite Hfin.
  - split; [assumption|]. split; [reflexivity|]. auto.
  - split; [apply shape3_set_pixel_series; [assumption | apply length_mat_vec]|].
    split.
    + intros [idx' jdx'] Hne. cbn [fst snd].
      eapply pixel_series_set_ne; [exact Hs | apply length_mat_vec | congruence].
    + intros _. exists w. split; [assumption|].
      eapply pixel_series_set_eq; [exact Hs | apply length_mat_vec | assumption..].
Qed.

Lemma fit_pixels_model g st g' idx jdx :
  fit_pixels SA cadence_mask has_t_model errors p g = Ok (st, g') ->
  (idx < nrows p)%nat -> (jdx < ncols p)%nat ->
  model_outcome SA cadence_mask p (idx, jdx) (model_view st (idx, jdx)).
Proof.
  unfold fit_pixels. intros Hf Hi Hj.
  destruct (foldM_frame _ model_view (model_shape SA p) (in_stamp p) (model_fresh SA)
              (model_outcome SA cadence_mask p) fit_pixel_model_frame
              (pixels (nrows p) (ncols p)) (initial_arrays p) g st g')
    as (_ & _ & Hv).
  - apply NoDup_pixels.
  - intros [i j] Hk. apply elem_of_pixels in Hk. exact Hk.
  - unfold model_shape, initial_arrays. cbn. rewrite SA_rows. apply shape3_zeros3.
  - exact Hf.
  - apply Hv.
    + now apply elem_of_pixels.
    + unfold model_fresh, model_view, initial_arrays. cbn.
      rewrite SA_rows. now apply pixel_series_zeros3.
Qed.

End PixelLoop.

Lemma build_model_Ok `{Collaborators} p lc cbvs t_model errors cadence_mask
    background spline g out g' :
  build_model p lc cbvs t_model errors cadence_mask background spline g = Ok (out, g') ->
  exists SA st,
    build_X p (lc_flux lc) t_model background cbvs spline (of_Z 2) = Ok SA /\
    fit_pixels SA (default (all_cadences p) cadence_mask)
               (bool_decide (is_Some t_model)) errors p g = Ok (st, g') /\
    out = pack (bool_decide (is_Some t_model)) errors st.
Proof.
  unfold build_model.
  destruct (build_X _ _ _ _ _ _ _) as [SA|e] eqn:HX; rewrite ?bind_Ok, ?bind_Raise;
    [|discriminate].
  destruct (fit_pixels _ _ _ _ _ _) as [[st g1]|e] eqn:Hfit;
    rewrite ?bind_Ok, ?bind_Raise; [|discriminate].
  intros Hr. inversion Hr; subst. exists SA, st. repeat split; assumption.
Qed.

(** ** build_model: masked fit, full model (C5) *)

Lemma select_zip_with {A B C} (h : A -> B -> C) (mask : list bool)
    (a : list A) (b : list B) :
  Np.select mask (zip_with h a b) = zip_with h (Np.select mask a) (Np.select mask b).
Proof.
  revert a b. induction mask as [|m mask IH]; intros a b.
  - destruct a, b; reflexivity.
  - destruct a as [|x a]; [reflexivity|].
    destruct b as [|y b].
    + simpl. destruct m; simpl; [reflexivity|]. now destruct (Np.select mask a).
    + simpl. destruct m; simpl; now rewrite IH.
Qed.

Lemma normal_equations_selected (SA : matrix) (cadence_mask : list bool) (f fe : vec) :
  normal_equations SA cadence_mask f fe =
  normal_equations_of (ncols_of SA) (Np.select cadence_mask SA)
                      (Np.select cadence_mask f) (Np.select cadence_mask fe).
Proof.
  unfold normal_equations, normal_equations_of. now rewrite select_zip_with.
Qed.

Lemma select_all {A} (l : list A) : Np.select (replicate (length l) true) l = l.
Proof. induction l as [|x l IH]; simpl; [reflexivity | now rewrite IH]. Qed.


Lemma out_model_pack has_t_model errors st :
  out_model (pack has_t_model errors st) = model st.
Proof. now destruct has_t_model, errors. Qed.












(** ** build_X and build_model: the transit column (C6) *)

Lemma build_X_Ok `{Collaborators} p fl t_model background cbvs spline spline_period SA :
  build_X p fl t_model background cbvs spline spline_period = Ok SA ->
  exists A, regressors p background cbvs spline spline_period = Ok A /\
            SA = append_offset (weight_rows fl A) t_model.
Proof.
  unfold build_X.
  destruct (regressors _ _ _ _ _) as [A|e]; rewrite ?bind_Ok, ?bind_Raise; [|discriminate].
  intros Hr. inversion Hr; subst. exists A. auto.
Qed.

Lemma weight_rows_lookup (fl : vec) (A : matrix) i row :
  weight_rows fl A !! i = Some row ->
  exists x a, fl !! i = Some x /\ A !! i = Some a /\ row = map (mul x) a.
Proof.
  unfold weight_rows. intros Hi. apply lookup_zip_with_Some in Hi.
  destruct Hi as (x & a & -> & Hx & Ha). exists x, a. auto.
Qed.

Lemma out_transit_pack errors st :
  out_transit (pack true errors st) = Some (transit_pixels st, transit_pixels_err st).
Proof. now destruct errors. Qed.

Lemma last_Ok {A} (l : list A) x : last_ l = Ok x -> last l = Some x.
Proof. unfold last_. destruct (last l); intros Hl; inversion Hl; reflexivity. Qed.

Lemma mapM_last_Ok {A} (xs : list (list A)) ys :
  mapM last_ xs = Ok ys -> map last xs = map Some ys.
Proof.
  revert ys. induction xs as [|x xs IH]; simpl; intros ys Hm.
  - now inversion Hm.
  - destruct (last_ x) as [y|e] eqn:Hy; rewrite ?bind_Ok, ?bind_Raise in Hm; [|discriminate].
    destruct (mapM last_ xs) as [ys'|e]; rewrite ?bind_Ok, ?bind_Raise in Hm; [|discriminate].
    inversion Hm; subst. simpl. now rewrite (last_Ok _ _ Hy), (IH ys').
Qed.

Lemma length_draws `{Collaborators} n w sigma g : length (draws n w sigma g).1 = n.
Proof.
  revert g. induction n as [|n IH]; intros g; simpl; [reflexivity|].
  destruct (multivariate_normal w sigma g) as [x g1].
  specialize (IH g1). destruct (draws n w sigma g1) as [xs g2]. simpl in *. now rewrite IH.
Qed.

Lemma draws_successive `{Collaborators} n w sigma g :
  successive_draws w sigma g (draws n w sigma g).1 (draws n w sigma g).2.
Proof.
  revert g. induction n as [|n IH]; intros g; simpl; [constructor|].
  destruct (multivariate_normal w sigma g) as [x g1] eqn:Hx.
  specialize (IH g1). destruct (draws n w sigma g1) as [xs g2]. simpl in *.
  econstructor; eassumption.
Qed.

Lemma std_population_deviation (l : vec) : std l = population_deviation l.
Proof.
  unfold std, population_deviation, deviation, Np.mean. now rewrite length_map.
Qed.

(** C6, as amended.  With a transit template, every row of the design
    matrix is the flux-weighted regressors followed by 1.0 and the
    template's entry, so the template is the last column.  For each
    fitted pixel [build_model] stores the last component of the solved
    weights as the transit depth; its error is taken from 50 successive
    draws of [np.random.multivariate_normal(w, sigma_w)], the first from
    the generator as the loop over the pixels before left it: it is the
    standard deviation of their last components with the divisor 50 (the
    square root of the mean squared deviation from their mean). *)
Theorem transit_template_last_column `{Collaborators} (p : tpf) (fl : vec)
    (tm : vec) (lc : lightcurve) (cbvs : option matrix) (errors : bool)
    (cadence_mask : option (list bool)) (background spline : bool)
    (spline_period : float) (g g' : rng) (out : model_out) :
  (forall SA,
     build_X p fl (Some tm) background cbvs spline spline_period = Ok SA ->
     exists A,
       regressors p background cbvs spline spline_period = Ok A /\
       forall i row, SA !! i = Some row ->
         exists x a y, fl !! i = Some x /\ A !! i = Some a /\ tm !! i = Some y /\
                       row = map (mul x) a ++ [one; y] /\ last row = Some y) /\
  (build_model p lc cbvs (Some tm) errors cadence_mask background spline g = Ok (out, g') ->
   exists SA tp tpe,
     build_X p (lc_flux lc) (Some tm) background cbvs spline (of_Z 2) = Ok SA /\
     out_transit out = Some (tp, tpe) /\
     forall idx jdx, (idx < nrows p)%nat -> (jdx < ncols p)%nat ->
       let f := pixel_series (flux p) idx jdx in
       let fe := pixel_series (flux_err p) idx jdx in
       let mask := default (all_cadences p) cadence_mask in
       let ne := normal_equations SA mask f fe in
       existsb isfinite f = true ->
       exists w sigma_w depth before after st1 g1 xs g2 lasts,
         solve ne.1 ne.2 = Ok w /\ inv ne.1 = Ok sigma_w /\
         last w = Some depth /\
         get2 tp idx jdx = Some depth /\
         pixels (nrows p) (ncols p) = before ++ (idx, jdx) :: after /\
         foldM (fit_pixel SA mask true errors p) before (initial_arrays p) g
           = Ok (st1, g1) /\
         successive_draws w sigma_w g1 xs g2 /\
         length xs = 50%nat /\
         map last xs = map Some lasts /\
         get2 tpe idx jdx = Some (population_deviation lasts)).
Proof.
  split.
  - intros SA HX. apply build_X_Ok in HX. destruct HX as (A & HA & ->).
    exists A. split; [exact HA|]. intros i row Hi. simpl in Hi.
    apply lookup_zip_with_Some in Hi. destruct Hi as (r0 & y & -> & Hr0 & Hy).
    apply weight_rows_lookup in Hr0. destruct Hr0 as (x & a & Hx & Ha & ->).
    exists x, a, y. repeat split; try assumption.
    rewrite last_app. reflexivity.
  - intros Hb. apply build_model_Ok in Hb. destruct Hb as (SA & st & HX & Hfit & ->).
    exists SA, (transit_pixels st), (transit_pixels_err st).
    split; [exact HX|]. split; [apply out_transit_pack|].
    intros idx jdx Hi Hj f fe mask ne Hfin.
    change (bool_decide (is_Some (Some tm))) with true in Hfit.
    destruct (fit_pixels_reach SA mask true errors p g st g' idx jdx Hfit Hi Hj)
      as (before & after & st1 & g1 & st2 & g2 & Hsplit & Hbefore & [Hs1 Hs2] & Hstep & Hview).
    apply fit_pixel_Ok in Hstep. cbv zeta in Hstep. fold f fe mask ne in Hstep.
    destruct Hstep as [(Hnone & _)|(_ & w & sigma_w & Hw & Hinv & _ & Ht)];
      [congruence|].
    destruct Ht as (depth & lasts & Hd & Hl & Htp & Htpe).
    unfold transit_view in Hview. cbn [fst snd] in Hview.
    rewrite Htp, Htpe in Hview.
    rewrite (get2_set_pixel_eq _ _ _ _ _ _ Hs1 Hi Hj),
            (get2_set_pixel_eq _ _ _ _ _ _ Hs2 Hi Hj) in Hview.
    pose proof (f_equal fst Hview) as Hv1. pose proof (f_equal snd Hview) as Hv2.
    cbn [fst snd] in Hv1, Hv2.
    exists w, sigma_w, depth, before, after, st1, g1,
           (draws 50 w sigma_w g1).1, (draws 50 w sigma_w g1).2, lasts.
    split; [exact Hw|]. split; [exact Hinv|]. split; [now apply last_Ok|].
    split; [exact Hv1|]. split; [exact Hsplit|]. split; [exact Hbefore|].
    split; [apply draws_successive|]. split; [apply length_draws|].
    split; [now apply mapM_last_Ok|].
    now rewrite <- std_population_deviation.
Qed.

(** ** Pixels without finite flux (C10) *)

Lemma get2_zip_with {A B C} (h : A -> B -> C) (a : list (list A)) (b : list (list B))
    idx jdx x y :
  get2 a idx jdx = Some x -> get2 b idx jdx = Some y ->
  get2 (zip_with (zip_with h) a b) idx jdx = Some (h x y).
Proof.
  unfold get2. intros Ha Hb. rewrite lookup_zip_with.
  destruct (a !! idx) as [ra|]; simpl in *; [|discriminate].
  destruct (b !! idx) as [rb|]; simpl in *; [|discriminate].
  now rewrite lookup_zip_with, Ha, Hb.
Qed.

Lemma get2_map {A B} (h : A -> B) (a : list (list A)) idx jdx :
  get2 (map (map h) a) idx jdx = h <$> get2 a idx jdx.
Proof.
  unfold get2. rewrite lookup_map.
  destruct (a !! idx) as [ra|]; simpl; [|reflexivity]. apply lookup_map.
Qed.

Lemma get2_contaminant_mask tp tpe idx jdx d e :
  get2 tp idx jdx = Some d -> get2 tpe idx jdx = Some e ->
  get2 (contaminant_mask tp tpe) idx jdx = Some (gtb (div d e) five).
Proof.
  intros Hd He. unfold contaminant_mask, significance.
  now rewrite get2_map, (get2_zip_with div tp tpe idx jdx d e Hd He).
Qed.

(** C10.  A pixel whose flux series has no finite entry keeps transit
    depth 0.0 and error 0.0; its significance is 0.0 / 0.0 = NaN, which is
    not greater than 5, and the pixel is outside the contaminant mask. *)
Theorem nonfinite_pixel_never_contaminant `{Collaborators} (p : tpf)
    (lc : lightcurve) (cbvs : option matrix) (tm : vec) (errors : bool)
    (cadence_mask : option (list bool)) (background spline : bool)
    (g g' : rng) (out : model_out) (idx jdx : nat) :
  build_model p lc cbvs (Some tm) errors cadence_mask background spline g = Ok (out, g') ->
  (idx < nrows p)%nat -> (jdx < ncols p)%nat ->
  existsb isfinite (pixel_series (flux p) idx jdx) = false ->
  exists tp tpe,
    out_transit out = Some (tp, tpe) /\
    get2 tp idx jdx = Some zero /\
    get2 tpe idx jdx = Some zero /\
    get2 (significance tp tpe) idx jdx = Some nan /\
    gtb nan five = false /\
    get2 (contaminant_mask tp tpe) idx jdx = Some false.
Proof.
  intros Hb Hi Hj Hfin.
  apply build_model_Ok in Hb. destruct Hb as (SA & st & HX & Hfit & ->).
  exists (transit_pixels st), (transit_pixels_err st).
  split; [apply out_transit_pack|].
  pose proof (fit_pixels_transit SA _ _ errors p g st g' idx jdx Hfit Hi Hj) as Ht.
  unfold transit_outcome, transit_view in Ht. cbn [fst snd] in Ht.
  rewrite Hfin in Ht.
  pose proof (f_equal fst Ht) as Hd. pose proof (f_equal snd Ht) as He.
  cbn [fst snd] in Hd, He.
  split; [exact Hd|]. split; [exact He|]. split.
  { unfold significance. now rewrite (get2_zip_with div _ _ idx jdx zero zero Hd He). }
  split; [reflexivity|].
  now rewrite (get2_contaminant_mask _ _ idx jdx zero zero Hd He).
Qed.

(** ** get_centroid_plot: one stamp *)

Lemma select_all_false {A} (mask : list bool) (l : list A) :
  existsb id mask = false -> Np.select mask l = [].
Proof.
  revert l. induction mask as [|b mask IH]; intros [|x l]; simpl; try reflexivity.
  destruct b; simpl; [discriminate|]. apply IH.
Qed.

Lemma existsb_concat (mask : list (list bool)) :
  existsb id (concat mask) = any2 mask.
Proof.
  unfold any2. induction mask as [|row mask IH]; simpl; [reflexivity|].
  now rewrite existsb_app, IH.
Qed.

Lemma select2_empty_mask {A} (mask : list (list bool)) (a : list (list A)) :
  any2 mask = false -> select2 mask a = [].
Proof. intros Hm. unfold select2. apply select_all_false. now rewrite existsb_concat. Qed.

Lemma select_map_filter {A} (h : A -> bool) (l : list A) :
  Np.select (map h l) l = List.filter h l.
Proof. induction l as [|x l IH]; simpl; [reflexivity|]. destruct (h x); now rewrite IH. Qed.

(** Line 167 keeps exactly the frames whose total flux is not zero. *)
Lemma zero_flux_frames_dropped (p : tpf) :
  flux (tpf_select (nonzero_frames p) p) =
  List.filter (fun frame => neqb (Np.nansum (concat frame)) zero) (flux p).
Proof. unfold tpf_select, nonzero_frames. simpl. apply select_map_filter. Qed.

Section Localizer.
Context `{Collaborators}.

Lemma localize_Ok tess period p aper lc t_model t_mask st g st' loc g' :
  localize tess period p aper lc t_model t_mask st g = Ok (st', loc, g') ->
  exists model2 tp tpe,
    build_model p lc None (Some t_model) false None tess true g
      = Ok (ModelTransit model2 tp tpe, g') /\
    loc = Some {| seg_tpf := p; seg_aper := aper; seg_t_model := t_model;
                  seg_t_mask := t_mask;
                  seg_transit_pixels := tp; seg_transit_pixels_err := tpe;
                  seg_contaminant_aper := contaminant_mask tp tpe |} /\
    coords_ra st' =
      coords_ra st ++ [select2 (contaminant_mask tp tpe)
                         (per_pixel Np.mean (coord_ra p) (nrows p) (ncols p))] /\
    coords_dec st' =
      coords_dec st ++ [select2 (contaminant_mask tp tpe)
                          (per_pixel Np.mean (coord_dec p) (nrows p) (ncols p))] /\
    coords_weights st' =
      coords_weights st ++ [select2 (contaminant_mask tp tpe) (significance tp tpe)] /\
    target st' = target st /\
    (any2 (contaminant_mask tp tpe) = false -> contaminator st' = contaminator st) /\
    (any2 (contaminant_mask tp tpe) = true ->
     exists c, build_lc p (contaminant_mask tp tpe) None (Some t_mask) tess true
                        (mul period (of_Z 4)) = Ok c /\
               contaminator st' = append_lc (contaminator st) c).
Proof.
  unfold localize.
  destruct (build_model _ _ _ _ _ _ _ _ _) as [[out g1]|e] eqn:Hb;
    rewrite ?bind_Ok, ?bind_Raise; [|discriminate].
  destruct out as [m|m me|model2 tp tpe|m me tp tpe]; try discriminate.
  destruct (any2 (contaminant_mask tp tpe)) eqn:Hany.
  - destruct (build_lc _ _ _ _ _ _ _) as [c|e] eqn:Hc;
      rewrite ?bind_Ok, ?bind_Raise; [|discriminate].
    destruct (target_coordinate p aper (coord_ra p)) as [ra_t|e];
      rewrite ?bind_Ok, ?bind_Raise; [|discriminate].
    destruct (target_coordinate p aper (coord_dec p)) as [dec_t|e];
      rewrite ?bind_Ok, ?bind_Raise; [|discriminate].
    intros Hr. inversion Hr; subst. exists model2, tp, tpe. cbn.
    do 6 (split; [reflexivity|]). split; [intros Hx; congruence|].
    intros _. exists c. auto.
  - rewrite bind_Ok.
    destruct (target_coordinate p aper (coord_ra p)) as [ra_t|e];
      rewrite ?bind_Ok, ?bind_Raise; [|discriminate].
    destruct (target_coordinate p aper (coord_dec p)) as [dec_t|e];
      rewrite ?bind_Ok, ?bind_Raise; [|discriminate].
    intros Hr. inversion Hr; subst. exists model2, tp, tpe. cbn.
    do 6 (split; [reflexivity|]). split; [reflexivity | intros Hx; congruence].
Qed.

Lemma segment_step_processed tess period t0 duration p0 st g st' loc g' :
  segment_step tess period t0 duration p0 st g = Ok (st', Some loc, g') ->
  exists st1, localize tess period (seg_tpf loc) (seg_aper loc)
                (to_lightcurve (seg_tpf loc) (seg_aper loc))
                (seg_t_model loc) (seg_t_mask loc) st1 g = Ok (st', Some loc, g').
Proof.
  unfold segment_step. cbv zeta.
  destruct (to_periodogram _ _) as [bls|e]; rewrite ?bind_Ok, ?bind_Raise; [|discriminate].
  destruct (eqb _ zero); [discriminate|].
  destruct (build_lc _ _ _ _ _ _ _) as [corrected|e];
    rewrite ?bind_Ok, ?bind_Raise; [|discriminate].
  intros Hl. pose proof Hl as Hl'. apply localize_Ok in Hl'.
  destruct Hl' as (model2 & tp & tpe & _ & Hloc & _).
  inversion Hloc; subst loc. cbn [seg_tpf seg_aper seg_t_model seg_t_mask].
  eexists. exact Hl.
Qed.

(** A stamp whose template sums to zero leaves every accumulator as it
    was; only the loop variable [lc] is new. *)
Lemma skipped_segment_keeps_accumulators tess period t0 duration p0 st g :
  degenerate_template period t0 duration p0 ->
  exists lc, segment_step tess period t0 duration p0 st g = Ok (with_last_lc lc st, None, g).
Proof.
  unfold degenerate_template, segment_step. cbv zeta. intros (bls & Hb & Hz).
  eexists. rewrite Hb, bind_Ok, Hz. reflexivity.
Qed.

Lemma loop_step_eq tess period t0 duration p0 st g :
  loop_step tess period t0 duration p0 st g =
  ('(st', _, g') ← segment_step tess period t0 duration p0 st g; Ok (st', g')).
Proof. reflexivity. Qed.

Lemma skipped_segments_keep_accumulators tess period t0 duration tpfs st g :
  Forall (degenerate_template period t0 duration) tpfs ->
  exists st', foldM (loop_step tess period t0 duration) tpfs st g = Ok (st', g) /\
              coords_ra st' = coords_ra st.
Proof.
  intros Hall. revert st. induction Hall as [|p0 tpfs Hp _ IH]; intros st.
  - exists st. auto.
  - destruct (skipped_segment_keeps_accumulators tess period t0 duration p0 st g Hp)
      as (lc & Hstep).
    destruct (IH (with_last_lc lc st)) as (st' & Hf & Hc).
    exists st'. split; [|now rewrite Hc].
    change (foldM (loop_step tess period t0 duration) (p0 :: tpfs) st g)
      with ('(s1, g1) ← loop_step tess period t0 duration p0 st g;
            foldM (loop_step tess period t0 duration) tpfs s1 g1).
    rewrite loop_step_eq, Hstep, !bind_Ok. exact Hf.
Qed.

(** When the template of every stamp sums to zero the call raises. *)
Lemma all_segments_skipped_raises sr cutouts period t0 duration tess gaia g tpfs :
  acquire tess sr cutouts = Ok tpfs ->
  Forall (degenerate_template period t0 duration) tpfs ->
  get_centroid_plot sr cutouts period t0 duration tess gaia g = Raise ValueError.
Proof.
  intros Ha Hall. unfold get_centroid_plot. rewrite Ha, bind_Ok.
  destruct (skipped_segments_keep_accumulators tess period t0 duration tpfs
              initial_accum g Hall) as (st' & -> & Hc).
  rewrite bind_Ok. unfold finalize, contaminant_position.
  rewrite Hc. reflexivity.
Qed.

(** After at least one processed stamp, none with a contaminant pixel, the
    position is (NaN, NaN). *)
Lemma position_without_contaminant_pixels st :
  coords_ra st <> [] -> Forall (fun v => v = []) (coords_ra st) ->
  contaminant_position st = Ok (nan, nan).
Proof.
  intros Hne Hall. unfold contaminant_position, hstack1.
  destruct (coords_ra st) as [|v l] eqn:Hc; [contradiction|].
  rewrite bind_Ok.
  assert (Hcat : concat (v :: l) = []).
  { clear Hne Hc. induction Hall as [|x xs Hx _ IH]; [reflexivity|].
    subst x. exact IH. }
  rewrite Hcat. reflexivity.
Qed.

Lemma localize_without_contaminant tess period p aper lc t_model t_mask st g st' loc g' :
  localize tess period p aper lc t_model t_mask st g = Ok (st', Some loc, g') ->
  any2 (seg_contaminant_aper loc) = false ->
  contaminator st' = contaminator st /\
  coords_ra st' = coords_ra st ++ [[]] /\
  coords_weights st' = coords_weights st ++ [[]].
Proof.
  intros Hl Hany. apply localize_Ok in Hl.
  destruct Hl as (model2 & tp & tpe & _ & Hloc & Hra & _ & Hw & _ & Hcont & _).
  inversion Hloc; subst loc. cbn [seg_contaminant_aper] in Hany.
  rewrite Hra, Hw, !(select2_empty_mask _ _ Hany). auto.
Qed.

(** C7.  When an iteration runs to its end, its contaminant aperture is
    the significance map [transit_pixels / transit_pixels_err] of
    [build_model] thresholded at 5: true at a pixel exactly when the ratio
    is greater than 5.  The value at the end of the iteration is that mask,
    and the coordinates and weights accumulated were selected with it. *)
Theorem contaminant_aper_thresholds_significance (tess : bool)
    (period t0 duration : float) (p0 : tpf) (st st' : accum) (g g' : rng)
    (loc : segment_locals) :
  segment_step tess period t0 duration p0 st g = Ok (st', Some loc, g') ->
  let tp := seg_transit_pixels loc in
  let tpe := seg_transit_pixels_err loc in
  (exists model2,
     build_model (seg_tpf loc) (to_lightcurve (seg_tpf loc) (seg_aper loc)) None
                 (Some (seg_t_model loc)) false None tess true g
       = Ok (ModelTransit model2 tp tpe, g')) /\
  seg_contaminant_aper loc = contaminant_mask tp tpe /\
  (forall idx jdx d e,
     get2 tp idx jdx = Some d -> get2 tpe idx jdx = Some e ->
     get2 (seg_contaminant_aper loc) idx jdx = Some (gtb (div d e) five) /\
     (get2 (seg_contaminant_aper loc) idx jdx = Some true <-> gtb (div d e) five = true)) /\
  last (coords_weights st') =
    Some (select2 (seg_contaminant_aper loc) (significance tp tpe)) /\
  last (coords_ra st') =
    Some (select2 (seg_contaminant_aper loc)
            (per_pixel Np.mean (coord_ra (seg_tpf loc)) (nrows (seg_tpf loc))
                       (ncols (seg_tpf loc)))).
Proof.
  intros Hs. apply segment_step_processed in Hs. destruct Hs as (st1 & Hl).
  apply localize_Ok in Hl.
  destruct Hl as (model2 & tp & tpe & Hb & Hloc & Hra & _ & Hw & _).
  injection Hloc as Hloc'.
  assert (E1 : seg_transit_pixels loc = tp) by now rewrite Hloc'.
  assert (E2 : seg_transit_pixels_err loc = tpe) by now rewrite Hloc'.
  assert (E3 : seg_contaminant_aper loc = contaminant_mask tp tpe) by now rewrite Hloc'.
  cbv zeta. rewrite E1, E2, E3.
  split; [exists model2; exact Hb|]. split; [reflexivity|]. split.
  - intros idx jdx d e Hd He.
    rewrite (get2_contaminant_mask tp tpe idx jdx d e Hd He).
    split; [reflexivity|]. split; intros Hx; [now inversion Hx | now rewrite Hx].
  - rewrite Hw, Hra, !last_snoc. auto.
Qed.

End Localizer.

(** ** Degenerate stamps (C8, C9) *)

Lemma demo_template_degenerate :
  @degenerate_template (StandIn.collaborators flat_levels)
     demo_period demo_t0 demo_duration demo_stamp.
Proof.
  exists (StandIn.aperture_sum (tpf_select (nonzero_frames demo_stamp) demo_stamp)
            (pipeline_mask demo_stamp)).
  split; vm_compute; reflexivity.
Qed.

(** C8 (code defect).  For a stamp whose transit template is identically
    zero the iteration is skipped silently, as the claim says, but with no
    other stamp the accumulators stay empty and the call ends in
    [ValueError] at [np.hstack(coords_ra)]. *)
Theorem degenerate_stamp_aborts_the_run :
  @degenerate_template (StandIn.collaborators flat_levels)
     demo_period demo_t0 demo_duration demo_stamp /\
  (exists lc,
     @segment_step (StandIn.collaborators flat_levels) false
        demo_period demo_t0 demo_duration demo_stamp initial_accum 0%nat
     = Ok (with_last_lc lc initial_accum, None, 0%nat)) /\
  @get_centroid_plot (StandIn.collaborators flat_levels) [demo_stamp]
     (Raise CollaboratorError) demo_period demo_t0 demo_duration false false 0%nat
  = Raise ValueError.
Proof.
  split; [exact demo_template_degenerate|]. split.
  - exact (skipped_segment_keeps_accumulators (H := StandIn.collaborators flat_levels)
             false _ _ _ _ initial_accum 0%nat demo_template_degenerate).
  - vm_compute. reflexivity.
Qed.

(** C9 (code defect).  When no stamp reaches line 204 no contaminant
    pixel has been found, and the position is not (NaN, NaN): line 219
    raises [ValueError] on the empty list. *)
Theorem no_processed_stamp_position_raises :
  coords_ra initial_accum = [] /\
  contaminator initial_accum = None /\
  contaminant_position initial_accum = Raise ValueError /\
  @get_centroid_plot (StandIn.collaborators flat_levels) [demo_stamp; demo_stamp]
     (Raise CollaboratorError) demo_period demo_t0 demo_duration false false 0%nat
  = Raise ValueError.
Proof. repeat split; vm_compute; reflexivity. Qed.

(** ** The theorems at the demonstration stamp *)

Lemma build_lc_drops_offset_column_witness :
  exists out A,
    @build_lc (StandIn.collaborators box_levels) demo_stamp (pipeline_mask demo_stamp)
       None None false true (of_Z 4) = Ok out /\
    @lc_design (StandIn.collaborators box_levels) demo_stamp None false true (of_Z 4)
      = Ok (weight_rows (replicate (length (time demo_stamp)) one) A) /\
    rows_start_with one (weight_rows (replicate (length (time demo_stamp)) one) A).
Proof.
  destruct (@build_lc (StandIn.collaborators box_levels) demo_stamp
              (pipeline_mask demo_stamp) None None false true (of_Z 4))
    as [out|e] eqn:Hb.
  2:{ vm_compute in Hb. discriminate Hb. }
  destruct (build_lc_drops_offset_column (H := StandIn.collaborators box_levels)
              _ _ _ _ _ _ _ out Hb)
    as (A & w & _ & _ & Hd & _ & _ & Hones).
  exists out, A. split; [reflexivity|]. split; [exact Hd|].
  apply Hones; vm_compute; reflexivity.
Defined.


Lemma transit_template_last_column_witness :
  exists out g' tp tpe depth lasts,
    @build_model (StandIn.collaborators box_levels) demo_stamp demo_lc None
       (Some demo_template) false None false true 0%nat = Ok (out, g') /\
    out_transit out = Some (tp, tpe) /\
    get2 tp 0 1 = Some depth /\
    length lasts = 50%nat /\
    get2 tpe 0 1 = Some (population_deviation lasts) /\
    gtb (population_deviation lasts) zero = true.
Proof.
  destruct (@build_model (StandIn.collaborators box_levels) demo_stamp demo_lc None
              (Some demo_template) false None false true 0%nat)
    as [[out g']|e] eqn:Hb.
  2:{ vm_compute in Hb. discriminate Hb. }
  destruct (transit_template_last_column (H := StandIn.collaborators box_levels)
              demo_stamp (lc_flux demo_lc) demo_template demo_lc None false None
              false true (of_Z 2) 0%nat g' out)
    as [_ Hm].
  destruct (Hm Hb) as (SA & tp & tpe & _ & Ht & Hpix).
  destruct (Hpix 0%nat 1%nat ltac:(simpl; lia) ltac:(simpl; lia)
                 ltac:(vm_compute; reflexivity))
    as (w & sigma_w & depth & before & after & st1 & g1 & xs & g2 & lasts
        & _ & _ & _ & Hd & _ & _ & _ & Hn & Hl & He).
  assert (Hlen : length lasts = 50%nat).
  { apply (f_equal length) in Hl. rewrite !length_map in Hl. congruence. }
  assert (Hc : get2 tpe 0 1 = Some (S754_finite false 8403753790427521 (-53))).
  { pose proof Hb as Hb'. vm_compute in Hb'. injection Hb' as <- _.
    injection Ht as _ <-. reflexivity. }
  exists out, g', tp, tpe, depth, lasts. split; [reflexivity|]. split; [exact Ht|].
  split; [exact Hd|]. split; [exact Hlen|]. split; [exact He|].
  rewrite Hc in He. injection He as <-. reflexivity.
Defined.

(** C6, counterexample.  At the first pixel of the demonstration stamp
    the error stored is the deviation of the 50 drawn last components
    with the divisor 50; their sample standard deviation, with the
    divisor 49, is larger. *)
Lemma error_is_not_the_sample_deviation :
  exists out g' SA tp tpe w sigma_w xs g2 lasts e,
    @build_model (StandIn.collaborators box_levels) demo_stamp demo_lc None
       (Some demo_template) false None false true 0%nat = Ok (out, g') /\
    @build_X (StandIn.collaborators box_levels) demo_stamp (lc_flux demo_lc)
       (Some demo_template) false None true (of_Z 2) = Ok SA /\
    out_transit out = Some (tp, tpe) /\
    StandIn.gauss_solve
      (normal_equations SA (all_cadences demo_stamp)
         (pixel_series (flux demo_stamp) 0 0) (pixel_series (flux_err demo_stamp) 0 0)).1
      (normal_equations SA (all_cadences demo_stamp)
         (pixel_series (flux demo_stamp) 0 0) (pixel_series (flux_err demo_stamp) 0 0)).2
      = Ok w /\
    StandIn.gauss_inv
      (normal_equations SA (all_cadences demo_stamp)
         (pixel_series (flux demo_stamp) 0 0) (pixel_series (flux_err demo_stamp) 0 0)).1
      = Ok sigma_w /\
    @draws (StandIn.collaborators box_levels) 50 w sigma_w 0%nat = (xs, g2) /\
    map last xs = map Some lasts /\
    get2 tpe 0 0 = Some e /\
    e = population_deviation lasts /\
    ltb e (sample_deviation lasts) = true.
Proof.
  let r := eval vm_compute in
    (@build_model (StandIn.collaborators box_levels) demo_stamp demo_lc None
       (Some demo_template) false None false true 0%nat) in
  lazymatch r with
  | Ok (?out, ?g1) =>
  lazymatch out with
  | ModelTransit _ ?tp ?tpe =>
  let sa := eval vm_compute in
    (@build_X (StandIn.collaborators box_levels) demo_stamp (lc_flux demo_lc)
       (Some demo_template) false None true (of_Z 2)) in
  lazymatch sa with
  | Ok ?SA =>
  let ne := eval vm_compute in
    (normal_equations SA (all_cadences demo_stamp)
       (pixel_series (flux demo_stamp) 0 0) (pixel_series (flux_err demo_stamp) 0 0)) in
  lazymatch ne with
  | (?a, ?b) =>
  let ws := eval vm_compute in (StandIn.gauss_solve a b) in
  let ss := eval vm_compute in (StandIn.gauss_inv a) in
  lazymatch ws with
  | Ok ?w =>
  lazymatch ss with
  | Ok ?sigma =>
  let d := eval vm_compute in
    (@draws (StandIn.collaborators box_levels) 50 w sigma 0%nat) in
  lazymatch d with
  | (?xs, ?g2) =>
  let l := eval vm_compute in (mapM last_ xs) in
  lazymatch l with
  | Ok ?lasts =>
  let e := eval vm_compute in (get2 tpe 0%nat 0%nat) in
  lazymatch e with
  | Some ?e => exists out, g1, SA, tp, tpe, w, sigma, xs, g2, lasts, e
  end end end end end end end end end.
  repeat split; vm_compute; reflexivity.
Qed.

Lemma contaminant_aper_thresholds_significance_witness :
  exists st' loc g',
    @segment_step (StandIn.collaborators box_levels) false demo_period demo_t0
       demo_duration demo_stamp initial_accum 0%nat = Ok (st', Some loc, g') /\
    seg_contaminant_aper loc =
      contaminant_mask (seg_transit_pixels loc) (seg_transit_pixels_err loc).
Proof.
  destruct (@segment_step (StandIn.collaborators box_levels) false demo_period demo_t0
              demo_duration demo_stamp initial_accum 0%nat)
    as [[[st' [loc|]] g']|e] eqn:Hs.
  2:{ vm_compute in Hs. discriminate Hs. }
  2:{ vm_compute in Hs. discriminate Hs. }
  destruct (contaminant_aper_thresholds_significance
              (H := StandIn.collaborators box_levels) _ _ _ _ _ _ _ _ _ loc Hs)
    as (_ & Hm & _).
  exists st', loc, g'. split; [reflexivity | exact Hm].
Defined.

Lemma nonfinite_pixel_never_contaminant_witness :
  exists out g' tp tpe,
    @build_model (StandIn.collaborators box_levels) demo_stamp demo_lc None
       (Some demo_template) false None false true 0%nat = Ok (out, g') /\
    out_transit out = Some (tp, tpe) /\
    get2 (contaminant_mask tp tpe) 0 2 = Some false.
Proof.
  destruct (@build_model (StandIn.collaborators box_levels) demo_stamp demo_lc None
              (Some demo_template) false None false true 0%nat)
    as [[out g']|e] eqn:Hb.
  2:{ vm_compute in Hb. discriminate Hb. }
  destruct (nonfinite_pixel_never_contaminant (H := StandIn.collaborators box_levels)
              _ _ _ _ _ _ _ _ _ g' out 0%nat 2%nat Hb
              ltac:(simpl; lia) ltac:(simpl; lia) ltac:(vm_compute; reflexivity))
    as (tp & tpe & Ht & _ & _ & _ & _ & Hm).
  exists out, g', tp, tpe. split; [reflexivity|]. split; assumption.
Defined.

(** ** search *)

Lemma number_in_format_KIC (targetid : String.string) :
  Search.number_in (Search.format_KIC targetid) = Search.number_in targetid.
Proof. reflexivity. Qed.

Lemma number_in_has_number (s : String.string) :
  if Search.has_number s then exists n, Search.number_in s = Ok n
  else Search.number_in s = Raise ValueError.
Proof.
  unfold Search.has_number, Search.number_in, Search.int_of_numeric.
  destruct (Search.numeric_part s) as [|c cs]; [reflexivity|].
  destruct (forallb Search.isdecimal (c :: cs)); [eexists|]; reflexivity.
Qed.

Lemma has_number_true (s : String.string) :
  Search.has_number s = true <-> exists n, Search.number_in s = Ok n.
Proof.
  pose proof (number_in_has_number s) as Hn.
  destruct (Search.has_number s); split; intros Hs; try assumption; try reflexivity.
  - discriminate.
  - destruct Hs as [n Hs]. congruence.
Qed.

Lemma has_number_false (s : String.string) :
  Search.has_number s = false <-> Search.number_in s = Raise ValueError.
Proof.
  pose proof (number_in_has_number s) as Hn.
  destruct (Search.has_number s); split; intros Hs; try assumption; try reflexivity.
  - discriminate.
  - destruct Hn as [n Hn]. congruence.
Qed.

Lemma select_matching_numbers {A} (f : A -> result Z) (n : Z) (l : list A) ns :
  mapM f l = Ok ns ->
  Np.select (map (fun m => m =? n) ns) l =
  List.filter (fun x => match f x with Ok m => m =? n | Raise _ => false end) l.
Proof.
  revert ns. induction l as [|x l IH]; intros ns Hm; simpl in Hm.
  - inversion Hm. reflexivity.
  - destruct (f x) as [m|e] eqn:Hx; rewrite ?bind_Ok, ?bind_Raise in Hm; [|discriminate].
    destruct (mapM f l) as [ns'|e]; rewrite ?bind_Ok, ?bind_Raise in Hm; [|discriminate].
    inversion Hm; subst. simpl. rewrite Hx, (IH ns' eq_refl). reflexivity.
Qed.

Lemma mapM_number_in {A} (name : A -> String.string) (l : list A) :
  (Forall (fun x => Search.has_number (name x) = true) l ->
   exists ns, mapM (fun x => Search.number_in (name x)) l = Ok ns) /\
  (Exists (fun x => Search.has_number (name x) = false) l ->
   mapM (fun x => Search.number_in (name x)) l = Raise ValueError).
Proof.
  induction l as [|x l [IHok IHerr]]; split.
  - intros _. exists []. reflexivity.
  - intros He. inversion He.
  - intros Hall. inversion Hall as [|? ? Hx Hl]; subst.
    apply has_number_true in Hx. destruct Hx as [n Hx].
    destruct (IHok Hl) as [ns Hns]. exists (n :: ns).
    simpl. now rewrite Hx, bind_Ok, Hns.
  - intros He. simpl.
    pose proof (number_in_has_number (name x)) as Hx.
    destruct (Search.has_number (name x)) eqn:Hh.
    + destruct Hx as [n Hx]. rewrite Hx, bind_Ok.
      inversion He as [? ? Hbad|? ? Hrest]; subst; [congruence|].
      now rewrite (IHerr Hrest).
    + now rewrite Hx.
Qed.

(** X1.  A target-pixel-file search that returns keeps, in their order,
    exactly the rows whose name holds the same number as the target id;
    the characters that are not numeric, and the prefix "KIC ", play no
    part. *)
Theorem search_keeps_rows_with_target_number {A : Type}
    (lk_tpf : String.string -> String.string -> result (list (Search.row A)))
    (lk_cut : String.string -> result (list (Search.row A)))
    (targetid mission : String.string) (out : list (Search.row A)) :
  Search.search lk_tpf lk_cut targetid mission Search.SearchTargetPixelFile = Ok out ->
  exists sr n,
    lk_tpf targetid mission = Ok sr /\
    Search.number_in targetid = Ok n /\
    out = List.filter
            (fun r => match Search.number_in (Search.target_name r) with
                      | Ok m => m =? n
                      | Raise _ => false
                      end) sr /\
    forall r, r ∈ out <-> r ∈ sr /\ Search.number_in (Search.target_name r) = Ok n.
Proof.
  unfold Search.search. rewrite number_in_format_KIC.
  destruct (lk_tpf targetid mission) as [sr|e]; rewrite ?bind_Ok, ?bind_Raise; [|discriminate].
  destruct (Search.number_in targetid) as [n|e]; rewrite ?bind_Ok, ?bind_Raise; [|discriminate].
  destruct (mapM _ sr) as [ns|e] eqn:Hm; rewrite ?bind_Ok, ?bind_Raise; [|discriminate].
  intros Hout. inversion Hout as [Hsel]. clear Hout.
  rewrite (select_matching_numbers _ n sr ns Hm).
  exists sr, n. split; [reflexivity|]. split; [reflexivity|]. split; [reflexivity|].
  intros r. rewrite list_elem_of_In, filter_In, <- list_elem_of_In.
  split; intros [Hr Hn]; (split; [exact Hr|]).
  - destruct (Search.number_in (Search.target_name r)) as [m|e]; [|discriminate].
    apply Z.eqb_eq in Hn. now subst.
  - rewrite Hn. apply Z.eqb_refl.
Qed.

Lemma search_keeps_rows_with_target_number_witness :
  exists out,
    Search.search Search.catalogue_search Search.no_cutouts Search.tabby Search.kepler
                  Search.SearchTargetPixelFile = Ok out /\
    map Search.product out = [1%nat; 3%nat].
Proof.
  destruct (Search.search Search.catalogue_search Search.no_cutouts Search.tabby
              Search.kepler Search.SearchTargetPixelFile) as [out|e] eqn:Hs.
  2:{ vm_compute in Hs. discriminate Hs. }
  destruct (search_keeps_rows_with_target_number _ _ _ _ out Hs)
    as (sr & n & Hsr & Hn & Hout & _).
  exists out. split; [reflexivity|].
  vm_compute in Hsr, Hn. injection Hsr as <-. injection Hn as <-.
  rewrite Hout. vm_compute. reflexivity.
Defined.

(** X2.  When the lightkurve search returns, [search] returns if the
    target id and every returned name hold a decimal number, and raises
    [ValueError] if one of them does not (no numeric character, or a
    superscript or fraction among them); a search function other than the
    two known ones raises [ValueError]. *)
Theorem search_raises_without_number {A : Type}
    (lk_tpf : String.string -> String.string -> result (list (Search.row A)))
    (lk_cut : String.string -> result (list (Search.row A)))
    (targetid mission : String.string) (sr : list (Search.row A)) :
  lk_tpf targetid mission = Ok sr ->
  (Search.has_number targetid = true ->
   Forall (fun r => Search.has_number (Search.target_name r) = true) sr ->
   exists out,
     Search.search lk_tpf lk_cut targetid mission Search.SearchTargetPixelFile = Ok out) /\
  (Search.has_number targetid = false \/
   Exists (fun r => Search.has_number (Search.target_name r) = false) sr ->
   Search.search lk_tpf lk_cut targetid mission Search.SearchTargetPixelFile
     = Raise ValueError) /\
  Search.search lk_tpf lk_cut targetid mission Search.OtherFunction = Raise ValueError.
Proof.
  intros Hsr. unfold Search.search. rewrite number_in_format_KIC, Hsr, !bind_Ok.
  destruct (mapM_number_in Search.target_name sr) as [Hok Herr].
  split; [|split; [|reflexivity]].
  - intros Ht Hall. apply has_number_true in Ht. destruct Ht as [n Ht].
    destruct (Hok Hall) as [ns Hns]. rewrite Ht, bind_Ok, Hns, bind_Ok. eexists. reflexivity.
  - intros [Ht|Hex].
    + apply has_number_false in Ht. now rewrite Ht.
    + pose proof (number_in_has_number targetid) as Ht.
      destruct (Search.has_number targetid).
      * destruct Ht as [n Ht]. now rewrite Ht, bind_Ok, (Herr Hex).
      * now rewrite Ht.
Qed.

Lemma search_raises_without_number_witness :
  Search.search Search.catalogue_search Search.no_cutouts Search.kepler Search.kepler
                Search.SearchTargetPixelFile = Raise ValueError.
Proof.
  refine (proj1 (proj2 (search_raises_without_number Search.catalogue_search
                          Search.no_cutouts Search.kepler Search.kepler
                          Search.catalogue eq_refl)) _).
  left. vm_compute. reflexivity.
Defined.

(** ** build_X: what the segmentation keeps *)

Lemma length_diff (t : vec) : length (Np.diff t) = (length t - 1)%nat.
Proof.
  induction t as [|x [|y t] IH]; simpl in *; try reflexivity.
  rewrite IH. lia.
Qed.

Lemma where_from_lt i0 mask i :
  i ∈ Np.where_from i0 mask -> (i < i0 + length mask)%nat.
Proof.
  intros Hi. apply elem_of_where_from in Hi. destruct Hi as [Hle Hl].
  apply lookup_lt_Some in Hl. lia.
Qed.

Lemma breaks_division_points mask : forall i0 lo n,
  (lo = 0 \/ lo + 1 < i0)%nat -> (i0 + length mask <= n + 1)%nat ->
  division_points lo n
    (map (fun i => (i - 1)%nat)
         (filter (fun i : nat => (2 <= i)%nat) (Np.where_from i0 mask))).
Proof.
  induction mask as [|b mask IH]; intros i0 lo n Hlo Hn; simpl; [exact I|].
  simpl in Hn. destruct b.
  - rewrite filter_cons. destruct (decide (2 <= i0)%nat) as [H2|H2].
    + simpl. split; [lia|]. split; [lia|]. apply IH; lia.
    + apply IH; lia.
  - apply IH; lia.
Qed.

Lemma breaks_as_nat t :
  map Z.to_nat (find_breaks t) = map (fun i => (i - 1)%nat) (wide_gaps t).
Proof.
  rewrite find_breaks_wide_gaps, map_map. apply map_ext. intros i. lia.
Qed.

Lemma find_breaks_division_points t :
  division_points 0 (length t) (map Z.to_nat (find_breaks t)).
Proof.
  rewrite breaks_as_nat. unfold wide_gaps, Np.where_.
  apply breaks_division_points; [now left|].
  rewrite length_map, length_diff. lia.
Qed.

Lemma concat_split_from {A} (l : list A) indices : forall lo,
  division_points lo (length l) indices ->
  concat (Np.split_from lo indices l) = drop lo l.
Proof.
  induction indices as [|i indices IH]; intros lo Hd; simpl.
  - unfold Np.slice. rewrite app_nil_r. apply take_ge. rewrite length_drop. lia.
  - destruct Hd as (Hlo & Hi & Hd). rewrite (IH i Hd). unfold Np.slice.
    replace (drop i l) with (drop (i - lo) (drop lo l)).
    + apply take_drop.
    + rewrite drop_drop. f_equal. lia.
Qed.

Lemma split_from_nonempty {A} (l : list A) indices : forall lo,
  division_points lo (length l) indices -> (lo < length l)%nat ->
  Forall (fun s => s <> []) (Np.split_from lo indices l).
Proof.
  induction indices as [|i indices IH]; intros lo Hd Hlo; simpl.
  - constructor; [|constructor]. unfold Np.slice. intros Hs.
    apply (f_equal length) in Hs. rewrite length_take, length_drop in Hs. simpl in Hs. lia.
  - destruct Hd as (Hlt & Hi & Hd). constructor; [|now apply IH].
    unfold Np.slice. intros Hs.
    apply (f_equal length) in Hs. rewrite length_take, length_drop in Hs. simpl in Hs. lia.
Qed.

Lemma concat_segments (t : vec) : concat (segments t) = t.
Proof.
  unfold segments, Np.array_split.
  rewrite concat_split_from by apply find_breaks_division_points. apply drop_0.
Qed.

Lemma segments_nonempty (t : vec) : t <> [] -> Forall (fun s => s <> []) (segments t).
Proof.
  intros Ht. unfold segments, Np.array_split.
  apply split_from_nonempty; [apply find_breaks_division_points|].
  destruct t; [contradiction | simpl; lia].
Qed.

(** X3.  The segments are a partition of the time axis: put end to end
    they give the time axis back, and when the time axis is not empty no
    segment is empty. *)
Theorem segments_partition_time_axis (t : vec) :
  concat (segments t) = t /\
  (t <> [] -> Forall (fun s => s <> []) (segments t)).
Proof.
  split; [apply concat_segments | apply segments_nonempty].
Qed.

Lemma segments_partition_time_axis_witness :
  concat (segments long_cadence_series) = long_cadence_series /\
  Forall (fun s => s <> []) (segments long_cadence_series).
Proof.
  split.
  - exact (proj1 (segments_partition_time_axis long_cadence_series)).
  - apply (proj2 (segments_partition_time_axis long_cadence_series)).
    vm_compute. discriminate.
Defined.

(** X4.  The boundaries kept are strictly increasing indices between 1
    and the length of the time axis minus 3; the boundary [b] is kept
    exactly when [b > 0] and the difference [time[b+2] - time[b+1]]
    exceeds [0.0202 * 10]. *)
Theorem breaks_increasing_and_located (t : vec) :
  division_points 0 (length t) (map Z.to_nat (find_breaks t)) /\
  (forall b, b ∈ find_breaks t -> 1 <= b <= Z.of_nat (length t) - 3) /\
  (forall b, b ∈ find_breaks t <->
     0 < b /\ exists x y, t !! Z.to_nat (b + 1) = Some x /\
                          t !! Z.to_nat (b + 2) = Some y /\
                          gtb (sub y x) gap_threshold = true).
Proof.
  split; [apply find_breaks_division_points|].
  assert (Hdiff : forall i d, Np.diff t !! i = Some d <->
                    exists x y, t !! i = Some x /\ t !! S i = Some y /\ d = sub y x).
  { clear. induction t as [|x [|y t] IH]; intros i d.
    - simpl. rewrite lookup_nil. split; [discriminate|]. intros (x & y & Hx & _). discriminate.
    - simpl. rewrite lookup_nil. split; [discriminate|].
      intros (x' & y & _ & Hy & _). destruct i; discriminate.
    - change (Np.diff (x :: y :: t)) with (sub y x :: Np.diff (y :: t)).
      destruct i as [|i].
      + simpl. split.
        * intros Hd. inversion Hd. eauto.
        * intros (x' & y' & Hx & Hy & ->). inversion Hx; inversion Hy. reflexivity.
      + change ((sub y x :: Np.diff (y :: t)) !! S i) with (Np.diff (y :: t) !! i).
        rewrite IH. reflexivity. }
  split.
  - intros b Hb. apply find_breaks_spec in Hb. destruct Hb as (Hpos & d & Hd & _).
    apply lookup_lt_Some in Hd. rewrite length_diff in Hd. lia.
  - intros b. rewrite find_breaks_spec. split.
    + intros (Hb & d & Hd & Hg). split; [exact Hb|].
      apply Hdiff in Hd. destruct Hd as (x & y & Hx & Hy & ->).
      exists x, y. split; [exact Hx|]. split; [|exact Hg].
      replace (Z.to_nat (b + 2)) with (S (Z.to_nat (b + 1))) by lia. exact Hy.
    + intros (Hb & x & y & Hx & Hy & Hg). split; [exact Hb|].
      exists (sub y x). split; [|exact Hg]. apply Hdiff. exists x, y.
      split; [exact Hx|]. split; [|reflexivity].
      replace (S (Z.to_nat (b + 1))) with (Z.to_nat (b + 2)) by lia. exact Hy.
Qed.

Lemma breaks_increasing_and_located_witness :
  2 ∈ find_breaks long_cadence_series /\ 1 <= 2 <= Z.of_nat (length long_cadence_series) - 3.
Proof.
  assert (Hb : 2 ∈ find_breaks long_cadence_series).
  { apply (proj2 (breaks_increasing_and_located long_cadence_series)).
    split; [lia|]. eexists _, _. split; [reflexivity|]. split; [reflexivity|].
    vm_compute. reflexivity. }
  split; [exact Hb|].
  exact (proj1 (proj2 (breaks_increasing_and_located long_cadence_series)) 2 Hb).
Defined.

(** ** build_X: the cleaned pointing corrections *)

Lemma nan_to_num_isfinite x : isfinite (nan_to_num x) = true.
Proof. destruct x as [s|[|]| |s m e]; reflexivity. Qed.

(** X5.  After lines 31-33 both arrays keep their length and hold finite
    values only; no row offset is beyond 10 in magnitude, and the column
    offsets are those [nan_to_num] returns, whatever their magnitude. *)
Theorem cleaned_offsets_finite_rows_bounded (p1 p2 : vec) :
  let r := (clean_pos_corr p1 p2).1 in
  let c := (clean_pos_corr p1 p2).2 in
  length r = length p1 /\ length c = length p2 /\
  Forall (fun x => isfinite x = true /\ gtb (abs x) ten = false) r /\
  Forall (fun x => isfinite x = true) c /\
  c = map nan_to_num p2.
Proof.
  cbv zeta. rewrite col_offsets_not_clipped.
  split; [apply (row_offsets_cleaned p1 p2)|].
  split; [apply length_map|]. split; [|split; [|reflexivity]].
  - unfold clean_pos_corr; simpl. rewrite mask_assign_map, !Forall_map.
    apply Forall_forall. intros x _. simpl.
    destruct (gtb (abs (nan_to_num x)) ten) eqn:Hg.
    + split; reflexivity.
    + split; [apply nan_to_num_isfinite | exact Hg].
  - rewrite Forall_map. apply Forall_forall. intros x _. apply nan_to_num_isfinite.
Qed.

(** ** build_X: a stamp without cadences *)

Lemma centroids_empty p :
  time p = [] -> pos_corr1 p = [] -> centroids p = Raise IndexError.
Proof. intros Ht Hr. unfold centroids. rewrite Ht, Hr. reflexivity. Qed.

(** X7.  On a stamp without cadences [build_X] raises [IndexError] (at
    [t[-1]] of line 40), before any collaborator is called, and so do
    [build_lc] and [build_model]. *)
Theorem empty_stamp_raises_IndexError `{Collaborators} (p : tpf) (fl : vec)
    (lc : lightcurve) (t_model : option vec) (aperture_mask : list (list bool))
    (cbvs : option matrix) (cadence_mask : option (list bool))
    (errors background spline : bool) (spline_period : float) (g : rng) :
  time p = [] -> pos_corr1 p = [] ->
  build_X p fl t_model background cbvs spline spline_period = Raise IndexError /\
  build_lc p aperture_mask cbvs cadence_mask background spline spline_period
    = Raise IndexError /\
  build_model p lc cbvs t_model errors cadence_mask background spline g
    = Raise IndexError.
Proof.
  intros Ht Hr.
  assert (HX : forall fl tm sp,
             build_X p fl tm background cbvs spline sp = Raise IndexError).
  { intros. unfold build_X, regressors. now rewrite (centroids_empty p Ht Hr). }
  split; [apply HX|]. split.
  - unfold build_lc, lc_design. now rewrite HX.
  - unfold build_model. now rewrite HX.
Qed.

Lemma empty_stamp_raises_IndexError_witness :
  @build_lc (StandIn.collaborators box_levels) (one_pixel_stamp [] [] []) [[true]]
     None None false true (of_Z 2) = Raise IndexError.
Proof.
  exact (proj1 (proj2 (empty_stamp_raises_IndexError
                         (H := StandIn.collaborators box_levels)
                         (one_pixel_stamp [] [] []) [] demo_lc None [[true]] None None
                         false false true (of_Z 2) 0%nat eq_refl eq_refl))).
Defined.

(** ** build_X: the shape of the design matrix *)

Lemma shape2_transpose n (m : matrix) : shape2 n (length m) (Np.transpose n m).
Proof. split; [apply length_transpose | apply Forall_length_transpose]. Qed.

Lemma shape2_centroids p m :
  centroids p = Ok m -> shape2 (length (time p)) (centroid_columns p) m.
Proof.
  unfold centroid_columns. rewrite centroids_eq. destruct (eqb _ _).
  - destruct (time_trend_blocks (time p)) as [blocks|e] eqn:Hb;
      rewrite ?bind_Ok, ?bind_Raise; [|discriminate].
    intros Hm. injection Hm as <-. unfold vstack_T.
    rewrite <- (time_trend_blocks_length _ _ Hb). apply shape2_transpose.
  - intros Hm. injection Hm as <-. unfold vstack_T.
    rewrite <- (motion_blocks_length (time p)
                  (clean_pos_corr (pos_corr1 p) (pos_corr2 p)).1
                  (clean_pos_corr (pos_corr1 p) (pos_corr2 p)).2).
    apply shape2_transpose.
Qed.

Lemma shape2_hstack2 r c1 c2 (a b : matrix) :
  shape2 r c1 a -> shape2 r c2 b -> shape2 r (c1 + c2) (Np.hstack2 a b).
Proof.
  intros [Hla Ha] [Hlb Hb]. subst r. revert b Hlb Hb.
  induction Ha as [|ra a Hra _ IH]; intros [|rb b] Hlb Hb; simpl in *; try discriminate.
  - split; [reflexivity | constructor].
  - inversion Hb; subst. destruct (IH b ltac:(lia) ltac:(assumption)) as [Hl Hf].
    split; [simpl; now rewrite Hl|]. constructor; [|exact Hf].
    rewrite length_app. lia.
Qed.

Lemma shape2_weight_rows r c (w : vec) (A : matrix) :
  length w = r -> shape2 r c A -> shape2 r c (weight_rows w A).
Proof.
  intros Hw [Hl Hf]. unfold weight_rows. split.
  - rewrite length_zip_with. lia.
  - apply Forall_lookup. intros i row Hi.
    apply lookup_zip_with_Some in Hi. destruct Hi as (x & a & -> & _ & Ha).
    rewrite length_map. eapply Forall_lookup_1 in Hf; [exact Hf | exact Ha].
Qed.

Lemma shape2_append_offset r c (SA : matrix) (t_model : option vec) :
  shape2 r c SA ->
  (forall tm, t_model = Some tm -> length tm = r) ->
  shape2 r (c + (match t_model with Some _ => 2 | None => 1 end)) (append_offset SA t_model).
Proof.
  intros [Hl Hf] Htm. unfold append_offset. destruct t_model as [tm|].
  - specialize (Htm tm eq_refl). split.
    + rewrite length_zip_with. lia.
    + apply Forall_lookup. intros i row Hi.
      apply lookup_zip_with_Some in Hi. destruct Hi as (a & x & -> & Ha & _).
      rewrite length_app. simpl. eapply Forall_lookup_1 in Hf; [|exact Ha].
      simpl in Hf. lia.
  - split; [now rewrite length_map|]. rewrite Forall_map.
    eapply Forall_impl; [exact Hf|]. intros row Hrow. simpl in Hrow |- *.
    rewrite length_app. simpl. lia.
Qed.

Lemma shape2_nan_to_num r c (v : matrix) :
  shape2 r c v -> shape2 r c (map (map nan_to_num) v).
Proof.
  intros [Hl Hf]. split; [now rewrite length_map|].
  rewrite Forall_map. eapply Forall_impl; [exact Hf|].
  intros row Hrow. simpl. now rewrite length_map.
Qed.

(** X8.  Without background and spline the design matrix has one row per
    cadence, and in every row: 3 columns per segment (time trend) or 16
    (centroid motion), the columns of the covariates, the constant column
    and, with a template, the template column. *)
Theorem design_matrix_shape `{Collaborators} (p : tpf) (fl : vec)
    (t_model : option vec) (cbvs : option matrix) (spline_period : float)
    (c : nat) (SA : matrix) :
  build_X p fl t_model false cbvs false spline_period = Ok SA ->
  length fl = length (time p) ->
  (forall tm, t_model = Some tm -> length tm = length (time p)) ->
  (forall v, cbvs = Some v -> shape2 (length (time p)) c v) ->
  (cbvs = None -> c = 0%nat) ->
  shape2 (length (time p))
         (centroid_columns p + c + (match t_model with Some _ => 2 | None => 1 end)) SA.
Proof.
  intros HX Hfl Htm Hv Hc. apply build_X_Ok in HX. destruct HX as (A & HA & ->).
  apply shape2_append_offset; [|exact Htm].
  apply shape2_weight_rows; [exact Hfl|].
  unfold regressors in HA.
  destruct (centroids p) as [m|e] eqn:Hm; rewrite ?bind_Ok, ?bind_Raise in HA;
    [|discriminate].
  apply shape2_centroids in Hm. inversion HA; subst A.
  destruct cbvs as [v|].
  - apply shape2_hstack2; [exact Hm|]. apply shape2_nan_to_num. now apply Hv.
  - rewrite (Hc eq_refl), Nat.add_0_r. exact Hm.
Qed.

Lemma design_matrix_shape_witness :
  exists SA,
    @build_X (StandIn.collaborators box_levels) demo_stamp (lc_flux demo_lc)
       (Some demo_template) false None false (of_Z 2) = Ok SA /\
    shape2 12 5 SA.
Proof.
  destruct (@build_X (StandIn.collaborators box_levels) demo_stamp (lc_flux demo_lc)
              (Some demo_template) false None false (of_Z 2)) as [SA|e] eqn:HX.
  2:{ vm_compute in HX. discriminate HX. }
  exists SA. split; [reflexivity|].
  refine (design_matrix_shape (H := StandIn.collaborators box_levels)
            demo_stamp _ _ None _ 0%nat SA HX _ _ _ _).
  - reflexivity.
  - intros tm Htm. injection Htm as <-. reflexivity.
  - intros v Hv. discriminate Hv.
  - reflexivity.
Defined.

(** ** build_X: the segment indicators *)

Lemma eqb_nan_l x y : isnan x = true -> eqb x y = false.
Proof. destruct x; try discriminate. reflexivity. Qed.

Lemma count_chunks_none (x : float) (chunks : list vec) :
  (forall y, y ∈ concat chunks -> eqb x y = false) ->
  List.filter (fun s => existsb (eqb x) s) chunks = [].
Proof.
  induction chunks as [|c chunks IH]; intros Hno; simpl; [reflexivity|].
  assert (Hc : existsb (eqb x) c = false).
  { apply not_true_is_false. intros He. apply existsb_exists in He.
    destruct He as (y & Hy & He). rewrite Hno in He; [discriminate|].
    simpl. apply elem_of_app. left. now apply list_elem_of_In. }
  rewrite Hc. apply IH. intros y Hy. apply Hno. simpl. apply elem_of_app. now right.
Qed.

Lemma count_chunks_one (chunks : list vec) : forall i x,
  distinct_times (concat chunks) ->
  concat chunks !! i = Some x ->
  length (List.filter (fun s => existsb (eqb x) s) chunks)
  = if isnan x then 0%nat else 1%nat.
Proof.
  induction chunks as [|c chunks IH]; intros i x Hd Hi; [discriminate|].
  simpl in Hi, Hd |- *.
  destruct (decide (i < length c)%nat) as [Hlt|Hge].
  - (* the cadence lies in the first chunk *)
    rewrite lookup_app_l in Hi by exact Hlt.
    rewrite count_chunks_none.
    2:{ intros y Hy. apply list_elem_of_lookup in Hy. destruct Hy as [j Hj].
        apply not_true_is_false. intros He.
        assert (i = (length c + j)%nat); [|lia].
        apply (Hd i (length c + j)%nat x y); [|  |exact He].
        - now apply lookup_app_l_Some.
        - rewrite lookup_app_r by lia. now replace (length c + j - length c)%nat with j by lia. }
    destruct (isnan x) eqn:Hn.
    + assert (Hc : existsb (eqb x) c = false).
      { apply not_true_is_false. intros He. apply existsb_exists in He.
        destruct He as (y & _ & He). now rewrite eqb_nan_l in He. }
      now rewrite Hc.
    + assert (Hc : existsb (eqb x) c = true).
      { apply existsb_exists. exists x. split.
        - apply list_elem_of_In. eapply list_elem_of_lookup_2, Hi.
        - now apply eqb_refl. }
      now rewrite Hc.
  - (* the cadence lies in a later chunk *)
    rewrite lookup_app_r in Hi by lia.
    assert (Hc : existsb (eqb x) c = false).
    { apply not_true_is_false. intros He. apply existsb_exists in He.
      destruct He as (y & Hy & He). apply list_elem_of_In, list_elem_of_lookup in Hy.
      destruct Hy as [j Hj]. pose proof (lookup_lt_Some _ _ _ Hj) as Hjlt.
      assert (i = j); [|lia].
      apply (Hd i j x y); [| |exact He].
      - rewrite lookup_app_r by lia. exact Hi.
      - now apply lookup_app_l_Some. }
    rewrite Hc. apply (IH (i - length c)%nat x); [|exact Hi].
    intros a b u v Ha Hb He.
    assert ((length c + a)%nat = (length c + b)%nat); [|lia].
    apply (Hd _ _ u v); [| |exact He].
    + rewrite lookup_app_r by lia. now replace (length c + a - length c)%nat with a by lia.
    + rewrite lookup_app_r by lia. now replace (length c + b - length c)%nat with b by lia.
Qed.

Lemma filter_map_comm {A B} (h : B -> bool) (f : A -> B) (l : list A) :
  List.filter h (map f l) = map f (List.filter (fun x => h (f x)) l).
Proof.
  induction l as [|x l IH]; simpl; [reflexivity|].
  destruct (h (f x)); simpl; now rewrite IH.
Qed.

(** X9.  When no two cadences have equal times, every cadence whose time
    is not NaN is held by exactly one segment indicator, and a cadence
    whose time is NaN by none: each row of the indicator columns holds a
    single 1.0, or none. *)
Theorem each_cadence_in_one_segment (t : vec) (i : nat) (x : float) :
  distinct_times t -> t !! i = Some x ->
  segments_holding t i = if isnan x then 0%nat else 1%nat.
Proof.
  intros Hd Hi. unfold segments_holding, seg_indicators.
  rewrite filter_map_comm, length_map.
  pose proof (concat_segments t) as Hcat.
  rewrite <- (count_chunks_one (segments t) i x); [|now rewrite Hcat..].
  f_equal. apply filter_ext. intros s. unfold Np.in1d.
  rewrite nth_lookup, lookup_map, Hi. reflexivity.
Qed.

Lemma each_cadence_in_one_segment_witness :
  segments_holding long_cadence_series 4 = 1%nat.
Proof.
  refine (each_cadence_in_one_segment long_cadence_series 4 (of_ratio 67 64) _ eq_refl).
  intros i j x y Hx Hy He.
  do 7 (destruct i as [|i]; [do 7 (destruct j as [|j]; [vm_compute in Hx, Hy; injection Hx as <-; injection Hy as <-; (reflexivity || (vm_compute in He; discriminate He))|]); discriminate Hy|]).
  discriminate Hx.
Defined.

(** ** build_model: pixels without data, the random generator, shapes *)

Lemma foldM_unchanged `{Collaborators} {K S} (step : K -> S -> M S) (l : list K) st g :
  (forall k, k ∈ l -> step k st g = Ok (st, g)) ->
  foldM step l st g = Ok (st, g).
Proof.
  induction l as [|k l IH]; intros Hs; [reflexivity|].
  change (foldM step (k :: l) st g)
    with ('(s1, g1) ← step k st g; foldM step l s1 g1).
  rewrite (Hs k) by (now left). rewrite bind_Ok. apply IH.
  intros k' Hk'. apply Hs. now right.
Qed.

(** X10.  On a stamp in which no pixel has a finite flux value,
    [build_model] returns the arrays of zeros it started from and leaves
    the random generator as it was: the solver is not called. *)
Theorem build_model_without_data `{Collaborators} (p : tpf) (lc : lightcurve)
    (cbvs : option matrix) (t_model : option vec) (errors : bool)
    (cadence_mask : option (list bool)) (background spline : bool) (g : rng)
    (SA : matrix) :
  build_X p (lc_flux lc) t_model background cbvs spline (of_Z 2) = Ok SA ->
  (forall idx jdx, (idx < nrows p)%nat -> (jdx < ncols p)%nat ->
     existsb isfinite (pixel_series (flux p) idx jdx) = false) ->
  build_model p lc cbvs t_model errors cadence_mask background spline g =
  Ok (pack (bool_decide (is_Some t_model)) errors (initial_arrays p), g).
Proof.
  intros HX Hnone. unfold build_model. rewrite HX, bind_Ok. unfold fit_pixels.
  rewrite foldM_unchanged; [reflexivity|].
  intros [idx jdx] Hpx. apply elem_of_pixels in Hpx. destruct Hpx as [Hi Hj].
  unfold fit_pixel. now rewrite (Hnone idx jdx Hi Hj).
Qed.

Lemma build_model_without_data_witness :
  exists out,
    @build_model (StandIn.collaborators box_levels) (one_pixel_stamp_nan) demo_lc None
       (Some demo_template) false None false false 7%nat = Ok (out, 7%nat) /\
    out_transit out = Some ([[zero]], [[zero]]).
Proof.
  destruct (@build_X (StandIn.collaborators box_levels) one_pixel_stamp_nan
              (lc_flux demo_lc) (Some demo_template) false None false (of_Z 2))
    as [SA|e] eqn:HX.
  2:{ vm_compute in HX. discriminate HX. }
  eexists. split.
  - apply (build_model_without_data (H := StandIn.collaborators box_levels)
             one_pixel_stamp_nan demo_lc None (Some demo_template) false None
             false false 7%nat SA HX).
    intros idx jdx Hi Hj. simpl in Hi, Hj.
    destruct idx; [|lia]. destruct jdx; [|lia]. vm_compute. reflexivity.
  - reflexivity.
Defined.

Lemma fit_pixel_without_draws `{Collaborators} SA mask p px st g st' g' :
  fit_pixel SA mask false false p px st g = Ok (st', g') ->
  g' = g /\ forall g2, fit_pixel SA mask false false p px st g2 = Ok (st', g2).
Proof.
  unfold fit_pixel. destruct px as [idx jdx].
  destruct (negb (existsb isfinite (pixel_series (flux p) idx jdx))).
  { intros Hr. inversion Hr; subst. split; reflexivity. }
  destruct (normal_equations _ _ _ _) as [sigma_w_inv B].
  destruct (solve sigma_w_inv B) as [w|e]; rewrite ?bind_Ok, ?bind_Raise; [|discriminate].
  destruct (inv sigma_w_inv) as [sigma_w|e]; rewrite ?bind_Ok, ?bind_Raise; [|discriminate].
  intros Hr. inversion Hr; subst. split; reflexivity.
Qed.

Lemma foldM_without_draws `{Collaborators} {K S} (step : K -> S -> M S) (l : list K) :
  (forall k st g st' g', step k st g = Ok (st', g') ->
     g' = g /\ forall g2, step k st g2 = Ok (st', g2)) ->
  forall st g st' g', foldM step l st g = Ok (st', g') ->
    g' = g /\ forall g2, foldM step l st g2 = Ok (st', g2).
Proof.
  intros Hstep. induction l as [|k l IH]; intros st g st' g' Hf.
  - inversion Hf; subst. split; reflexivity.
  - change (foldM step (k :: l) st g)
      with ('(s1, g1) ← step k st g; foldM step l s1 g1) in Hf.
    destruct (step k st g) as [[s1 g1]|e] eqn:Hs; rewrite ?bind_Ok, ?bind_Raise in Hf;
      [|discriminate].
    destruct (Hstep k st g s1 g1 Hs) as [-> Hs2].
    destruct (IH s1 g st' g' Hf) as [-> Hf2].
    split; [reflexivity|]. intros g2.
    change (foldM step (k :: l) st g2)
      with ('(s1, g1) ← step k st g2; foldM step l s1 g1).
    rewrite Hs2, bind_Ok. apply Hf2.
Qed.

(** X11.  Without a transit template and without error propagation
    [build_model] draws no random number: it leaves the generator as it
    was and returns the same arrays from any state of the generator. *)
Theorem build_model_without_template_is_deterministic `{Collaborators} (p : tpf)
    (lc : lightcurve) (cbvs : option matrix) (cadence_mask : option (list bool))
    (background spline : bool) (g g' : rng) (out : model_out) :
  build_model p lc cbvs None false cadence_mask background spline g = Ok (out, g') ->
  g' = g /\
  forall g2, build_model p lc cbvs None false cadence_mask background spline g2
             = Ok (out, g2).
Proof.
  unfold build_model.
  destruct (build_X _ _ _ _ _ _ _) as [SA|e]; rewrite ?bind_Ok, ?bind_Raise; [|discriminate].
  destruct (fit_pixels _ _ _ _ _ g) as [[st g1]|e] eqn:Hfit;
    rewrite ?bind_Ok, ?bind_Raise; [|discriminate].
  intros Hr. inversion Hr; subst.
  change (bool_decide (is_Some (@None (list float)))) with false in Hfit |- *.
  unfold fit_pixels in Hfit |- *.
  destruct (foldM_without_draws
              (fit_pixel SA (default (all_cadences p) cadence_mask) false false p)
              (pixels (nrows p) (ncols p))
              (fit_pixel_without_draws SA _ p)
              _ _ _ _ Hfit) as [-> Hall].
  split; [reflexivity|]. intros g2. now rewrite bind_Ok, Hall, bind_Ok.
Qed.

Lemma build_model_without_template_is_deterministic_witness :
  exists out,
    @build_model (StandIn.collaborators box_levels) demo_stamp demo_lc None None
       false None false true 3%nat = Ok (out, 3%nat) /\
    @build_model (StandIn.collaborators box_levels) demo_stamp demo_lc None None
       false None false true 8%nat = Ok (out, 8%nat).
Proof.
  destruct (@build_model (StandIn.collaborators box_levels) demo_stamp demo_lc None None
              false None false true 3%nat) as [[out g']|e] eqn:Hb.
  2:{ vm_compute in Hb. discriminate Hb. }
  destruct (build_model_without_template_is_deterministic
              (H := StandIn.collaborators box_levels) _ _ _ _ _ _ _ g' out Hb)
    as [-> Hall].
  exists out. split; [reflexivity | apply Hall].
Defined.

Lemma fit_pixels_shapes `{Collaborators} SA mask has_t_model errors p g st g' :
  fit_pixels SA mask has_t_model errors p g = Ok (st, g') ->
  transit_shape p st /\ (length SA = length (flux p) -> model_shape SA p st).
Proof.
  unfold fit_pixels. intros Hf. split.
  - destruct (foldM_frame _ transit_view (transit_shape p) (in_stamp p) transit_fresh
                (transit_outcome SA mask has_t_model p)
                (fit_pixel_transit_frame SA mask has_t_model errors p)
                (pixels (nrows p) (ncols p)) (initial_arrays p) g st g')
      as (Hinv & _); try assumption.
    + apply NoDup_pixels.
    + intros [i j] Hk. apply elem_of_pixels in Hk. exact Hk.
    + split; apply shape2_zeros2.
  - intros Hrows.
    destruct (foldM_frame _ model_view (model_shape SA p) (in_stamp p) (model_fresh SA)
                (model_outcome SA mask p)
                (fit_pixel_model_frame SA mask has_t_model errors p)
                (pixels (nrows p) (ncols p)) (initial_arrays p) g st g')
      as (Hinv & _); try assumption.
    + apply NoDup_pixels.
    + intros [i j] Hk. apply elem_of_pixels in Hk. exact Hk.
    + unfold model_shape, initial_arrays. cbn. rewrite Hrows. apply shape3_zeros3.
Qed.

(** X12.  The arrays [build_model] returns have the shape of the stamp:
    the two depth maps are (rows, columns), and the model cube is
    (cadences, rows, columns) when the design matrix has one row per
    cadence. *)
Theorem build_model_output_shapes `{Collaborators} (p : tpf) (lc : lightcurve)
    (cbvs : option matrix) (tm : vec) (errors : bool)
    (cadence_mask : option (list bool)) (background spline : bool)
    (g g' : rng) (out : model_out) :
  build_model p lc cbvs (Some tm) errors cadence_mask background spline g = Ok (out, g') ->
  exists SA tp tpe,
    build_X p (lc_flux lc) (Some tm) background cbvs spline (of_Z 2) = Ok SA /\
    out_transit out = Some (tp, tpe) /\
    shape2 (nrows p) (ncols p) tp /\
    shape2 (nrows p) (ncols p) tpe /\
    (length SA = length (flux p) ->
     shape3 (length (flux p)) (nrows p) (ncols p) (out_model out)).
Proof.
  intros Hb. apply build_model_Ok in Hb. destruct Hb as (SA & st & HX & Hfit & ->).
  apply fit_pixels_shapes in Hfit. destruct Hfit as [[Htp Htpe] Hm].
  exists SA, (transit_pixels st), (transit_pixels_err st).
  split; [exact HX|]. split; [apply out_transit_pack|].
  split; [exact Htp|]. split; [exact Htpe|].
  intros Hrows. rewrite out_model_pack. rewrite <- Hrows. now apply Hm.
Qed.

Lemma build_model_output_shapes_witness :
  exists out g' tp tpe,
    @build_model (StandIn.collaborators box_levels) demo_stamp demo_lc None
       (Some demo_template) false None false true 0%nat = Ok (out, g') /\
    out_transit out = Some (tp, tpe) /\
    shape2 1 3 tp /\
    shape3 12 1 3 (out_model out).
Proof.
  destruct (@build_model (StandIn.collaborators box_levels) demo_stamp demo_lc None
              (Some demo_template) false None false true 0%nat)
    as [[out g']|e] eqn:Hb.
  2:{ vm_compute in Hb. discriminate Hb. }
  destruct (build_model_output_shapes (H := StandIn.collaborators box_levels)
              _ _ _ _ _ _ _ _ _ g' out Hb)
    as (SA & tp & tpe & HX & Ht & Htp & _ & Hm).
  exists out, g', tp, tpe. split; [reflexivity|]. split; [exact Ht|].
  split; [exact Htp|]. apply Hm.
  vm_compute in HX. injection HX as <-. reflexivity.
Defined.

(** X13.  [build_model] returns only when the solve and the inversion
    succeeded for every pixel with a finite flux value: one pixel whose
    system the solver rejects aborts the whole call.  For a pixel without
    a finite flux value the model stays 0.0 at every cadence. *)
Theorem build_model_needs_every_solve `{Collaborators} (p : tpf) (lc : lightcurve)
    (cbvs : option matrix) (t_model : option vec) (errors : bool)
    (cadence_mask : option (list bool)) (background spline : bool)
    (g g' : rng) (out : model_out) :
  build_model p lc cbvs t_model errors cadence_mask background spline g = Ok (out, g') ->
  exists SA,
    build_X p (lc_flux lc) t_model background cbvs spline (of_Z 2) = Ok SA /\
    forall idx jdx, (idx < nrows p)%nat -> (jdx < ncols p)%nat ->
      let f := pixel_series (flux p) idx jdx in
      let fe := pixel_series (flux_err p) idx jdx in
      let ne := normal_equations SA (default (all_cadences p) cadence_mask) f fe in
      (existsb isfinite f = true ->
       exists w sigma_w, solve ne.1 ne.2 = Ok w /\ inv ne.1 = Ok sigma_w) /\
      (existsb isfinite f = false -> length SA = length (flux p) ->
       pixel_series (out_model out) idx jdx = replicate (length (flux p)) zero).
Proof.
  intros Hb. apply build_model_Ok in Hb. destruct Hb as (SA & st & HX & Hfit & ->).
  exists SA. split; [exact HX|]. intros idx jdx Hi Hj. cbv zeta. split.
  - intros Hfin.
    pose proof (fit_pixels_transit SA _ _ errors p g st g' idx jdx Hfit Hi Hj) as Ht.
    unfold transit_outcome in Ht. cbn [fst snd] in Ht. rewrite Hfin in Ht.
    destruct Ht as (w & sigma_w & Hw & Hs & _). eauto.
  - intros Hfin Hrows.
    pose proof (fit_pixels_model SA _ _ errors p Hrows g st g' idx jdx Hfit Hi Hj) as Hm.
    unfold model_outcome, model_view in Hm. cbn [fst snd] in Hm. rewrite Hfin in Hm.
    now rewrite out_model_pack, Hm, Hrows.
Qed.

Lemma build_model_needs_every_solve_witness :
  exists out g',
    @build_model (StandIn.collaborators box_levels) demo_stamp demo_lc None
       (Some demo_template) false None false true 0%nat = Ok (out, g') /\
    pixel_series (out_model out) 0 2 = replicate 12 zero.
Proof.
  destruct (@build_model (StandIn.collaborators box_levels) demo_stamp demo_lc None
              (Some demo_template) false None false true 0%nat)
    as [[out g']|e] eqn:Hb.
  2:{ vm_compute in Hb. discriminate Hb. }
  destruct (build_model_needs_every_solve (H := StandIn.collaborators box_levels)
              _ _ _ _ _ _ _ _ _ g' out Hb) as (SA & HX & Hpix).
  exists out, g'. split; [reflexivity|].
  apply (Hpix 0%nat 2%nat ltac:(simpl; lia) ltac:(simpl; lia)).
  - vm_compute. reflexivity.
  - vm_compute in HX. injection HX as <-. reflexivity.
Defined.

(** ** get_centroid_plot: the frames kept *)

Lemma length_select_same {A B} (mask : list bool) (a : list A) (b : list B) :
  length a = length b -> length (Np.select mask a) = length (Np.select mask b).
Proof.
  revert a b. induction mask as [|m mask IH]; intros [|x a] [|y b] Hl; simpl in *;
    try reflexivity; try discriminate.
  destruct m; simpl; rewrite (IH a b); auto.
Qed.

Lemma select_true_mask {A} (mask : list bool) (l : list A) :
  Forall (fun b => b = true) mask -> length l = length mask -> Np.select mask l = l.
Proof.
  intros Hm. revert l. induction Hm as [|b mask -> _ IH]; intros [|x l] Hl; simpl in *;
    try reflexivity; try discriminate.
  rewrite IH; auto.
Qed.

(** X15.  Line 167 keeps, in their order, exactly the frames whose total
    flux (NaN counted as zero) is not zero, and with them the entries of
    every per-cadence array, so that a stamp with one entry per cadence
    stays one; filtering a second time changes nothing. *)
Theorem zero_flux_frames_filtered (p : tpf) :
  well_shaped p ->
  let p' := tpf_select (nonzero_frames p) p in
  flux p' = List.filter (fun frame => neqb (Np.nansum (concat frame)) zero) (flux p) /\
  Forall (fun frame => neqb (Np.nansum (concat frame)) zero = true) (flux p') /\
  well_shaped p' /\
  tpf_select (nonzero_frames p') p' = p'.
Proof.
  intros (H1 & H2 & H3 & H4 & H5 & H6). cbv zeta.
  assert (Hflux := zero_flux_frames_dropped p).
  assert (Hall : Forall (fun frame => neqb (Np.nansum (concat frame)) zero = true)
                        (flux (tpf_select (nonzero_frames p) p))).
  { rewrite Hflux. apply Forall_forall. intros frame Hf.
    apply list_elem_of_In, filter_In in Hf. apply Hf. }
  assert (Hws : well_shaped (tpf_select (nonzero_frames p) p)).
  { unfold well_shaped, tpf_select. simpl.
    repeat split; apply length_select_same; congruence. }
  split; [exact Hflux|]. split; [exact Hall|]. split; [exact Hws|].
  set (p' := tpf_select (nonzero_frames p) p) in *.
  assert (Hmask : Forall (fun b => b = true) (nonzero_frames p')).
  { unfold nonzero_frames. rewrite Forall_map. exact Hall. }
  assert (Hlen : length (nonzero_frames p') = length (flux p')).
  { unfold nonzero_frames. apply length_map. }
  destruct Hws as (W1 & W2 & W3 & W4 & W5 & W6).
  unfold tpf_select at 1.
  rewrite !(select_true_mask (nonzero_frames p')) by (try exact Hmask; congruence).
  now destruct p'.
Qed.

Lemma zero_flux_frames_filtered_witness :
  length (time (tpf_select (nonzero_frames dark_stamp) dark_stamp)) = 0%nat /\
  well_shaped (tpf_select (nonzero_frames dark_stamp) dark_stamp).
Proof.
  split; [reflexivity|].
  refine (proj1 (proj2 (proj2 (zero_flux_frames_filtered dark_stamp _)))).
  repeat split.
Defined.

(** ** get_centroid_plot: the accumulators *)

Lemma select2_contaminant_weights (tp tpe : list (list float)) :
  select2 (contaminant_mask tp tpe) (significance tp tpe) =
  List.filter (fun x => gtb x five) (concat (significance tp tpe)).
Proof.
  unfold select2, contaminant_mask.
  generalize (significance tp tpe) as a. intros a.
  assert (Hc : concat (map (map (fun x => gtb x five)) a)
               = map (fun x => gtb x five) (concat a)).
  { induction a as [|row a IH]; simpl; [reflexivity|]. now rewrite map_app, IH. }
  rewrite Hc. apply select_map_filter.
Qed.

Lemma any2_contaminant_mask (tp tpe : list (list float)) :
  any2 (contaminant_mask tp tpe) = false <->
  select2 (contaminant_mask tp tpe) (significance tp tpe) = [].
Proof.
  rewrite select2_contaminant_weights, <- existsb_concat. unfold contaminant_mask.
  generalize (significance tp tpe) as a. intros a.
  assert (Hc : concat (map (map (fun x => gtb x five)) a)
               = map (fun x => gtb x five) (concat a)).
  { induction a as [|row a IH]; simpl; [reflexivity|]. now rewrite map_app, IH. }
  rewrite Hc. clear Hc. induction (concat a) as [|x l IH]; simpl; [tauto|].
  destruct (gtb x five); simpl; [split; discriminate | exact IH].
Qed.

Lemma target_coordinate_empty_aperture `{Collaborators} p aper coord :
  any2 aper = false -> target_coordinate p aper coord = Raise ZeroDivisionError.
Proof.
  intros Ha. unfold target_coordinate. rewrite !(select2_empty_mask _ _ Ha). reflexivity.
Qed.

Section Accumulators.
Context `{Collaborators}.

(** Everything an iteration that ran to its end did to the accumulators. *)
Lemma localize_accumulates tess period p aper lc t_model t_mask st g st' loc g' :
  localize tess period p aper lc t_model t_mask st g = Ok (st', loc, g') ->
  exists tp tpe ra_t dec_t,
    target_coordinate p aper (coord_ra p) = Ok ra_t /\
    target_coordinate p aper (coord_dec p) = Ok dec_t /\
    coords_weights st' =
      coords_weights st ++ [select2 (contaminant_mask tp tpe) (significance tp tpe)] /\
    coords_ra st' =
      coords_ra st ++ [select2 (contaminant_mask tp tpe)
                         (per_pixel Np.mean (coord_ra p) (nrows p) (ncols p))] /\
    coords_dec st' =
      coords_dec st ++ [select2 (contaminant_mask tp tpe)
                          (per_pixel Np.mean (coord_dec p) (nrows p) (ncols p))] /\
    ra_target st' = ra_target st ++ [ra_t] /\
    dec_target st' = dec_target st ++ [dec_t] /\
    target st' = target st /\
    last_lc st' = last_lc st /\
    (if any2 (contaminant_mask tp tpe)
     then exists c, contaminator st' = append_lc (contaminator st) c
     else contaminator st' = contaminator st).
Proof.
  unfold localize.
  destruct (build_model _ _ _ _ _ _ _ _ _) as [[out g1]|e];
    rewrite ?bind_Ok, ?bind_Raise; [|discriminate].
  destruct out as [m|m me|model2 tp tpe|m me tp tpe]; try discriminate.
  destruct (any2 (contaminant_mask tp tpe)) eqn:Hany.
  - destruct (build_lc _ _ _ _ _ _ _) as [c|e]; rewrite ?bind_Ok, ?bind_Raise;
      [|discriminate].
    destruct (target_coordinate p aper (coord_ra p)) as [ra_t|e] eqn:Hra;
      rewrite ?bind_Ok, ?bind_Raise; [|discriminate].
    destruct (target_coordinate p aper (coord_dec p)) as [dec_t|e] eqn:Hdec;
      rewrite ?bind_Ok, ?bind_Raise; [|discriminate].
    intros Hr. inversion Hr; subst. exists tp, tpe, ra_t, dec_t. cbn.
    rewrite Hany. do 9 (split; [reflexivity|]). exists c. reflexivity.
  - rewrite bind_Ok.
    destruct (target_coordinate p aper (coord_ra p)) as [ra_t|e] eqn:Hra;
      rewrite ?bind_Ok, ?bind_Raise; [|discriminate].
    destruct (target_coordinate p aper (coord_dec p)) as [dec_t|e] eqn:Hdec;
      rewrite ?bind_Ok, ?bind_Raise; [|discriminate].
    intros Hr. inversion Hr; subst. exists tp, tpe, ra_t, dec_t. cbn.
    rewrite Hany. do 9 (split; [reflexivity|]). reflexivity.
Qed.

(** The two ways an iteration can end without raising. *)
Lemma segment_step_Ok_cases tess period t0 duration p0 st g st' loc g' :
  segment_step tess period t0 duration p0 st g = Ok (st', loc, g') ->
  (loc = None /\ g' = g /\ exists lc, st' = with_last_lc lc st) \/
  (exists locs lc corrected,
     loc = Some locs /\
     localize tess period (seg_tpf locs) (seg_aper locs) lc (seg_t_model locs)
              (seg_t_mask locs)
              {| contaminator := contaminator st;
                 target := append_lc (target st) corrected;
                 coords_weights := coords_weights st;
                 coords_ra := coords_ra st; coords_dec := coords_dec st;
                 ra_target := ra_target st; dec_target := dec_target st;
                 last_lc := Some lc |} g = Ok (st', loc, g')).
Proof.
  unfold segment_step. cbv zeta.
  destruct (to_periodogram _ _) as [bls|e]; rewrite ?bind_Ok, ?bind_Raise; [|discriminate].
  destruct (eqb _ zero).
  { intros Hr. inversion Hr; subst. left. split; [reflexivity|]. split; [reflexivity|].
    eexists. reflexivity. }
  destruct (build_lc _ _ _ _ _ _ _) as [corrected|e];
    rewrite ?bind_Ok, ?bind_Raise; [|discriminate].
  intros Hl. right. pose proof Hl as Hl'. apply localize_Ok in Hl'.
  destruct Hl' as (model2 & tp & tpe & _ & Hloc & _). subst loc.
  eexists _, _, corrected. split; [reflexivity|]. cbn [seg_tpf seg_aper seg_t_model seg_t_mask].
  exact Hl.
Qed.

Lemma segment_step_consistent tess period t0 duration p0 st g st' loc g' :
  accum_consistent st ->
  segment_step tess period t0 duration p0 st g = Ok (st', loc, g') ->
  accum_consistent st'.
Proof.
  intros (L1 & L2 & L3 & L4 & Ht & Hc & Hw & Hra & Hdec) Hs.
  apply segment_step_Ok_cases in Hs.
  destruct Hs as [(_ & _ & lc & ->)|(locs & lc & corrected & _ & Hl)].
  { unfold accum_consistent, with_last_lc. cbn. tauto. }
  apply localize_accumulates in Hl.
  destruct Hl as (tp & tpe & ra_t & dec_t & _ & _ & Ew & Era & Edec & Ert & Edt & Etg & _ & Econt).
  cbn in Ew, Era, Edec, Ert, Edt, Etg, Econt.
  pose proof (any2_contaminant_mask tp tpe) as Hany.
  unfold accum_consistent. rewrite Ew, Era, Edec, Ert, Edt, Etg, !length_app. cbn [length].
  split; [lia|]. split; [lia|]. split; [lia|]. split; [lia|]. split.
  { split.
    - destruct (target st); discriminate.
    - intros Hnil. apply (f_equal length) in Hnil. rewrite length_app in Hnil.
      simpl in Hnil. lia. }
  split.
  { rewrite Forall_app, Forall_singleton.
    destruct (any2 (contaminant_mask tp tpe)).
    - destruct Econt as [c ->]. split.
      + destruct (contaminator st); discriminate.
      + intros [_ Hnil]. apply Hany in Hnil. discriminate.
    - rewrite Econt, Hc. split.
      + intros Hall. split; [exact Hall|]. now apply Hany.
      + now intros [Hall _]. }
  split.
  { rewrite Forall_app, Forall_singleton. split; [exact Hw|].
    rewrite select2_contaminant_weights. apply Forall_forall. intros x Hx.
    apply list_elem_of_In, filter_In in Hx. apply Hx. }
  split.
  - apply Forall2_app; [exact Hra|]. constructor; [|constructor].
    intros Hnil. apply Hany in Hnil. now apply select2_empty_mask.
  - apply Forall2_app; [exact Hdec|]. constructor; [|constructor].
    intros Hnil. apply Hany in Hnil. now apply select2_empty_mask.
Qed.

Lemma run_consistent tess period t0 duration tpfs : forall st g st' g',
  accum_consistent st ->
  foldM (loop_step tess period t0 duration) tpfs st g = Ok (st', g') ->
  accum_consistent st'.
Proof.
  induction tpfs as [|p0 tpfs IH]; intros st g st' g' Hinv Hf.
  - inversion Hf; subst. exact Hinv.
  - change (foldM (loop_step tess period t0 duration) (p0 :: tpfs) st g)
      with ('(s1, g1) ← loop_step tess period t0 duration p0 st g;
            foldM (loop_step tess period t0 duration) tpfs s1 g1) in Hf.
    rewrite loop_step_eq in Hf.
    destruct (segment_step tess period t0 duration p0 st g) as [[[s1 loc] g1]|e] eqn:Hs;
      rewrite ?bind_Ok, ?bind_Raise in Hf; [|discriminate].
    eapply IH; [|exact Hf]. eapply segment_step_consistent; eassumption.
Qed.

Lemma initial_accum_consistent : accum_consistent initial_accum.
Proof.
  unfold accum_consistent, initial_accum. cbn.
  repeat split; auto; constructor.
Qed.

(** X16.  After the loop over the stamps the five coordinate and weight
    lists have one entry per stamp that ran to its end; the target light
    curve exists exactly when there is such a stamp, the contaminant light
    curve exactly when some stamp had a contaminant pixel; every weight
    kept is a significance greater than 5. *)
Theorem accumulators_after_the_loop (tess : bool) (period t0 duration : float)
    (tpfs : list tpf) (g g' : rng) (st : accum) :
  foldM (loop_step tess period t0 duration) tpfs initial_accum g = Ok (st, g') ->
  length (coords_ra st) = length (coords_weights st) /\
  length (coords_dec st) = length (coords_weights st) /\
  length (ra_target st) = length (coords_weights st) /\
  length (dec_target st) = length (coords_weights st) /\
  (target st = None <-> coords_weights st = []) /\
  (contaminator st = None <-> Forall (fun w => w = []) (coords_weights st)) /\
  Forall (Forall (fun w => gtb w five = true)) (coords_weights st).
Proof.
  intros Hf.
  destruct (run_consistent tess period t0 duration tpfs _ _ _ _
              initial_accum_consistent Hf) as (L1 & L2 & L3 & L4 & Ht & Hc & Hw & _).
  tauto.
Qed.

(** X17.  When at least one stamp ran to its end and none had a
    contaminant pixel, the contaminant position is (NaN, NaN), there is
    no contaminant light curve, and the figure is the one the plot makes
    of these. *)
Theorem run_without_contaminant_pixels (tess gaia : bool) (period t0 duration : float)
    (tpfs : list tpf) (g g' : rng) (st : accum) :
  foldM (loop_step tess period t0 duration) tpfs initial_accum g = Ok (st, g') ->
  coords_weights st <> [] ->
  Forall (fun w => w = []) (coords_weights st) ->
  contaminant_position st = Ok (nan, nan) /\
  contaminator st = None /\
  finalize tpfs gaia period t0 st =
    plot tpfs gaia period t0 (Np.mean (ra_target st), Np.mean (dec_target st))
         (nan, nan) (target st) None (last_lc st).
Proof.
  intros Hf Hne Hall.
  destruct (run_consistent tess period t0 duration tpfs _ _ _ _
              initial_accum_consistent Hf) as (L1 & _ & _ & _ & _ & Hc & _ & Hra & _).
  assert (Hpos : contaminant_position st = Ok (nan, nan)).
  { apply position_without_contaminant_pixels.
    - intros Hnil. rewrite Hnil in L1. destruct (coords_weights st); [contradiction|discriminate].
    - clear -Hall Hra. induction Hra as [|w ra ws ras Hw _ IH]; [constructor|].
      inversion Hall; subst. constructor; [now apply Hw | now apply IH]. }
  assert (Hcont : contaminator st = None) by now apply Hc.
  split; [exact Hpos|]. split; [exact Hcont|].
  unfold finalize. now rewrite Hpos, bind_Ok, Hcont.
Qed.

(** X18.  A stamp that ran to the end of its iteration was fitted on
    its frames of non-zero flux, with the pipeline aperture when that has
    a pixel, and with an aperture that holds at least one pixel in any
    case: with an empty aperture line 214 raises [ZeroDivisionError]. *)
Theorem processed_stamp_has_aperture (tess : bool) (period t0 duration : float)
    (p0 : tpf) (st st' : accum) (g g' : rng) (loc : segment_locals) :
  segment_step tess period t0 duration p0 st g = Ok (st', Some loc, g') ->
  seg_tpf loc = tpf_select (nonzero_frames p0) p0 /\
  any2 (seg_aper loc) = true /\
  (any2 (pipeline_mask p0) = true -> seg_aper loc = pipeline_mask p0).
Proof.
  intros Hs.
  assert (Hloc : seg_tpf loc = tpf_select (nonzero_frames p0) p0 /\
                 (any2 (pipeline_mask p0) = true -> seg_aper loc = pipeline_mask p0)).
  { revert Hs. unfold segment_step. cbv zeta.
    destruct (to_periodogram _ _) as [bls|e]; rewrite ?bind_Ok, ?bind_Raise;
      [|discriminate].
    destruct (eqb _ zero); [discriminate|].
    destruct (build_lc _ _ _ _ _ _ _) as [corrected|e];
      rewrite ?bind_Ok, ?bind_Raise; [|discriminate].
    intros Hl. apply localize_Ok in Hl.
    destruct Hl as (model2 & tp & tpe & _ & Hl & _).
    injection Hl as ->. cbn [seg_tpf seg_aper]. split; [reflexivity|].
    cbn [pipeline_mask tpf_select]. now intros ->. }
  destruct Hloc as [Hp Ha]. split; [exact Hp|]. split; [|exact Ha].
  apply segment_step_Ok_cases in Hs.
  destruct Hs as [(Hnone & _)|(locs & lc & corrected & Hsome & Hl)]; [discriminate|].
  injection Hsome as <-.
  apply localize_accumulates in Hl.
  destruct Hl as (tp & tpe & ra_t & dec_t & Hra & _).
  destruct (any2 (seg_aper loc)) eqn:Hany; [reflexivity|].
  rewrite (target_coordinate_empty_aperture _ _ _ Hany) in Hra. discriminate.
Qed.

(** X19.  When [get_centroid_plot] returns a figure, at least one stamp
    ran to its end: the plot was given a target light curve and a
    contaminant position computed from a non-empty list. *)
Theorem figure_needs_a_processed_stamp (sr : list tpf) (cutouts : result (list tpf))
    (period t0 duration : float) (tess gaia : bool) (g g' : rng) (fig : figure) :
  get_centroid_plot sr cutouts period t0 duration tess gaia g = Ok (fig, g') ->
  exists tpfs st tg pos,
    acquire tess sr cutouts = Ok tpfs /\
    foldM (loop_step tess period t0 duration) tpfs initial_accum g = Ok (st, g') /\
    coords_ra st <> [] /\
    target st = Some tg /\
    contaminant_position st = Ok pos /\
    plot tpfs gaia period t0 (Np.mean (ra_target st), Np.mean (dec_target st)) pos
         (Some tg) (contaminator st) (last_lc st) = Ok fig.
Proof.
  unfold get_centroid_plot.
  destruct (acquire tess sr cutouts) as [tpfs|e]; rewrite ?bind_Ok, ?bind_Raise;
    [|discriminate].
  destruct (foldM _ tpfs initial_accum g) as [[st g1]|e] eqn:Hf;
    rewrite ?bind_Ok, ?bind_Raise; [|discriminate].
  unfold finalize.
  destruct (contaminant_position st) as [pos|e] eqn:Hpos;
    rewrite ?bind_Ok, ?bind_Raise; [|discriminate].
  destruct (plot _ _ _ _ _ _ _ _ _) as [fig'|e] eqn:Hplot;
    rewrite ?bind_Ok, ?bind_Raise; [|discriminate].
  intros Hr. inversion Hr; subst.
  assert (Hne : coords_ra st <> []).
  { intros Hnil. unfold contaminant_position in Hpos. rewrite Hnil in Hpos. discriminate. }
  destruct (run_consistent tess period t0 duration tpfs _ _ _ _
              initial_accum_consistent Hf) as (L1 & _ & _ & _ & Ht & _).
  destruct (target st) as [tg|] eqn:Htg.
  - exists tpfs, st, tg, pos. repeat split; try assumption; reflexivity.
  - exfalso. apply Hne. destruct Ht as [Ht _]. specialize (Ht eq_refl).
    rewrite Ht in L1. destruct (coords_ra st); [reflexivity|discriminate].
Qed.

End Accumulators.

Lemma accumulators_after_the_loop_witness :
  exists st g',
    foldM (@loop_step (StandIn.collaborators box_levels) false demo_period demo_t0
                  demo_duration) [demo_stamp] initial_accum 0%nat = Ok (st, g') /\
    (target st = None <-> coords_weights st = []) /\
    Forall (Forall (fun w => gtb w five = true)) (coords_weights st).
Proof.
  destruct (foldM (@loop_step (StandIn.collaborators box_levels) false demo_period
                          demo_t0 demo_duration) [demo_stamp] initial_accum 0%nat)
    as [[st g']|e] eqn:Hf.
  2:{ vm_compute in Hf. discriminate Hf. }
  destruct (accumulators_after_the_loop (H := StandIn.collaborators box_levels)
              _ _ _ _ _ _ _ _ Hf) as (_ & _ & _ & _ & Ht & _ & Hw).
  exists st, g'. split; [reflexivity|]. split; assumption.
Defined.

Lemma run_without_contaminant_pixels_witness :
  exists st g',
    foldM (@loop_step (StandIn.collaborators box_levels) false demo_period demo_t0
                  demo_duration) [quiet_stamp] initial_accum 0%nat = Ok (st, g') /\
    contaminant_position st = Ok (nan, nan) /\
    contaminator st = None.
Proof.
  destruct (foldM (@loop_step (StandIn.collaborators box_levels) false demo_period
                          demo_t0 demo_duration) [quiet_stamp] initial_accum 0%nat)
    as [[st g']|e] eqn:Hf.
  2:{ vm_compute in Hf. discriminate Hf. }
  assert (Hw : coords_weights st = [[]]).
  { pose proof Hf as Hf'. vm_compute in Hf'. injection Hf' as <- _. reflexivity. }
  destruct (run_without_contaminant_pixels (H := StandIn.collaborators box_levels)
              false false _ _ _ _ _ _ _ Hf
              ltac:(rewrite Hw; discriminate)
              ltac:(rewrite Hw; repeat constructor))
    as (Hpos & Hc & _).
  exists st, g'. split; [reflexivity|]. split; assumption.
Defined.

Lemma processed_stamp_has_aperture_witness :
  exists st' loc g',
    @segment_step (StandIn.collaborators box_levels) false demo_period demo_t0
       demo_duration demo_stamp initial_accum 0%nat = Ok (st', Some loc, g') /\
    any2 (seg_aper loc) = true.
Proof.
  destruct (@segment_step (StandIn.collaborators box_levels) false demo_period demo_t0
              demo_duration demo_stamp initial_accum 0%nat)
    as [[[st' [loc|]] g']|e] eqn:Hs.
  2:{ vm_compute in Hs. discriminate Hs. }
  2:{ vm_compute in Hs. discriminate Hs. }
  destruct (processed_stamp_has_aperture (H := StandIn.collaborators box_levels)
              _ _ _ _ _ _ _ _ _ loc Hs) as (_ & Ha & _).
  exists st', loc, g'. split; [reflexivity | exact Ha].
Defined.

Lemma figure_needs_a_processed_stamp_witness :
  exists fig g' st tg,
    @get_centroid_plot (StandIn.collaborators box_levels) [demo_stamp] (Ok [])
       demo_period demo_t0 demo_duration false false 0%nat = Ok (fig, g') /\
    target st = Some tg /\ coords_ra st <> [].
Proof.
  destruct (@get_centroid_plot (StandIn.collaborators box_levels) [demo_stamp] (Ok [])
              demo_period demo_t0 demo_duration false false 0%nat)
    as [[fig g']|e] eqn:Hg.
  2:{ vm_compute in Hg. discriminate Hg. }
  destruct (figure_needs_a_processed_stamp (H := StandIn.collaborators box_levels)
              _ _ _ _ _ _ _ _ _ _ Hg)
    as (tpfs & st & tg & pos & _ & _ & Hne & Ht & _).
  exists fig, g', st, tg. split; [reflexivity|]. split; assumption.
Defined.

(** ** build_lc: the shape of the fit *)

(** X20.  Without background and spline, when [build_lc] returns, the
    matrix it solved with has one row per cadence and one column fewer
    than [build_X] returned (the centroid columns and the [c] covariate
    columns, no offset column), and the model the light curve is divided
    by has one value per cadence, also for cadences the cadence mask left
    out of the fit. *)
Theorem build_lc_model_covers_every_cadence `{Collaborators} (p : tpf)
    (aperture_mask : list (list bool)) (cbvs : option matrix)
    (cadence_mask : option (list bool)) (spline_period : float) (c : nat)
    (lc : lightcurve) :
  build_lc p aperture_mask cbvs cadence_mask false false spline_period = Ok lc ->
  (forall v, cbvs = Some v -> shape2 (length (time p)) c v) ->
  (cbvs = None -> c = 0%nat) ->
  exists SA m,
    lc_design p cbvs false false spline_period = Ok SA /\
    shape2 (length (time p)) (centroid_columns p + c) SA /\
    lc_model p aperture_mask cbvs cadence_mask false false spline_period = Ok m /\
    length m = length (time p) /\
    lc = lc_div (to_lightcurve p aperture_mask) m.
Proof.
  intros Hb Hv Hc. rewrite build_lc_lc_model in Hb. revert Hb. unfold lc_model.
  rewrite lc_design_eq.
  destruct (regressors p false cbvs false spline_period) as [A|e] eqn:HA;
    rewrite ?bind_Ok, ?bind_Raise; [|discriminate].
  assert (Hshape : shape2 (length (time p)) (centroid_columns p + c)
                     (weight_rows (replicate (length (time p)) one) A)).
  { apply shape2_weight_rows; [apply length_replicate|].
    unfold regressors in HA.
    destruct (centroids p) as [m|e] eqn:Hm; rewrite ?bind_Ok, ?bind_Raise in HA;
      [|discriminate].
    apply shape2_centroids in Hm. inversion HA; subst A.
    destruct cbvs as [v|].
    - apply shape2_hstack2; [exact Hm|]. apply shape2_nan_to_num. now apply Hv.
    - rewrite (Hc eq_refl), Nat.add_0_r. exact Hm. }
  destruct (normal_equations _ _ _ _) as [sigma_w_inv B].
  destruct (solve sigma_w_inv B) as [w|e]; rewrite ?bind_Ok, ?bind_Raise; [|discriminate].
  intros Hlc. injection Hlc as <-.
  eexists _, _. split; [reflexivity|]. split; [exact Hshape|].
  split; [reflexivity|]. split; [|reflexivity].
  rewrite length_mat_vec. apply Hshape.
Qed.

Lemma build_lc_model_covers_every_cadence_witness :
  exists lc SA m,
    @build_lc (StandIn.collaborators box_levels) demo_stamp [[true; false; false]] None
       (Some (map (fun k => Z.even k) demo_cadences)) false false (of_Z 2) = Ok lc /\
    @lc_design (StandIn.collaborators box_levels) demo_stamp None false false (of_Z 2)
      = Ok SA /\
    shape2 12 3 SA /\
    @lc_model (StandIn.collaborators box_levels) demo_stamp [[true; false; false]] None
       (Some (map (fun k => Z.even k) demo_cadences)) false false (of_Z 2) = Ok m /\
    length m = 12%nat.
Proof.
  destruct (@build_lc (StandIn.collaborators box_levels) demo_stamp [[true; false; false]]
              None (Some (map (fun k => Z.even k) demo_cadences)) false false (of_Z 2))
    as [lc|e] eqn:Hb.
  2:{ vm_compute in Hb. discriminate Hb. }
  destruct (build_lc_model_covers_every_cadence (H := StandIn.collaborators box_levels)
              _ _ _ _ _ 0%nat lc Hb
              ltac:(intros v Hv; discriminate Hv) ltac:(reflexivity))
    as (SA & m & HSA & Hs & Hmod & Hm & _).
  exists lc, SA, m. split; [reflexivity|]. split; [exact HSA|].
  split; [exact Hs|]. split; [exact Hmod | exact Hm].
Defined.
